(** * logsearch: the search logger, versions 1 and 2

    A shallow embedding of [search_logger.go] and [postgres_mock.go]
    (version 1, the trie-based logger):
    the prefix tree, [LogSearch] with its extension step, the timeout
    sweep [processTimedOutWords], the start-up load, and the in-memory
    database the repository ships.

    Conventions of the embedding.
    - A Go string is the sequence of runes that [range] yields on it; a
      rune is its code point. (Strings are taken to be valid UTF-8, so
      that the word the sweep rebuilds rune by rune is the word that was
      walked.)
    - A [time.Time] is the number of nanoseconds since the zero instant,
      so [IsZero] is a comparison with 0; one call of the logger reads the
      clock once, and that reading is the argument [now].
    - A [*TrieNode] is the path that leads from the root to the node: every
      node is owned by exactly one parent, so the path determines it.
    - The mutex makes [LogSearch] and [processTimedOutWords] atomic; the
      ticker goroutine is the stream of [Tick] events of a trace.
    - Calls of [log.Printf] are left out, and with them the [prefix] that
      [handleWordExtension] slices for its message only.
    - Version 2 ([search_logger_v2.go], which keeps no trie and asks its
      own in-memory database at every call) is embedded in module [V2],
      with the same conventions. *)

From stdpp Require Import gmap list strings pretty.

#[local] Set Warnings "-register-all".
#[local] Open Scope Z_scope.

(** ** Go values *)

Abbreviation rune := Z (only parsing).
Abbreviation word := (list Z) (only parsing).
Abbreviation Time := Z (only parsing).
Abbreviation Duration := Z (only parsing).

(** [time.Time.IsZero] and [time.Time.Before]. *)
Definition IsZero (t : Time) : bool := t =? 0.
Definition Before (t u : Time) : bool := t <? u.

(** Two's-complement wrap-around of [int64] (and of [int] on 64-bit
    targets), for the [++] of the mock database. *)
Definition wrap64 (z : Z) : Z := (z + 2 ^ 63) mod 2 ^ 64 - 2 ^ 63.

(** [error] values: the one message the mock database produces, any other
    storage failure, and [fmt.Errorf("...: %w", err)]. *)
Inductive error :=
  | record_not_found (id : Z)
  | storage_failure
  | wrap (context : string) (cause : error).

(** What the code takes from the Go runtime and standard library: the
    Unicode tables behind [strings.ToLower] and [strings.TrimSpace], and
    the order in which [range] visits a map, which Go leaves unspecified
    (every entry is visited once). *)
Class GoRuntime := {
  unicode_ToLower : rune → rune;
  unicode_IsSpace : rune → bool;
  range_words : gset word → list word;
  range_words_perm : ∀ s, range_words s ≡ₚ elements s;
  range_ids : ∀ {V}, gmap Z V → list (Z * V);
  range_ids_perm : ∀ V (m : gmap Z V), range_ids m ≡ₚ map_to_list m
}.

Section Strings.
Context `{GoRuntime}.

Fixpoint TrimLeftSpace (s : word) : word :=
  match s with
  | [] => []
  | c :: s' => if unicode_IsSpace c then TrimLeftSpace s' else s
  end.

(** [strings.TrimSpace]: leading and trailing white space removed. *)
Definition TrimSpace (s : word) : word :=
  reverse (TrimLeftSpace (reverse (TrimLeftSpace s))).

(** [strings.ToLower]: rune by rune. *)
Definition ToLower (s : word) : word := unicode_ToLower <$> s.

Definition normalize (s : word) : word := ToLower (TrimSpace s).
End Strings.

(** ** The prefix tree *)

Inductive TrieNode := mkTrieNode {
  children : gmap Z TrieNode;
  isEndOfWord : bool;
  lastSeen : Time;
  dbID : option Z
}.

(** [&TrieNode{children: make(map[rune]*TrieNode)}] *)
Definition newTrieNode : TrieNode := mkTrieNode ∅ false 0 None.

Definition set_children (ch : gmap Z TrieNode) (n : TrieNode) : TrieNode :=
  mkTrieNode ch (isEndOfWord n) (lastSeen n) (dbID n).
Definition set_isEndOfWord (b : bool) (n : TrieNode) : TrieNode :=
  mkTrieNode (children n) b (lastSeen n) (dbID n).
Definition set_lastSeen (t : Time) (n : TrieNode) : TrieNode :=
  mkTrieNode (children n) (isEndOfWord n) t (dbID n).
Definition set_dbID (r : option Z) (n : TrieNode) : TrieNode :=
  mkTrieNode (children n) (isEndOfWord n) (lastSeen n) r.

(** Following [node = node.children[char]] along a word; [None] when a
    child is [nil]. *)
Fixpoint walk (node : TrieNode) (w : word) : option TrieNode :=
  match w with
  | [] => Some node
  | char :: w' =>
      match children node !! char with
      | Some child => walk child w'
      | None => None
      end
  end.

(** The traverse/build loop of [LogSearch] and [buildTrieFromWord]:
    missing children are created on the way. *)
Fixpoint build (w : word) (node : TrieNode) : TrieNode :=
  match w with
  | [] => node
  | char :: w' =>
      let child := default newTrieNode (children node !! char) in
      set_children (<[char := build w' child]> (children node)) node
  end.

(** A write through the pointer to the node at path [w]. *)
Fixpoint update_at (f : TrieNode → TrieNode) (w : word) (node : TrieNode) : TrieNode :=
  match w with
  | [] => f node
  | char :: w' =>
      match children node !! char with
      | Some child =>
          set_children (<[char := update_at f w' child]> (children node)) node
      | None => node
      end
  end.

(** [hasAnySearchedDescendants]: the early [return true] makes the loop a
    disjunction over the children, whatever the order of the visit. *)
Fixpoint hasAnySearchedDescendants (node : TrieNode) : bool :=
  map_fold (λ _ child found,
      found || negb (IsZero (lastSeen child)) || hasAnySearchedDescendants child)
    false (children node).

(** [findAllTimedOutWords]: the result map is keyed by the word, so its
    content does not depend on the order of the visit; the node it maps a
    word to is the one at that path. *)
Fixpoint findAllTimedOutWords (node : TrieNode) (currentWord : word)
    (cutoffTime : Time) (result : gset word) : gset word :=
  let result :=
    if negb (IsZero (lastSeen node)) && Before (lastSeen node) cutoffTime
    then {[currentWord]} ∪ result else result in
  map_fold (λ char child result,
      findAllTimedOutWords child (currentWord ++ [char]) cutoffTime result)
    result (children node).

(** ** The persistence gateway

    [SearchLogger] calls four methods on its [db]. They are kept behind an
    interface so that the error branches of the logger can be exercised;
    [MockPostgresDB] below is the implementation of the repository. *)
Class Gateway (DB : Type) := {
  gw_CreateTable : DB → DB * option error;
  gw_InsertOrReplace : DB → word → Time → Time → DB * (error + Z);
  gw_Update : DB → Z → word → Time → DB * option error;
  gw_GetAllSearchedWords : DB → DB * (error + list word)
}.

(** ** postgres_mock.go *)

Record SearchRecord := mkSearchRecord {
  ID : Z;
  Word : word;
  FirstSearchedAt : Time;
  LastUpdatedAt : Time;
  SearchCount : Z
}.

Record MockPostgresDB := mkMockPostgresDB {
  searches : gmap Z SearchRecord;
  nextID : Z
}.

Definition NewMockPostgresDB : MockPostgresDB := mkMockPostgresDB ∅ 1.

Section Mock.
Context `{GoRuntime}.

Definition CreateTable (m : MockPostgresDB) : MockPostgresDB * option error :=
  (m, None).

Definition InsertOrReplace (m : MockPostgresDB) (w : word)
    (firstSearched lastUpdated : Time) : MockPostgresDB * (error + Z) :=
  match List.find (λ '(_, record), bool_decide (Word record = w))
                  (range_ids (searches m)) with
  | Some (id, record) =>
      let record := mkSearchRecord (ID record) (Word record)
                      (FirstSearchedAt record) lastUpdated
                      (wrap64 (SearchCount record + 1)) in
      (mkMockPostgresDB (<[id := record]> (searches m)) (nextID m), inr id)
  | None =>
      let id := nextID m in
      (mkMockPostgresDB
         (<[id := mkSearchRecord id w firstSearched lastUpdated 1]> (searches m))
         (wrap64 (nextID m + 1)),
       inr id)
  end.

Definition Update (m : MockPostgresDB) (id : Z) (newWord : word)
    (lastUpdated : Time) : MockPostgresDB * option error :=
  match searches m !! id with
  | None => (m, Some (record_not_found id))
  | Some record =>
      let record := mkSearchRecord (ID record) newWord
                      (FirstSearchedAt record) lastUpdated
                      (wrap64 (SearchCount record + 1)) in
      (mkMockPostgresDB (<[id := record]> (searches m)) (nextID m), None)
  end.

Definition GetAllSearchedWords (m : MockPostgresDB)
    : MockPostgresDB * (error + list word) :=
  (m, inr ((λ '(_, record), Word record) <$> range_ids (searches m))).

Definition MockGateway : Gateway MockPostgresDB :=
  {| gw_CreateTable := CreateTable;
     gw_InsertOrReplace := InsertOrReplace;
     gw_Update := Update;
     gw_GetAllSearchedWords := GetAllSearchedWords |}.
End Mock.

(** A gateway that can be out of reach: [outages] schedules, call by call,
    whether the call fails before touching the database. It stands for the
    time-outs and lost connections of a real store. *)
Record FlakyDB := mkFlakyDB {
  inner : MockPostgresDB;
  outages : list bool
}.

Section Flaky.
Context `{GoRuntime}.

Definition flaky_call {A} (fd : FlakyDB) (failed : A)
    (call : MockPostgresDB → MockPostgresDB * A) : FlakyDB * A :=
  match outages fd with
  | true :: rest => (mkFlakyDB (inner fd) rest, failed)
  | false :: rest => let '(m, r) := call (inner fd) in (mkFlakyDB m rest, r)
  | [] => let '(m, r) := call (inner fd) in (mkFlakyDB m [], r)
  end.

Definition FlakyGateway : Gateway FlakyDB :=
  {| gw_CreateTable fd := flaky_call fd (Some storage_failure) CreateTable;
     gw_InsertOrReplace fd w t u :=
       flaky_call fd (inl storage_failure) (λ m, InsertOrReplace m w t u);
     gw_Update fd id w t :=
       flaky_call fd (Some storage_failure) (λ m, Update m id w t);
     gw_GetAllSearchedWords fd :=
       flaky_call fd (inl storage_failure) GetAllSearchedWords |}.
End Flaky.

(** ** search_logger.go *)

Record SearchLogger (DB : Type) := mkSearchLogger {
  prefixTree : TrieNode;
  db : DB;
  timeout : Duration
}.
Arguments mkSearchLogger {DB} _ _ _.
Arguments prefixTree {DB} _.
Arguments db {DB} _.
Arguments timeout {DB} _.

Definition set_prefixTree {DB} (t : TrieNode) (sl : SearchLogger DB) : SearchLogger DB :=
  mkSearchLogger t (db sl) (timeout sl).
Definition set_db {DB} (d : DB) (sl : SearchLogger DB) : SearchLogger DB :=
  mkSearchLogger (prefixTree sl) d (timeout sl).

Section Logger.
Context `{GoRuntime} {DB : Type} `{Gateway DB}.

Definition updateStoredWord (sl : SearchLogger DB) (id : Z) (newWord : word)
    (now : Time) : SearchLogger DB * option error :=
  let '(d, err) := gw_Update (db sl) id newWord now in
  (set_db d sl, err).

(** The loop of [handleWordExtension]. [path] leads to [node], and the
    index [i] of the rune in hand is its length. The trie already holds
    the whole word when [LogSearch] calls it, so [currentNode] is the node
    at [w]. The test [node.isEndOfWord && node.dbID != nil && i < len-1]
    is split into the match on [dbID], which yields the [id] that
    [*node.dbID] reads, and the two other conjuncts. *)
Fixpoint handleWordExtension_loop (w : word) (now : Time) (path : word)
    (rest : list rune) (sl : SearchLogger DB) : SearchLogger DB * option error :=
  match rest with
  | [] => (sl, None)
  | char :: rest' =>
      let i := Z.of_nat (length path) in
      let path' := path ++ [char] in
      match walk (prefixTree sl) path' with
      | None => (sl, None)
      | Some node =>
          match dbID node with
          | Some id =>
              if isEndOfWord node && (i <? Z.of_nat (length w) - 1) then
                let '(sl, err) := updateStoredWord sl id w now in
                match err with
                | Some e => (sl, Some (wrap "failed to update stored word" e))
                | None =>
                    let tree := update_at (set_dbID (Some id)) w (prefixTree sl) in
                    let tree := update_at (set_dbID None) path' tree in
                    handleWordExtension_loop w now path' rest' (set_prefixTree tree sl)
                end
              else handleWordExtension_loop w now path' rest' sl
          | None => handleWordExtension_loop w now path' rest' sl
          end
      end
  end.

Definition handleWordExtension (sl : SearchLogger DB) (w : word) (now : Time)
    : SearchLogger DB * option error :=
  handleWordExtension_loop w now [] w sl.

Definition LogSearch (sl : SearchLogger DB) (input : word) (now : Time)
    : SearchLogger DB * option error :=
  match input with
  | [] => (sl, None)
  | _ =>
      let w := normalize input in
      let tree := build w (prefixTree sl) in
      let tree := update_at (set_lastSeen now) w tree in
      let '(sl, err) := handleWordExtension (set_prefixTree tree sl) w now in
      match err with
      | Some e => (sl, Some (wrap "failed to handle word extension" e))
      | None => (sl, None)
      end
  end.

Definition storeWordToDB (sl : SearchLogger DB) (w : word) (now : Time)
    : SearchLogger DB * option error :=
  let '(d, r) := gw_InsertOrReplace (db sl) w now now in
  match r with
  | inl e => (set_db d sl, Some e)
  | inr id =>
      (set_prefixTree (update_at (set_dbID (Some id)) w (prefixTree sl)) (set_db d sl),
       None)
  end.

Definition isPrefixOfAnyWord (sl : SearchLogger DB) (w : word) : bool :=
  match walk (prefixTree sl) w with
  | None => false
  | Some node => hasAnySearchedDescendants node
  end.

(** The body of the [for word, node := range timedOutWords] loop. *)
Definition sweep_word (now : Time) (sl : SearchLogger DB) (w : word) : SearchLogger DB :=
  match walk (prefixTree sl) w with
  | None => sl
  | Some node =>
      if bool_decide (dbID node ≠ None) then sl
      else if isPrefixOfAnyWord sl w then sl
      else
        let tree := update_at (set_isEndOfWord true) w (prefixTree sl) in
        fst (storeWordToDB (set_prefixTree tree sl) w now)
  end.

(** The early return on an empty [timedOutWords] is the loop over no
    word. *)
Definition processTimedOutWords (sl : SearchLogger DB) (now : Time) : SearchLogger DB :=
  let cutoffTime := now - timeout sl in
  let timedOutWords := findAllTimedOutWords (prefixTree sl) [] cutoffTime ∅ in
  foldl (sweep_word now) sl (range_words timedOutWords).

Definition GetStoredSearches (sl : SearchLogger DB) : error + list word :=
  snd (gw_GetAllSearchedWords (db sl)).

(** [buildTrieFromWord] returns [nil] on every path, so that the error
    branch of its caller is never taken; only the logger is returned. *)
Definition buildTrieFromWord (sl : SearchLogger DB) (w : word) (now : Time)
    : SearchLogger DB :=
  let tree := build w (prefixTree sl) in
  let tree := update_at (set_isEndOfWord true) w tree in
  let tree := update_at (set_lastSeen now) w tree in
  set_prefixTree tree sl.

Definition loadExistingWords (sl : SearchLogger DB) (now : Time)
    : SearchLogger DB * option error :=
  let '(d, r) := gw_GetAllSearchedWords (db sl) in
  match r with
  | inl e => (set_db d sl, Some (wrap "failed to get words from database" e))
  | inr words =>
      (foldl (λ sl w, buildTrieFromWord sl w now) (set_db d sl) words, None)
  end.

Definition NewSearchLoggerWithDB (timeout : Duration) (d : DB) (now : Time)
    : error + SearchLogger DB :=
  let '(d, err) := gw_CreateTable d in
  match err with
  | Some e => inl (wrap "failed to create table" e)
  | None =>
      let logger := mkSearchLogger newTrieNode d timeout in
      let '(logger, err) := loadExistingWords logger now in
      match err with
      | Some e => inl (wrap "failed to load existing words" e)
      | None => inr logger
      end
  end.

(** ** Traces: calls of [LogSearch] and ticks of the sweeper *)

Inductive Event :=
  | Submit (input : word) (now : Time)
  | Tick (now : Time).

Definition at_time (e : Event) : Time :=
  match e with Submit _ t => t | Tick t => t end.

Definition step (sl : SearchLogger DB) (e : Event) : SearchLogger DB :=
  match e with
  | Submit input now => fst (LogSearch sl input now)
  | Tick now => processTimedOutWords sl now
  end.

Definition run (sl : SearchLogger DB) (trace : list Event) : SearchLogger DB :=
  foldl step sl trace.
End Logger.

(** ** Measures and views of the tree *)

Fixpoint height (node : TrieNode) : nat :=
  S (map_fold (λ _ child h, max (height child) h) 0%nat (children node)).

(** The three fields a node carries besides its children. *)
Definition fields (n : TrieNode) : bool * Time * option Z :=
  (isEndOfWord n, lastSeen n, dbID n).

(** The fields of the node at a path, when the path exists. *)
Definition peek (t : TrieNode) (p : word) : option (bool * Time * option Z) :=
  fields <$> walk t p.

Definition seen_at (t : TrieNode) (p : word) : Time :=
  from_option lastSeen 0 (walk t p).
Definition ref_at (t : TrieNode) (p : word) : option Z :=
  walk t p ≫= dbID.
Definition ended_at (t : TrieNode) (p : word) : bool :=
  from_option isEndOfWord false (walk t p).

(** ** Loggers to start from *)

(** [NewSearchLogger]: a logger over a new mock database. *)
Definition NewSearchLogger `{GoRuntime} (timeout : Duration) (now : Time)
    : error + SearchLogger MockPostgresDB :=
  NewSearchLoggerWithDB (H0 := MockGateway) timeout NewMockPostgresDB now.

(** The logger a successful start over an empty database returns. *)
Definition fresh_logger (timeout : Duration) : SearchLogger MockPostgresDB :=
  mkSearchLogger newTrieNode NewMockPostgresDB timeout.

(** A logger over a gateway whose calls fail as [outages] says. *)
Definition flaky_logger (timeout : Duration) (outages : list bool) : SearchLogger FlakyDB :=
  mkSearchLogger newTrieNode (mkFlakyDB NewMockPostgresDB outages) timeout.

(** ** Vocabulary of the statements *)

(** [f] writes fields only, and writes them as [g] says. *)
Definition writes (f : TrieNode → TrieNode)
    (g : bool * Time * option Z → bool * Time * option Z) : Prop :=
  ∀ n, children (f n) = children n ∧ fields (f n) = g (fields n).

(** [p] is a prefix of [w] and shorter than [w]. *)
Definition proper_prefix (p w : word) : Prop := ∃ k, k ≠ [] ∧ w = p ++ k.

(** The test the sweep applies to a collected word before it stores it. *)
Definition storable {DB} (sl : SearchLogger DB) (w : word) : bool :=
  match walk (prefixTree sl) w with
  | Some node =>
      bool_decide (dbID node = None) && negb (isPrefixOfAnyWord sl w)
  | None => false
  end.

(** The words a tick at [now] collects. *)
Definition timedOutWords {DB} (sl : SearchLogger DB) (now : Time) : gset word :=
  findAllTimedOutWords (prefixTree sl) [] (now - timeout sl) ∅.

(** Some record of the database holds the word. *)
Definition holds (m : MockPostgresDB) (w : word) : Prop :=
  ∃ id record, searches m !! id = Some record ∧ Word record = w.

(** The identifiers in use are below [nextID], and [n] more can be handed
    out before the counter wraps. *)
Definition mock_room (n : Z) (m : MockPostgresDB) : Prop :=
  (∀ id, is_Some (searches m !! id) → id < nextID m) ∧
  - 2 ^ 63 ≤ nextID m ∧ nextID m + n < 2 ^ 63.

(** [p] is a shorter word on the way to [w] that the extension step takes
    for stored: marked as a word and holding a reference. *)
Definition stored_prefix (t : TrieNode) (w p : word) : Prop :=
  p ≠ [] ∧ proper_prefix p w ∧ ended_at t p = true ∧ is_Some (ref_at t p).

(** The tree after the first half of [LogSearch]. *)
Definition touch (w : word) (now : Time) (t : TrieNode) : TrieNode :=
  update_at (set_lastSeen now) w (build w t).

(** The clock readings of a trace start at or after [t] and never go
    back. *)
Fixpoint clock_from (t : Time) (trace : list Event) : bool :=
  match trace with
  | [] => true
  | e :: rest => (t <=? at_time e) && clock_from (at_time e) rest
  end.

(** The words the start-up load reads from the gateway. *)
Definition loaded_words {DB} `{Gateway DB} (d : DB) : list word :=
  match (gw_GetAllSearchedWords (gw_CreateTable d).1).2 with
  | inr words => words
  | inl _ => []
  end.

(** The tick at [now] reaches [storeWordToDB] for [w]: the word is
    collected, its node holds no reference, and it has no searched
    descendant. *)
Definition stores_at_tick {DB} (sl : SearchLogger DB) (now : Time) (w : word) : Prop :=
  w ∈ timedOutWords sl now ∧ storable sl w = true.

(** The submissions of a trace, in order. *)
Fixpoint submissions (trace : list Event) : list (word * Time) :=
  match trace with
  | [] => []
  | Submit input now :: rest => (input, now) :: submissions rest
  | Tick _ :: rest => submissions rest
  end.

(** Nothing has been written: the database is new and no node holds a
    reference. *)
Definition unstored (sl : SearchLogger MockPostgresDB) : Prop :=
  db sl = NewMockPostgresDB ∧ ∀ q, ref_at (prefixTree sl) q = None.

(** The database after one write, of [W] at [T], to a new database: one
    record, counted once. *)
Definition written_once (W : word) (T : Time) : MockPostgresDB :=
  mkMockPostgresDB {[1 := mkSearchRecord 1 W T T 1]} 2.

(** [W] has been written once, at some tick, to a new database, and its
    node is the only one that holds a reference. *)
Definition stored_once (W : word) (sl : SearchLogger MockPostgresDB) : Prop :=
  (∃ T, db sl = written_once W T) ∧
  (∀ q, q ≠ W → ref_at (prefixTree sl) q = None) ∧
  is_Some (ref_at (prefixTree sl) W).

(** Every word typed so far is a prefix of [W], and [W] is stored once or
    nothing is. *)
Definition converging (W : word) (sl : SearchLogger MockPostgresDB) : Prop :=
  (∀ q, seen_at (prefixTree sl) q ≠ 0 → q `prefix_of` W) ∧
  (unstored sl ∨ (stored_once W sl ∧ seen_at (prefixTree sl) W ≠ 0)).

(** Nothing is stored, or [W] alone, written once. *)
Definition stored_ok `{GoRuntime} (W : word) (sl : SearchLogger MockPostgresDB) : Prop :=
  (db sl = NewMockPostgresDB ∧ GetStoredSearches (H0 := MockGateway) sl = inr []) ∨
  ((∃ T, db sl = written_once W T) ∧
   GetStoredSearches (H0 := MockGateway) sl = inr [W]).

(** The time of the last submission of a list, or [t] when it is empty. *)
Fixpoint last_time (t : Time) (subs : list (word * Time)) : Time :=
  match subs with
  | [] => t
  | (_, t') :: rest => last_time t' rest
  end.

(** The submissions that remain continue a chain of strictly growing
    prefixes up to [W]: non-empty inputs whose words (their normalised
    forms, which [LogSearch] walks) are each a proper prefix of the next
    one, which follows within the timeout. [last] is the word and the time
    of the submission before them, if any. *)
Fixpoint chain_from `{GoRuntime} (tmo : Duration) (W : word)
    (last : option (word * Time)) (subs : list (word * Time)) : Prop :=
  match subs with
  | [] => match last with Some (p, _) => p = W | None => False end
  | (input, t') :: rest =>
      input ≠ [] ∧
      match last with
      | Some (p, t) => proper_prefix p (normalize input) ∧ t' ≤ t + tmo
      | None => True
      end ∧
      chain_from tmo W (Some (normalize input, t')) rest
  end.

Definition growing_chain `{GoRuntime} (tmo : Duration) (W : word)
    (subs : list (word * Time)) : Prop :=
  chain_from tmo W None subs.

(** Non-empty inputs whose words are each a proper prefix of the one
    before. *)
Fixpoint shrinking `{GoRuntime} (prev : word) (subs : list (word * Time)) : Prop :=
  match subs with
  | [] => True
  | (input, _) :: rest =>
      input ≠ [] ∧ proper_prefix (normalize input) prev ∧
      shrinking (normalize input) rest
  end.

(** [W] first, then shorter and shorter prefixes of it. *)
Definition decreasing_chain `{GoRuntime} (W : word) (subs : list (word * Time)) : Prop :=
  match subs with
  | [] => False
  | (input, _) :: rest => input ≠ [] ∧ normalize input = W ∧ shrinking W rest
  end.

(** The time of the first submission of a list. *)
Definition first_time (subs : list (word * Time)) : Time :=
  match subs with
  | [] => 0
  | (_, t) :: _ => t
  end.

(** ** A runtime and inputs for the examples *)

(** ASCII tables, and [range] in the order of [map_to_list]. *)
Definition ascii_ToLower (c : rune) : rune :=
  if (65 <=? c) && (c <=? 90) then c + 32 else c.
Definition ascii_IsSpace (c : rune) : bool :=
  bool_decide (c ∈ [9; 10; 11; 12; 13; 32]).

Definition ascii_runtime : GoRuntime :=
  {| unicode_ToLower := ascii_ToLower;
     unicode_IsSpace := ascii_IsSpace;
     range_words := elements;
     range_words_perm := λ s, reflexivity (elements s);
     range_ids := λ V m, map_to_list m;
     range_ids_perm := λ V m, reflexivity (map_to_list m) |}.

(** The runes of an ASCII string literal. *)
Definition runes (s : string) : word :=
  (λ a, Z.of_N (Ascii.N_of_ascii a)) <$> String.list_ascii_of_string s.

(** ** Example scenarios *)

(** The database a first logger leaves after ["a"] was typed and timed
    out: one record, holding ["a"]. *)
Definition db_holding_a : MockPostgresDB :=
  db (run (H := ascii_runtime) (H0 := MockGateway (H := ascii_runtime))
        (fresh_logger 100) [Submit (runes "a") 1; Tick 200]).

(** A logger started at [now] with timeout 100 over that database. *)
Definition restarted_logger (now : Time) : SearchLogger MockPostgresDB :=
  match NewSearchLoggerWithDB (H0 := MockGateway (H := ascii_runtime))
          100 db_holding_a now with
  | inr sl => sl
  | inl _ => fresh_logger 100
  end.

(** ["a"] stored, the rename to ["ab"] refused, ["ab"] stored by the
    next tick: two stored prefixes on the way to ["abc"]. The gateway will
    accept the next call and refuse the one after. *)
Definition two_stored_prefixes : SearchLogger FlakyDB :=
  run (H := ascii_runtime) (H0 := FlakyGateway (H := ascii_runtime))
    (flaky_logger 100 [false; true; false; false; true])
    [Submit (runes "a") 1; Tick 200; Submit (runes "ab") 300; Tick 500].

(** ["a"] stored, over a gateway that refuses the next call. *)
Definition stored_a_then_outage : SearchLogger FlakyDB :=
  run (H := ascii_runtime) (H0 := FlakyGateway (H := ascii_runtime))
    (flaky_logger 100 [false; true])
    [Submit (runes "a") 1; Tick 200].

(** ["a"] and ["b"] typed, over a gateway that refuses the next call. *)
Definition two_words_then_outage : SearchLogger FlakyDB :=
  run (H := ascii_runtime) (H0 := FlakyGateway (H := ascii_runtime))
    (flaky_logger 100 [true])
    [Submit (runes "a") 1; Submit (runes "b") 2].

(** ** More of postgres_mock.go, and of the vocabulary *)

Section MockQueries.
Context `{GoRuntime}.

(** [GetAllRecords]: the records, in the order of the visit. *)
Definition GetAllRecords (m : MockPostgresDB) : MockPostgresDB * list SearchRecord :=
  (m, (λ '(_, record), record) <$> range_ids (searches m)).
End MockQueries.

(** Every record is filed under its own [ID]. *)
Definition filed_by_ID (m : MockPostgresDB) : Prop :=
  ∀ id record, searches m !! id = Some record → ID record = id.

(** The [UNIQUE] constraint that [CreateTable] declares on the [word]
    column: two records with the same word are the same record. *)
Definition unique_words (m : MockPostgresDB) : Prop :=
  ∀ id1 r1 id2 r2,
    searches m !! id1 = Some r1 → searches m !! id2 = Some r2 →
    Word r1 = Word r2 → id1 = id2.

(** The record an update leaves: a new word and time, one more count. *)
Definition updated (record : SearchRecord) (w : word) (t : Time) : SearchRecord :=
  mkSearchRecord (ID record) w (FirstSearchedAt record) t
    (wrap64 (SearchCount record + 1)).

(** Every reference held by a node names a record of the database. *)
Definition refs_valid (sl : SearchLogger MockPostgresDB) : Prop :=
  ∀ p id, ref_at (prefixTree sl) p = Some id → is_Some (searches (db sl) !! id).

(** The trie and the database agree: a reference held by a node names a
    record that holds the word of that node, and no two nodes hold the
    same reference. *)
Definition consistent (sl : SearchLogger MockPostgresDB) : Prop :=
  (∀ p id, ref_at (prefixTree sl) p = Some id →
     ∃ record, searches (db sl) !! id = Some record ∧ Word record = p) ∧
  (∀ p q id, ref_at (prefixTree sl) p = Some id →
     ref_at (prefixTree sl) q = Some id → p = q).

(** ** More scenarios *)

(** The database of the example with a record for ["b"] besides. *)
Definition db_holding_a_b : MockPostgresDB :=
  (InsertOrReplace (H := ascii_runtime) db_holding_a (runes "b") 300 300).1.

(** ["a"] typed, timed out and stored. *)
Definition stored_a : SearchLogger MockPostgresDB :=
  run (H := ascii_runtime) (H0 := MockGateway (H := ascii_runtime))
    (fresh_logger 100) [Submit (runes "a") 1; Tick 200].

(** A runtime whose [range] visits maps the other way round. *)
Definition reversed_runtime : GoRuntime :=
  {| unicode_ToLower := ascii_ToLower;
     unicode_IsSpace := ascii_IsSpace;
     range_words := λ s, reverse (elements s);
     range_words_perm := λ s, reverse_Permutation (elements s);
     range_ids := λ V m, reverse (map_to_list m);
     range_ids_perm := λ V m, reverse_Permutation (map_to_list m) |}.

(** * Version 2: per-user deduplication against the database

    [search_logger_v2.go] and its in-memory database. A user identifier
    and a map key are only ever compared, so they are kept as strings; a
    searched word is normalised and compared by prefix, so it is a sequence
    of runes as in version 1. *)

Module V2.

(** What [range] does on the map of version 2, whose keys are strings. *)
Class RangeKeys := {
  range_keys : ∀ {V}, gmap string V → list (string * V);
  range_keys_perm : ∀ V (m : gmap string V), range_keys m ≡ₚ map_to_list m
}.

(** [len(s)] is the number of bytes of the UTF-8 encoding of [s]; a rune of
    a valid string takes one to four of them. *)
Definition utf8_len (c : rune) : Z :=
  if c <=? 0x7F then 1 else if c <=? 0x7FF then 2 else if c <=? 0xFFFF then 3 else 4.
Definition len (s : word) : Z := foldr (λ c n, utf8_len c + n) 0 s.

(** [strings.HasPrefix]: on valid UTF-8 a prefix in bytes is a prefix in
    runes. *)
Definition HasPrefix (s prefix : word) : bool := bool_decide (prefix `prefix_of` s).

Inductive error :=
  | empty_argument
  | record_not_found (userIdentifier : string) (w : word)
  | wrap (context : string) (cause : error).

Record UserSearchRecord := mkUserSearchRecord {
  ID : Z;
  UserIdentifier : string;
  SearchWord : word;
  FirstSearchedAt : Time;
  LastUpdatedAt : Time;
  SearchCount : Z
}.

Record MockPostgresDBV2 := mkMockPostgresDBV2 {
  userSearches : gmap string UserSearchRecord;
  nextID : Z
}.

Definition NewMockPostgresDBV2 : MockPostgresDBV2 := mkMockPostgresDBV2 ∅ 1.

(** [fmt.Sprintf("%d", id)] *)
Definition Sprintf_d (id : Z) : string := pretty id.

Section MockV2.
Context `{RangeKeys}.

Definition CreateTable (m : MockPostgresDBV2) : MockPostgresDBV2 * option error :=
  (m, None).

(** The loops that look for the record of a user and a word stop at the
    first one the visit meets. *)
Definition find_user_word (m : MockPostgresDBV2) (userIdentifier : string) (w : word)
    : option (string * UserSearchRecord) :=
  List.find (λ '(_, record),
      bool_decide (UserIdentifier record = userIdentifier) &&
      bool_decide (SearchWord record = w))
    (range_keys (userSearches m)).

(** [INSERT ... ON CONFLICT UPDATE]: the record found is written back
    under the key that prints its [ID]. *)
Definition InsertOrUpdateUserSearch (m : MockPostgresDBV2) (userIdentifier : string)
    (w : word) (firstSearched lastUpdated : Time) : MockPostgresDBV2 * (error + Z) :=
  match find_user_word m userIdentifier w with
  | Some (_, record) =>
      let record := mkUserSearchRecord (ID record) (UserIdentifier record)
                      (SearchWord record) (FirstSearchedAt record) lastUpdated
                      (wrap64 (SearchCount record + 1)) in
      (mkMockPostgresDBV2 (<[Sprintf_d (ID record) := record]> (userSearches m)) (nextID m),
       inr (ID record))
  | None =>
      let id := nextID m in
      (mkMockPostgresDBV2
         (<[Sprintf_d id :=
              mkUserSearchRecord id userIdentifier w firstSearched lastUpdated 1]>
            (userSearches m))
         (wrap64 (nextID m + 1)),
       inr id)
  end.

Definition GetUserSearches (m : MockPostgresDBV2) (userIdentifier : string)
    : MockPostgresDBV2 * (error + list word) :=
  (m, inr ((λ '(_, record), SearchWord record) <$>
           filter (λ '(_, record), UserIdentifier record = userIdentifier)
             (range_keys (userSearches m)))).

(** Both loops run before the map is changed; then the old record is
    deleted, and the record of the new word is merged or created. *)
Definition UpdateUserSearchByWord (m : MockPostgresDBV2) (userIdentifier : string)
    (oldWord newWord : word) (lastUpdated : Time) : MockPostgresDBV2 * option error :=
  match find_user_word m userIdentifier oldWord with
  | None => (m, Some (record_not_found userIdentifier oldWord))
  | Some (oldKey, oldRecord) =>
      let existing := find_user_word m userIdentifier newWord in
      let searches := delete oldKey (userSearches m) in
      match existing with
      | Some (existingKey, existingRecord) =>
          let mergedRecord :=
            mkUserSearchRecord (ID existingRecord) userIdentifier newWord
              (if Before (FirstSearchedAt oldRecord) (FirstSearchedAt existingRecord)
               then FirstSearchedAt oldRecord else FirstSearchedAt existingRecord)
              lastUpdated
              (wrap64 (SearchCount existingRecord + SearchCount oldRecord)) in
          (mkMockPostgresDBV2 (<[existingKey := mergedRecord]> searches) (nextID m), None)
      | None =>
          (mkMockPostgresDBV2
             (<[oldKey :=
                  mkUserSearchRecord (ID oldRecord) userIdentifier newWord
                    (FirstSearchedAt oldRecord) lastUpdated
                    (wrap64 (SearchCount oldRecord + 1))]> searches)
             (nextID m),
           None)
      end
  end.

Definition Close (m : MockPostgresDBV2) : MockPostgresDBV2 * option error := (m, None).

End MockV2.

Record SearchLoggerV2 := mkSearchLoggerV2 { db : MockPostgresDBV2 }.

Section LoggerV2.
Context `{GoRuntime} `{RangeKeys}.

Definition NewSearchLoggerV2WithDB (d : MockPostgresDBV2) : error + SearchLoggerV2 :=
  let '(d, err) := CreateTable d in
  match err with
  | Some e => inl (wrap "failed to create table" e)
  | None => inr (mkSearchLoggerV2 d)
  end.

Definition NewSearchLoggerV2 : error + SearchLoggerV2 :=
  NewSearchLoggerV2WithDB NewMockPostgresDBV2.

(** The first loop returns at the first stored word that the new word
    extends, the second one at the first stored word that extends the new
    word; [fmt.Printf] is left out. *)
Definition storeOrExtendUserSearch (sl : SearchLoggerV2) (userIdentifier : string)
    (w : word) (timestamp : Time) : SearchLoggerV2 * option error :=
  let '(d, r) := GetUserSearches (db sl) userIdentifier in
  match r with
  | inl e => (mkSearchLoggerV2 d, Some e)
  | inr existingWords =>
      match List.find (λ existingWord,
                (len existingWord <? len w) && HasPrefix w existingWord)
              existingWords with
      | Some existingWord =>
          let '(d, err) := UpdateUserSearchByWord d userIdentifier existingWord w timestamp in
          (mkSearchLoggerV2 d, err)
      | None =>
          if existsb (λ existingWord,
                 (len w <? len existingWord) && HasPrefix existingWord w)
               existingWords
          then (mkSearchLoggerV2 d, None)
          else
            let '(d, r) := InsertOrUpdateUserSearch d userIdentifier w timestamp timestamp in
            match r with
            | inl e => (mkSearchLoggerV2 d, Some e)
            | inr _ => (mkSearchLoggerV2 d, None)
            end
      end
  end.

Definition LogSearchV2 (sl : SearchLoggerV2) (userIdentifier : string) (input : word)
    (now : Time) : SearchLoggerV2 * option error :=
  if bool_decide (input = []) || bool_decide (userIdentifier = "") then
    (sl, Some empty_argument)
  else
    let w := normalize input in
    let '(sl, err) := storeOrExtendUserSearch sl userIdentifier w now in
    match err with
    | Some e => (sl, Some (wrap "failed to store user search" e))
    | None => (sl, None)
    end.


End LoggerV2.

Record UserIdentifierGenerator := mkUserIdentifierGenerator { counter : Z }.

Definition NewUserIdentifierGenerator : UserIdentifierGenerator :=
  mkUserIdentifierGenerator 0.

(** [gen.counter++] on an [int], then the identifier is printed. *)
Definition GenerateAnonID (gen : UserIdentifierGenerator)
    : UserIdentifierGenerator * string :=
  let gen := mkUserIdentifierGenerator (wrap64 (counter gen + 1)) in
  (gen, "guest_" +:+ Sprintf_d (counter gen)).

Definition GenerateUserID (gen : UserIdentifierGenerator)
    : UserIdentifierGenerator * string :=
  let gen := mkUserIdentifierGenerator (wrap64 (counter gen + 1)) in
  let userID := Sprintf_d (counter gen) in
  (gen, "user_" +:+ userID).

(** ** Vocabulary of the statements about version 2 *)

(** Every record is filed under the key that prints its [ID]. *)
Definition filed (m : MockPostgresDBV2) : Prop :=
  ∀ key record, userSearches m !! key = Some record → key = Sprintf_d (ID record).

(** [UNIQUE(user_identifier, search_word)], as the table is declared. *)
Definition unique (m : MockPostgresDBV2) : Prop :=
  ∀ k1 r1 k2 r2,
    userSearches m !! k1 = Some r1 → userSearches m !! k2 = Some r2 →
    UserIdentifier r1 = UserIdentifier r2 → SearchWord r1 = SearchWord r2 →
    k1 = k2.

(** The identifiers in use are below [nextID], and [n] more can be handed
    out before the counter wraps. *)
Definition room (n : Z) (m : MockPostgresDBV2) : Prop :=
  (∀ key record, userSearches m !! key = Some record → ID record < nextID m) ∧
  - 2 ^ 63 ≤ nextID m ∧ nextID m + n < 2 ^ 63.

(** Some record of the user holds the word. *)
Definition has (m : MockPostgresDBV2) (userIdentifier : string) (w : word) : Prop :=
  ∃ key record, userSearches m !! key = Some record ∧
    UserIdentifier record = userIdentifier ∧ SearchWord record = w.

(** No stored word of the user is a proper prefix of another stored word
    of the same user; and so for every user. *)
Definition prefix_free_for (m : MockPostgresDBV2) (userIdentifier : string) : Prop :=
  ∀ p w, has m userIdentifier p → has m userIdentifier w → ¬ proper_prefix p w.
Definition prefix_free (m : MockPostgresDBV2) : Prop :=
  ∀ userIdentifier, prefix_free_for m userIdentifier.

(** A sequence of calls of [LogSearchV2]: who, what, when. *)
Definition runV2 `{GoRuntime} `{RangeKeys} (sl : SearchLoggerV2)
    (calls : list (string * word * Time)) : SearchLoggerV2 :=
  foldl (λ sl '(userIdentifier, input, now),
           (LogSearchV2 sl userIdentifier input now).1) sl calls.



(** A sequence of calls of the generator, [true] for [GenerateAnonID] and
    [false] for [GenerateUserID], with the identifiers it returns. *)
Fixpoint generate (gen : UserIdentifierGenerator) (calls : list bool) : list string :=
  match calls with
  | [] => []
  | anon :: calls =>
      let '(gen, id) := if anon then GenerateAnonID gen else GenerateUserID gen in
      id :: generate gen calls
  end.

End V2.

(** ** Scenarios of version 2 *)

(** [range] in the order of [map_to_list]. *)
Definition map_order : V2.RangeKeys :=
  {| V2.range_keys := λ V m, map_to_list m;
     V2.range_keys_perm := λ V m, reflexivity (map_to_list m) |}.

(** The logger of version 2 over a new database. *)
Definition fresh_loggerV2 : V2.SearchLoggerV2 :=
  V2.mkSearchLoggerV2 V2.NewMockPostgresDBV2.

(** One user has typed ["bu"], another one ["cat"]. *)
Definition two_users : V2.SearchLoggerV2 :=
  V2.runV2 (H := ascii_runtime) (H0 := map_order) fresh_loggerV2
    [("user_1"%string, runes "bu", 1); ("guest_2"%string, runes "cat", 2)].

(** * Properties *)

Section TreeFacts.

Lemma height_child n c ch : children n !! c = Some ch → (height ch < height n)%nat.
Proof.
  destruct n as [m e l d]; simpl. intros Hc.
  apply Nat.lt_succ_r. rewrite map_fold_foldr.
  apply elem_of_map_to_list in Hc. revert Hc.
  induction (map_to_list m) as [|[k x] rest IH]; simpl.
  - by intros ?%elem_of_nil.
  - intros [Heq | Hin]%elem_of_cons.
    + injection Heq as -> ->. lia.
    + specialize (IH Hin). lia.
Qed.

(** Induction on the tree: a property holds of a node as soon as it holds
    of all its children. *)
Lemma TrieNode_children_ind (P : TrieNode → Prop) :
  (∀ n, (∀ c ch, children n !! c = Some ch → P ch) → P n) → ∀ n, P n.
Proof.
  intros Hstep n.
  remember (height n) as h eqn:Hh.
  revert n Hh. induction h as [h IH] using lt_wf_ind. intros n ->.
  apply Hstep. intros c ch Hc. eapply IH; [|done]. by eapply height_child.
Qed.

Lemma walk_app t p q : walk t (p ++ q) = walk t p ≫= λ n, walk n q.
Proof.
  revert t. induction p as [|c p IH]; intros t; simpl; [done|].
  destruct (children t !! c); simpl; [apply IH|done].
Qed.

Lemma walk_snoc_Some t p c n :
  walk t (p ++ [c]) = Some n → ∃ m, walk t p = Some m ∧ children m !! c = Some n.
Proof.
  rewrite walk_app. destruct (walk t p) as [m|]; simpl; [|done].
  destruct (children m !! c) eqn:E; [|done]. intros [= ->]. eauto.
Qed.

Lemma walk_prefix_Some t p q : is_Some (walk t (p ++ q)) → is_Some (walk t p).
Proof. rewrite walk_app. destruct (walk t p); [eauto|]. by intros [? ?]. Qed.

Lemma walk_newTrieNode p : p ≠ [] → walk newTrieNode p = None.
Proof. destruct p; [done|]. simpl. by rewrite lookup_empty. Qed.

(** *** [build] *)

Lemma peek_build w t p :
  peek (build w t) p =
    if bool_decide (p `prefix_of` w)
    then Some (default (fields newTrieNode) (peek t p))
    else peek t p.
Proof.
  unfold peek. revert t p. induction w as [|c w IH]; intros t p.
  - simpl. case_bool_decide as Hp; [|done].
    apply prefix_nil_inv in Hp as ->. done.
  - destruct p as [|c' p].
    + rewrite bool_decide_eq_true_2 by apply prefix_nil. done.
    + simpl. destruct (decide (c = c')) as [->|Hne].
      * rewrite lookup_insert_eq. rewrite IH.
        destruct (children t !! c') as [ch|] eqn:Hch; simpl.
        -- repeat case_bool_decide; try done.
           ++ exfalso. eauto using prefix_cons.
           ++ exfalso. eauto using prefix_cons_inv_2.
        -- repeat case_bool_decide; try done.
           ++ destruct p; [done|]. simpl. by rewrite lookup_empty.
           ++ exfalso. eauto using prefix_cons.
           ++ exfalso. eauto using prefix_cons_inv_2.
           ++ destruct p; [|simpl; by rewrite lookup_empty].
              exfalso. eauto using prefix_nil.
      * rewrite lookup_insert_ne by done.
        rewrite bool_decide_eq_false_2; [done|].
        intros Hp. by apply prefix_cons_inv_1 in Hp.
Qed.

Lemma walk_build_is_Some w t p :
  is_Some (walk (build w t) p) ↔ p `prefix_of` w ∨ is_Some (walk t p).
Proof.
  pose proof (peek_build w t p) as Hpk. unfold peek in Hpk.
  case_bool_decide as Hp.
  - split; [auto|]. intros _. destruct (walk (build w t) p); [eauto|done].
  - split.
    + intros [n Hn]. rewrite Hn in Hpk. right.
      destruct (walk t p); [eauto|done].
    + intros [?|[n Hn]]; [done|]. rewrite Hn in Hpk.
      destruct (walk (build w t) p); [eauto|done].
Qed.

(** *** [update_at] *)

Lemma writes_set_lastSeen t : writes (set_lastSeen t) (λ '(e, _, d), (e, t, d)).
Proof. by intros []. Qed.
Lemma writes_set_dbID r : writes (set_dbID r) (λ '(e, l, _), (e, l, r)).
Proof. by intros []. Qed.
Lemma writes_set_isEndOfWord b : writes (set_isEndOfWord b) (λ '(_, l, d), (b, l, d)).
Proof. by intros []. Qed.

Lemma peek_update_at f g w t p :
  writes f g →
  peek (update_at f w t) p = if decide (p = w) then g <$> peek t p else peek t p.
Proof.
  intros Hf. unfold peek. revert t p. induction w as [|c w IH]; intros t p.
  - simpl. destruct p as [|c' p]; simpl.
    + destruct (Hf t) as [_ ->]. done.
    + destruct (Hf t) as [-> _]. done.
  - simpl. destruct (children t !! c) as [ch|] eqn:Hch.
    + destruct p as [|c' p]; simpl; [done|].
      destruct (decide (c = c')) as [->|Hne].
      * rewrite lookup_insert_eq, Hch, IH.
        repeat case_decide; congruence.
      * rewrite lookup_insert_ne by done.
        case_decide; [congruence|done].
    + case_decide as Hp; [|done]. subst p. simpl. by rewrite Hch.
Qed.

End TreeFacts.

Section Traversals.

Lemma hasAnySearchedDescendants_unfold node :
  hasAnySearchedDescendants node =
    map_fold (λ _ child found,
        found || negb (IsZero (lastSeen child)) || hasAnySearchedDescendants child)
      false (children node).
Proof. by destruct node. Qed.

Lemma findAllTimedOutWords_unfold node cur cutoff result :
  findAllTimedOutWords node cur cutoff result =
    map_fold (λ char child result,
        findAllTimedOutWords child (cur ++ [char]) cutoff result)
      (if negb (IsZero (lastSeen node)) && Before (lastSeen node) cutoff
       then {[cur]} ∪ result else result)
      (children node).
Proof. by destruct node. Qed.

Lemma IsZero_false t : negb (IsZero t) = true ↔ t ≠ 0.
Proof. unfold IsZero. destruct (Z.eqb_spec t 0); simpl; split; congruence. Qed.

Lemma Before_true t u : Before t u = true ↔ t < u.
Proof. unfold Before. apply Z.ltb_lt. Qed.

Lemma foldr_found {A} (f : A → bool → bool) (g : A → bool) (l : list A) :
  (∀ x found, f x found = found || g x) →
  foldr f false l = true ↔ ∃ x, x ∈ l ∧ g x = true.
Proof.
  intros Hf. induction l as [|x l IH]; simpl.
  - split; [done|]. by intros (? & ?%elem_of_nil & _).
  - rewrite Hf, orb_true_iff, IH. split.
    + intros [(y & ? & ?)|?]; [exists y|exists x]; split; auto; by constructor.
    + intros (y & [->|?]%elem_of_cons & ?); eauto.
Qed.

(** A node has a searched descendant exactly when some non-empty path
    below it ends in a node whose [lastSeen] is set. *)
Lemma hasAnySearchedDescendants_true node :
  hasAnySearchedDescendants node = true ↔
  ∃ q m, q ≠ [] ∧ walk node q = Some m ∧ lastSeen m ≠ 0.
Proof.
  induction node as [node IH] using TrieNode_children_ind.
  rewrite hasAnySearchedDescendants_unfold, map_fold_foldr.
  rewrite (foldr_found _ (λ '(_, child),
      negb (IsZero (lastSeen child)) || hasAnySearchedDescendants child))
    by (intros [] ?; simpl; by rewrite orb_assoc).
  split.
  - intros ([c ch] & Hin%elem_of_map_to_list & Hg).
    apply orb_true_iff in Hg as [Hs|Hd].
    + exists [c], ch. simpl. rewrite Hin. by apply IsZero_false in Hs.
    + apply (IH c ch Hin) in Hd as (q & m & ? & Hw & ?).
      exists (c :: q), m. simpl. by rewrite Hin.
  - intros (q & m & Hq & Hw & Hs). destruct q as [|c q]; [done|].
    simpl in Hw. destruct (children node !! c) as [ch|] eqn:Hch; [|done].
    exists (c, ch). split; [by apply elem_of_map_to_list|].
    apply orb_true_iff. destruct q as [|c' q].
    + left. simpl in Hw. injection Hw as ->. by apply IsZero_false.
    + right. apply (IH c ch Hch). by exists (c' :: q), m.
Qed.

Lemma hasAnySearchedDescendants_false node :
  hasAnySearchedDescendants node = false ↔
  ∀ q m, q ≠ [] → walk node q = Some m → lastSeen m = 0.
Proof.
  rewrite <-not_true_iff_false, hasAnySearchedDescendants_true. split.
  - intros Hno q m Hq Hw. destruct (decide (lastSeen m = 0)); [done|].
    exfalso. apply Hno. eauto.
  - intros Hall (q & m & Hq & Hw & Hs). eauto.
Qed.

(** The words [findAllTimedOutWords] collects below [node]: the paths to
    the nodes whose [lastSeen] is set and strictly before the cutoff. *)
Lemma elem_of_findAllTimedOutWords node cur cutoff result w :
  w ∈ findAllTimedOutWords node cur cutoff result ↔
  w ∈ result ∨
  ∃ q m, w = cur ++ q ∧ walk node q = Some m ∧ lastSeen m ≠ 0 ∧ lastSeen m < cutoff.
Proof.
  revert cur result.
  induction node as [node IH] using TrieNode_children_ind. intros cur result.
  rewrite findAllTimedOutWords_unfold, map_fold_foldr.
  set (here := if negb (IsZero (lastSeen node)) && Before (lastSeen node) cutoff
               then {[cur]} ∪ result else result).
  assert (Hhere : w ∈ here ↔
      w ∈ result ∨ (w = cur ∧ lastSeen node ≠ 0 ∧ lastSeen node < cutoff)).
  { unfold here. destruct (negb _ && _) eqn:E.
    - apply andb_true_iff in E as [?%IsZero_false ?%Before_true].
      rewrite elem_of_union, elem_of_singleton. tauto.
    - split; [auto|]. intros [?|(_ & ?%IsZero_false & ?%Before_true)]; [done|].
      rewrite andb_false_iff in E. destruct E; congruence. }
  assert (Hfold : ∀ l : list (Z * TrieNode),
      (∀ c ch, (c, ch) ∈ l → children node !! c = Some ch) →
      w ∈ foldr (uncurry (λ char child result,
             findAllTimedOutWords child (cur ++ [char]) cutoff result)) here l ↔
      w ∈ here ∨ ∃ c ch q m, (c, ch) ∈ l ∧ w = cur ++ c :: q ∧
         walk ch q = Some m ∧ lastSeen m ≠ 0 ∧ lastSeen m < cutoff).
  { induction l as [|[c ch] l IHl]; intros Hl; simpl.
    - split; [auto|]. intros [?|(? & ? & ? & ? & ?%elem_of_nil & _)]; done.
    - rewrite IH by (apply Hl; by left).
      rewrite IHl by (intros; apply Hl; by right). split.
      + intros [[?|(c' & ch' & q & m & ? & ?)]|(q & m & -> & ?)]; auto.
        * right. exists c', ch', q, m. split; [by right|done].
        * right. exists c, ch, q, m. split; [by left|].
          by rewrite <-app_assoc.
      + intros [?|(c' & ch' & q & m & [Heq|?]%elem_of_cons & -> & ?)]; auto.
        * injection Heq as -> ->. right. exists q, m. by rewrite <-app_assoc.
        * left. right. by exists c', ch', q, m. }
  rewrite Hfold by (intros ? ? ?; by apply elem_of_map_to_list).
  rewrite Hhere. split.
  - intros [[?|(-> & ? & ?)]|(c & ch & q & m & Hin%elem_of_map_to_list & -> & Hw & ?)];
      auto.
    + right. exists [], node. by rewrite app_nil_r.
    + right. exists (c :: q), m. simpl. by rewrite Hin.
  - intros [?|(q & m & -> & Hw & ? & ?)]; auto.
    destruct q as [|c q].
    + injection Hw as <-. left. right. by rewrite app_nil_r.
    + simpl in Hw. destruct (children node !! c) as [ch|] eqn:Hch; [|done].
      right. exists c, ch, q, m. by rewrite elem_of_map_to_list.
Qed.

End Traversals.

Section Views.

Lemma seen_at_peek t p : seen_at t p = from_option (λ f, f.1.2) 0 (peek t p).
Proof. unfold seen_at, peek. by destruct (walk t p). Qed.
Lemma ref_at_peek t p : ref_at t p = peek t p ≫= λ f, f.2.
Proof. unfold ref_at, peek. by destruct (walk t p). Qed.
Lemma ended_at_peek t p : ended_at t p = from_option (λ f, f.1.1) false (peek t p).
Proof. unfold ended_at, peek. by destruct (walk t p). Qed.
Lemma is_Some_peek t p : is_Some (peek t p) ↔ is_Some (walk t p).
Proof. unfold peek. by rewrite fmap_is_Some. Qed.

Lemma walk_update_at_is_Some f g w t p :
  writes f g → is_Some (walk (update_at f w t) p) ↔ is_Some (walk t p).
Proof.
  intros Hf. rewrite <-!is_Some_peek, (peek_update_at f g) by done.
  case_decide; [|done]. by rewrite fmap_is_Some.
Qed.

(** Writing [lastSeen]. *)
Lemma seen_at_set_lastSeen now w t p :
  is_Some (walk t w) →
  seen_at (update_at (set_lastSeen now) w t) p = if decide (p = w) then now else seen_at t p.
Proof.
  intros Hw%is_Some_peek. rewrite !seen_at_peek, (peek_update_at _ _ _ _ _ (writes_set_lastSeen now)).
  case_decide as Hp; [subst p|done].
  destruct Hw as [[[e l] d] ->]. done.
Qed.
Lemma ref_at_set_lastSeen now w t p :
  ref_at (update_at (set_lastSeen now) w t) p = ref_at t p.
Proof.
  rewrite !ref_at_peek, (peek_update_at _ _ _ _ _ (writes_set_lastSeen now)).
  case_decide; [|done]. by destruct (peek t p) as [[[e l] d]|].
Qed.
Lemma ended_at_set_lastSeen now w t p :
  ended_at (update_at (set_lastSeen now) w t) p = ended_at t p.
Proof.
  rewrite !ended_at_peek, (peek_update_at _ _ _ _ _ (writes_set_lastSeen now)).
  case_decide; [|done]. by destruct (peek t p) as [[[e l] d]|].
Qed.

(** Writing [dbID]. *)
Lemma seen_at_set_dbID r w t p :
  seen_at (update_at (set_dbID r) w t) p = seen_at t p.
Proof.
  rewrite !seen_at_peek, (peek_update_at _ _ _ _ _ (writes_set_dbID r)).
  case_decide; [|done]. by destruct (peek t p) as [[[e l] d]|].
Qed.
Lemma ref_at_set_dbID r w t p :
  is_Some (walk t w) →
  ref_at (update_at (set_dbID r) w t) p = if decide (p = w) then r else ref_at t p.
Proof.
  intros Hw%is_Some_peek. rewrite !ref_at_peek, (peek_update_at _ _ _ _ _ (writes_set_dbID r)).
  case_decide as Hp; [subst p|done].
  destruct Hw as [[[e l] d] ->]. done.
Qed.
Lemma ended_at_set_dbID r w t p :
  ended_at (update_at (set_dbID r) w t) p = ended_at t p.
Proof.
  rewrite !ended_at_peek, (peek_update_at _ _ _ _ _ (writes_set_dbID r)).
  case_decide; [|done]. by destruct (peek t p) as [[[e l] d]|].
Qed.

(** Writing [isEndOfWord]. *)
Lemma seen_at_set_isEndOfWord b w t p :
  seen_at (update_at (set_isEndOfWord b) w t) p = seen_at t p.
Proof.
  rewrite !seen_at_peek, (peek_update_at _ _ _ _ _ (writes_set_isEndOfWord b)).
  case_decide; [|done]. by destruct (peek t p) as [[[e l] d]|].
Qed.
Lemma ref_at_set_isEndOfWord b w t p :
  ref_at (update_at (set_isEndOfWord b) w t) p = ref_at t p.
Proof.
  rewrite !ref_at_peek, (peek_update_at _ _ _ _ _ (writes_set_isEndOfWord b)).
  case_decide; [|done]. by destruct (peek t p) as [[[e l] d]|].
Qed.
Lemma ended_at_set_isEndOfWord b w t p :
  is_Some (walk t w) →
  ended_at (update_at (set_isEndOfWord b) w t) p = if decide (p = w) then b else ended_at t p.
Proof.
  intros Hw%is_Some_peek.
  rewrite !ended_at_peek, (peek_update_at _ _ _ _ _ (writes_set_isEndOfWord b)).
  case_decide as Hp; [subst p|done].
  destruct Hw as [[[e l] d] ->]. done.
Qed.

(** Building a path creates nodes with zero fields and touches no other. *)
Lemma seen_at_build w t p : seen_at (build w t) p = seen_at t p.
Proof.
  rewrite !seen_at_peek, peek_build. case_bool_decide; [|done].
  by destruct (peek t p) as [[[e l] d]|].
Qed.
Lemma ref_at_build w t p : ref_at (build w t) p = ref_at t p.
Proof.
  rewrite !ref_at_peek, peek_build. case_bool_decide; [|done].
  by destruct (peek t p) as [[[e l] d]|].
Qed.
Lemma ended_at_build w t p : ended_at (build w t) p = ended_at t p.
Proof.
  rewrite !ended_at_peek, peek_build. case_bool_decide; [|done].
  by destruct (peek t p) as [[[e l] d]|].
Qed.
Lemma walk_build_self w t : is_Some (walk (build w t) w).
Proof. apply walk_build_is_Some. by left. Qed.

Lemma walk_fields t p n :
  walk t p = Some n →
  seen_at t p = lastSeen n ∧ ref_at t p = dbID n ∧ ended_at t p = isEndOfWord n.
Proof. unfold seen_at, ref_at, ended_at. by intros ->. Qed.

End Views.

Section Sweep.
Context `{GoRuntime} {DB : Type} `{Gateway DB}.
Implicit Types (sl : SearchLogger DB) (w p : word).

Lemma isPrefixOfAnyWord_true sl w :
  isPrefixOfAnyWord sl w = true ↔ ∃ q, q ≠ [] ∧ seen_at (prefixTree sl) (w ++ q) ≠ 0.
Proof.
  unfold isPrefixOfAnyWord, seen_at.
  destruct (walk (prefixTree sl) w) as [node|] eqn:Hnode; simpl.
  - rewrite hasAnySearchedDescendants_true. split.
    + intros (q & m & ? & Hw & ?). exists q. by rewrite walk_app, Hnode; simpl; rewrite Hw.
    + intros (q & ? & Hs). exists q. rewrite walk_app, Hnode in Hs. simpl in Hs.
      destruct (walk node q) as [m|]; [|done]. by exists m.
  - split; [done|]. intros (q & _ & Hs). by rewrite walk_app, Hnode in Hs.
Qed.

Lemma isPrefixOfAnyWord_false sl w :
  isPrefixOfAnyWord sl w = false ↔ ∀ q, q ≠ [] → seen_at (prefixTree sl) (w ++ q) = 0.
Proof.
  rewrite <-not_true_iff_false, isPrefixOfAnyWord_true. split.
  - intros Hno q Hq. destruct (decide (seen_at (prefixTree sl) (w ++ q) = 0)); [done|].
    exfalso. eauto.
  - intros Hall (q & Hq & Hs). eauto.
Qed.

Lemma isPrefixOfAnyWord_seen sl sl' w :
  (∀ p, seen_at (prefixTree sl') p = seen_at (prefixTree sl) p) →
  isPrefixOfAnyWord sl' w = isPrefixOfAnyWord sl w.
Proof.
  intros Hs. apply eq_true_iff_eq. rewrite !isPrefixOfAnyWord_true.
  by setoid_rewrite Hs.
Qed.

Lemma elem_of_timedOutWords sl now w :
  w ∈ timedOutWords sl now ↔
  seen_at (prefixTree sl) w ≠ 0 ∧ seen_at (prefixTree sl) w < now - timeout sl.
Proof.
  unfold timedOutWords. rewrite elem_of_findAllTimedOutWords. unfold seen_at. split.
  - intros [?%not_elem_of_empty|(q & m & Hq & Hw & ?)]; [done|].
    simpl in Hq. subst q. by rewrite Hw.
  - intros [Hz Hlt]. right.
    destruct (walk (prefixTree sl) w) as [m|] eqn:Hw; simpl in *; [|done].
    exists w, m. by rewrite Hw.
Qed.

Lemma storable_true sl w :
  storable sl w = true ↔
  is_Some (walk (prefixTree sl) w) ∧ ref_at (prefixTree sl) w = None ∧
  isPrefixOfAnyWord sl w = false.
Proof.
  unfold storable, isPrefixOfAnyWord, ref_at.
  destruct (walk (prefixTree sl) w) as [node|]; simpl.
  - rewrite andb_true_iff, bool_decide_eq_true, negb_true_iff.
    split; [intros [? ?]; eauto|intros (_ & ? & ?); done].
  - split; [done|]. by intros [[] _].
Qed.

Lemma sweep_word_unfold now sl w :
  sweep_word now sl w =
    if storable sl w
    then fst (storeWordToDB
                (set_prefixTree (update_at (set_isEndOfWord true) w (prefixTree sl)) sl)
                w now)
    else sl.
Proof.
  unfold sweep_word, storable, isPrefixOfAnyWord.
  destruct (walk (prefixTree sl) w) as [node|]; [|done].
  destruct (dbID node) eqn:E; repeat case_bool_decide; simpl; try congruence.
  by destruct (hasAnySearchedDescendants node).
Qed.

(** What the store of one word does to the logger, whatever the gateway
    answers: the node is marked, and it takes the reference the gateway
    returned, or none when the gateway failed. *)
Lemma sweep_word_storable now sl w :
  storable sl w = true →
  ∃ d r, gw_InsertOrReplace (db sl) w now now = (d, r) ∧
    db (sweep_word now sl w) = d ∧
    timeout (sweep_word now sl w) = timeout sl ∧
    ended_at (prefixTree (sweep_word now sl w)) w = true ∧
    ref_at (prefixTree (sweep_word now sl w)) w =
      match r with inr id => Some id | inl _ => None end ∧
    (∀ p, seen_at (prefixTree (sweep_word now sl w)) p = seen_at (prefixTree sl) p) ∧
    (∀ p, is_Some (walk (prefixTree (sweep_word now sl w)) p) ↔
          is_Some (walk (prefixTree sl) p)) ∧
    (∀ p, p ≠ w →
       ref_at (prefixTree (sweep_word now sl w)) p = ref_at (prefixTree sl) p ∧
       ended_at (prefixTree (sweep_word now sl w)) p = ended_at (prefixTree sl) p).
Proof.
  intros Hst. rewrite sweep_word_unfold, Hst.
  apply storable_true in Hst as (Hw & Href & _).
  unfold storeWordToDB; simpl.
  destruct (gw_InsertOrReplace (db sl) w now now) as [d r] eqn:Hgw.
  exists d, r. split; [done|].
  assert (Hw' : is_Some (walk (update_at (set_isEndOfWord true) w (prefixTree sl)) w)).
  { by apply (walk_update_at_is_Some _ _ _ _ _ (writes_set_isEndOfWord true)). }
  destruct r as [e|id]; simpl.
  - rewrite ref_at_set_isEndOfWord, ended_at_set_isEndOfWord, decide_True by done.
    repeat split; try done.
    + intros p. apply seen_at_set_isEndOfWord.
    + by apply (walk_update_at_is_Some _ _ _ _ _ (writes_set_isEndOfWord true)).
    + by apply (walk_update_at_is_Some _ _ _ _ _ (writes_set_isEndOfWord true)).
    + apply ref_at_set_isEndOfWord.
    + rewrite ended_at_set_isEndOfWord by done. by rewrite decide_False.
  - rewrite ref_at_set_dbID, decide_True by done.
    rewrite ended_at_set_dbID, ended_at_set_isEndOfWord, decide_True by done.
    repeat split; try done.
    + intros p. by rewrite seen_at_set_dbID, seen_at_set_isEndOfWord.
    + rewrite (walk_update_at_is_Some _ _ _ _ _ (writes_set_dbID (Some id))).
      by rewrite (walk_update_at_is_Some _ _ _ _ _ (writes_set_isEndOfWord true)).
    + rewrite (walk_update_at_is_Some _ _ _ _ _ (writes_set_dbID (Some id))).
      by rewrite (walk_update_at_is_Some _ _ _ _ _ (writes_set_isEndOfWord true)).
    + rewrite ref_at_set_dbID, decide_False by done. apply ref_at_set_isEndOfWord.
    + rewrite ended_at_set_dbID, ended_at_set_isEndOfWord by done.
      by rewrite decide_False.
Qed.

Lemma sweep_word_not_storable now sl w :
  storable sl w = false → sweep_word now sl w = sl.
Proof. intros Hst. by rewrite sweep_word_unfold, Hst. Qed.

(** One word of the sweep leaves every [lastSeen], the shape of the tree,
    the timeout, and the other nodes as they were. *)
Lemma sweep_word_frame now sl w :
  timeout (sweep_word now sl w) = timeout sl ∧
  (∀ p, seen_at (prefixTree (sweep_word now sl w)) p = seen_at (prefixTree sl) p) ∧
  (∀ p, is_Some (walk (prefixTree (sweep_word now sl w)) p) ↔
        is_Some (walk (prefixTree sl) p)) ∧
  (∀ p, p ≠ w →
     ref_at (prefixTree (sweep_word now sl w)) p = ref_at (prefixTree sl) p ∧
     ended_at (prefixTree (sweep_word now sl w)) p = ended_at (prefixTree sl) p).
Proof.
  destruct (storable sl w) eqn:Hst.
  - destruct (sweep_word_storable now sl w Hst) as (d & r & _ & _ & ? & _ & _ & ? & ? & ?).
    done.
  - by rewrite sweep_word_not_storable.
Qed.

Lemma storable_frame sl sl' w :
  (∀ p, seen_at (prefixTree sl') p = seen_at (prefixTree sl) p) →
  (is_Some (walk (prefixTree sl') w) ↔ is_Some (walk (prefixTree sl) w)) →
  ref_at (prefixTree sl') w = ref_at (prefixTree sl) w →
  storable sl' w = storable sl w.
Proof.
  intros Hs Hw Hr. apply eq_true_iff_eq. rewrite !storable_true, Hr, Hw.
  by rewrite (isPrefixOfAnyWord_seen sl sl').
Qed.

Lemma sweep_fold_frame now l sl :
  timeout (foldl (sweep_word now) sl l) = timeout sl ∧
  (∀ p, seen_at (prefixTree (foldl (sweep_word now) sl l)) p = seen_at (prefixTree sl) p) ∧
  (∀ p, is_Some (walk (prefixTree (foldl (sweep_word now) sl l)) p) ↔
        is_Some (walk (prefixTree sl) p)) ∧
  (∀ p, p ∉ l →
     ref_at (prefixTree (foldl (sweep_word now) sl l)) p = ref_at (prefixTree sl) p ∧
     ended_at (prefixTree (foldl (sweep_word now) sl l)) p = ended_at (prefixTree sl) p).
Proof.
  revert sl. induction l as [|w l IH]; intros sl; simpl; [done|].
  destruct (IH (sweep_word now sl w)) as (Ht & Hs & Hw & Hr).
  destruct (sweep_word_frame now sl w) as (Ht' & Hs' & Hw' & Hr').
  split; [congruence|]. split; [|split].
  - intros p. by rewrite Hs, Hs'.
  - intros p. by rewrite Hw, Hw'.
  - intros p ?%not_elem_of_cons.
    destruct (Hr p) as [-> ->]; [tauto|]. apply Hr'. tauto.
Qed.

(** A word the sweep does not find storable keeps its node as it is. *)
Lemma sweep_fold_skips now l sl w :
  storable sl w = false →
  ref_at (prefixTree (foldl (sweep_word now) sl l)) w = ref_at (prefixTree sl) w ∧
  ended_at (prefixTree (foldl (sweep_word now) sl l)) w = ended_at (prefixTree sl) w.
Proof.
  revert sl. induction l as [|v l IH]; intros sl Hst; simpl; [done|].
  destruct (decide (v = w)) as [->|Hne].
  - rewrite sweep_word_not_storable by done. by apply IH.
  - destruct (sweep_word_frame now sl v) as (_ & Hs & Hx & Hfr).
    destruct (Hfr w) as [Hr He]; [done|].
    destruct (IH (sweep_word now sl v)) as [-> ->]; [|done].
    rewrite <-Hst. by apply storable_frame.
Qed.

End Sweep.

Section MockFacts.
Context `{GoRuntime}.
Implicit Types (m : MockPostgresDB) (w v : word).

Lemma elem_of_range_ids {V} (g : gmap Z V) id x :
  (id, x) ∈ range_ids g ↔ g !! id = Some x.
Proof. by rewrite range_ids_perm, elem_of_map_to_list. Qed.

Lemma find_word_Some m w id record :
  List.find (λ '(_, record), bool_decide (Word record = w)) (range_ids (searches m))
    = Some (id, record) →
  searches m !! id = Some record ∧ Word record = w.
Proof.
  intros [Hin Hw]%find_some. apply list_elem_of_In, elem_of_range_ids in Hin.
  by apply bool_decide_eq_true in Hw.
Qed.

Lemma find_word_None m w :
  List.find (λ '(_, record), bool_decide (Word record = w)) (range_ids (searches m))
    = None →
  ¬ holds m w.
Proof.
  intros Hnone (id & record & Hid & Hw).
  assert (Hin : In (id, record) (range_ids (searches m)))
    by (by apply list_elem_of_In, elem_of_range_ids).
  apply (find_none _ _ Hnone) in Hin. simpl in Hin.
  by apply bool_decide_eq_false in Hin.
Qed.

Lemma wrap64_small z : - 2 ^ 63 ≤ z < 2 ^ 63 → wrap64 z = z.
Proof. intros ?. unfold wrap64. rewrite Z.mod_small; lia. Qed.

Lemma GetAllSearchedWords_holds m :
  ∃ l, GetAllSearchedWords m = (m, inr l) ∧ ∀ v, v ∈ l ↔ holds m v.
Proof.
  eexists. split; [done|]. intros v. rewrite list_elem_of_fmap. split.
  - intros ([id record] & -> & Hin%elem_of_range_ids). by exists id, record.
  - intros (id & record & Hid & <-). exists (id, record).
    by rewrite elem_of_range_ids.
Qed.

(** The upsert never fails; afterwards the returned record holds the
    word, and no other word has appeared. *)
Lemma InsertOrReplace_holds m w t u :
  ∃ m' id, InsertOrReplace m w t u = (m', inr id) ∧
    (∃ record, searches m' !! id = Some record ∧ Word record = w) ∧
    (∀ v, holds m' v → holds m v ∨ v = w).
Proof.
  unfold InsertOrReplace.
  destruct (List.find _ _) as [[id record]|] eqn:Hfind.
  - apply find_word_Some in Hfind as [Hid Hw].
    eexists _, id. split; [done|]. simpl. split.
    + eexists. by rewrite lookup_insert_eq.
    + intros v (id' & r' & Hid' & Hv). simpl in Hid'. rewrite lookup_insert in Hid'.
      case_decide; [|left; by exists id', r'].
      injection Hid' as <-. simpl in Hv. right. congruence.
  - eexists _, (nextID m). split; [done|]. simpl. split.
    + eexists. by rewrite lookup_insert_eq.
    + intros v (id' & r' & Hid' & Hv). simpl in Hid'. rewrite lookup_insert in Hid'.
      case_decide; [|left; by exists id', r'].
      injection Hid' as <-. by right.
Qed.

(** With room for one more identifier, the upsert loses no word. *)
Lemma InsertOrReplace_room m w t u n :
  mock_room n m → 0 < n →
  mock_room (n - 1) (InsertOrReplace m w t u).1 ∧
  (∀ v, holds m v → holds (InsertOrReplace m w t u).1 v).
Proof.
  intros (Hids & Hlo & Hhi) Hn. unfold InsertOrReplace.
  destruct (List.find _ _) as [[id record]|] eqn:Hfind; simpl.
  - apply find_word_Some in Hfind as [Hid Hw]. split.
    + split; [|simpl; lia]. simpl. intros id' Hsome. apply Hids.
      rewrite lookup_insert in Hsome. case_decide; [subst; eauto|done].
    + intros v (id' & r' & Hid' & Hv). unfold holds. simpl.
      destruct (decide (id = id')) as [->|Hne].
      * eexists id', _. rewrite lookup_insert_eq. split; [done|]. simpl. congruence.
      * exists id', r'. by rewrite lookup_insert_ne.
  - rewrite wrap64_small by lia. split.
    + split; [|simpl; lia]. simpl. intros id' Hsome.
      rewrite lookup_insert in Hsome. case_decide; [lia|].
      specialize (Hids id' Hsome). lia.
    + intros v (id' & r' & Hid' & Hv). exists id', r'. simpl.
      rewrite lookup_insert_ne; [done|].
      intros <-. specialize (Hids (nextID m)). rewrite Hid' in Hids.
      specialize (Hids (mk_is_Some _ _ eq_refl)). lia.
Qed.

Lemma mock_room_le n n' m : mock_room n m → n' ≤ n → mock_room n' m.
Proof. intros (? & ? & ?) ?. repeat split; [done|lia..]. Qed.

End MockFacts.

Section MockSweep.
Context `{GoRuntime}.
#[local] Existing Instance MockGateway.
Implicit Types (sl : SearchLogger MockPostgresDB) (w v p : word).

Lemma mock_sweep_word now sl w :
  storable sl w = true →
  db (sweep_word now sl w) = (InsertOrReplace (db sl) w now now).1 ∧
  is_Some (ref_at (prefixTree (sweep_word now sl w)) w).
Proof.
  intros Hst.
  destruct (sweep_word_storable now sl w Hst) as (d & r & Hgw & Hdb & _ & _ & Href & _).
  simpl in Hgw.
  destruct (InsertOrReplace_holds (db sl) w now now) as (m' & id & Hio & _).
  rewrite Hio in Hgw. injection Hgw as <- <-.
  rewrite Hio, Href. eauto.
Qed.

(** A whole sweep against the mock database: the words that appear are
    storable collected words; every storable collected word ends with a
    reference; and as long as identifiers remain, every such word is held
    by the database afterwards and no word is lost. *)
Lemma mock_sweep_fold now l sl :
  NoDup l →
  (∀ v, holds (db (foldl (sweep_word now) sl l)) v →
        holds (db sl) v ∨ (v ∈ l ∧ storable sl v = true)) ∧
  (∀ v, v ∈ l → storable sl v = true →
        is_Some (ref_at (prefixTree (foldl (sweep_word now) sl l)) v)) ∧
  (mock_room (Z.of_nat (length l)) (db sl) →
     mock_room 0 (db (foldl (sweep_word now) sl l)) ∧
     (∀ v, holds (db sl) v → holds (db (foldl (sweep_word now) sl l)) v) ∧
     (∀ v, v ∈ l → storable sl v = true →
           holds (db (foldl (sweep_word now) sl l)) v)).
Proof.
  revert sl. induction l as [|w l IH]; intros sl Hnd.
  { simpl. split; [auto|]. split; [by intros ? ?%elem_of_nil|].
    intros ?. split; [done|]. split; [done|]. by intros ? ?%elem_of_nil. }
  apply NoDup_cons in Hnd as [Hw Hnd]. simpl.
  destruct (IH (sweep_word now sl w) Hnd) as (Hnew & Hrefs & Hroom).
  destruct (sweep_word_frame now sl w) as (_ & Hs & Hex & Hfr).
  assert (Hst : ∀ v, v ∈ l → storable (sweep_word now sl w) v = storable sl v).
  { intros v Hv. apply storable_frame; [done..|].
    apply Hfr. intros ->. done. }
  destruct (storable sl w) eqn:Hstw.
  - destruct (mock_sweep_word now sl w Hstw) as [Hdb Href].
    destruct (InsertOrReplace_holds (db sl) w now now) as (m' & id & Hio & Hrec & Hold).
    rewrite Hio in Hdb. simpl in Hdb.
    split; [|split].
    + intros v Hv. destruct (Hnew v Hv) as [Hh|[Hin Hs']].
      * rewrite Hdb in Hh. destruct (Hold v Hh) as [? | ->]; [by left|].
        right. split; [by left|done].
      * right. split; [by right|]. by rewrite <-Hst.
    + intros v [->|Hv]%elem_of_cons Hs'.
      * destruct (sweep_fold_frame now l (sweep_word now sl w)) as (_ & _ & _ & Hk).
        destruct (Hk w Hw) as [-> _]. done.
      * apply Hrefs; [done|]. by rewrite Hst.
    + intros Hr.
      destruct (InsertOrReplace_room (db sl) w now now _ Hr) as [Hr' Hkeep]; [lia|].
      rewrite Hio in Hr', Hkeep. simpl in Hr', Hkeep. rewrite <-Hdb in Hr', Hkeep.
      destruct Hroom as (Hr0 & Hkeep' & Hall).
      { eapply mock_room_le; [done|]. simpl length. lia. }
      split; [done|]. split; [auto|].
      intros v [->|Hv]%elem_of_cons Hs'.
      * apply Hkeep'. rewrite Hdb. destruct Hrec as (record & ? & ?).
        by exists id, record.
      * apply Hall; [done|]. by rewrite Hst.
  - rewrite sweep_word_not_storable in * by done.
    split; [|split].
    + intros v Hv. destruct (Hnew v Hv) as [?|[? ?]]; [by left|].
      right. split; [by right|done].
    + intros v [->|Hv]%elem_of_cons Hs'; [congruence|]. by apply Hrefs.
    + intros Hr. destruct Hroom as (Hr0 & Hkeep' & Hall).
      { eapply mock_room_le; [done|]. simpl length. lia. }
      split; [done|]. split; [done|].
      intros v [->|Hv]%elem_of_cons Hs'; [congruence|]. by apply Hall.
Qed.

End MockSweep.

Section Extension.
Context `{GoRuntime} {DB : Type} `{Gateway DB}.
Implicit Types (sl : SearchLogger DB) (w p q : word).

Lemma proper_prefix_snoc path c rest :
  rest ≠ [] → proper_prefix (path ++ [c]) (path ++ c :: rest).
Proof. intros ?. exists rest. split; [done|]. by rewrite <-app_assoc. Qed.

Lemma proper_prefix_ne p w : proper_prefix p w → p ≠ w.
Proof.
  intros (k & Hk & ->) Heq. apply Hk.
  apply (f_equal length) in Heq. rewrite length_app in Heq.
  destruct k; [done|]. simpl in Heq. lia.
Qed.

Lemma proper_prefix_length p w : proper_prefix p w → (length p < length w)%nat.
Proof.
  intros (k & Hk & ->). rewrite length_app. destruct k; [done|]. simpl. lia.
Qed.

(** The extension step never touches a [lastSeen], a mark, the shape of
    the tree or the timeout. *)
Lemma handleWordExtension_loop_frame w now rest path sl :
  is_Some (walk (prefixTree sl) w) →
  let r := handleWordExtension_loop w now path rest sl in
  timeout r.1 = timeout sl ∧
  (∀ p, seen_at (prefixTree r.1) p = seen_at (prefixTree sl) p) ∧
  (∀ p, ended_at (prefixTree r.1) p = ended_at (prefixTree sl) p) ∧
  (∀ p, is_Some (walk (prefixTree r.1) p) ↔ is_Some (walk (prefixTree sl) p)).
Proof.
  revert path sl. induction rest as [|c rest IH]; intros path sl Hw; simpl; [done|].
  destruct (walk (prefixTree sl) (path ++ [c])) as [node|] eqn:Hnode; [|done].
  destruct (dbID node) as [id|]; [|by apply IH].
  destruct (isEndOfWord node && _); [|by apply IH].
  unfold updateStoredWord.
  destruct (gw_Update (db sl) id w now) as [d [e|]]; [done|].
  set (tree := update_at (set_dbID None) (path ++ [c])
                 (update_at (set_dbID (Some id)) w (prefixTree sl))).
  assert (Hshape : ∀ p, is_Some (walk tree p) ↔ is_Some (walk (prefixTree sl) p)).
  { intros p. unfold tree.
    rewrite (walk_update_at_is_Some _ _ _ _ _ (writes_set_dbID None)).
    by rewrite (walk_update_at_is_Some _ _ _ _ _ (writes_set_dbID (Some id))). }
  destruct (IH (path ++ [c]) (set_prefixTree tree (set_db d sl))) as (Ht & Hs & He & Hx).
  { simpl. by apply Hshape. }
  simpl in *. split; [done|]. split; [|split].
  - intros p. etransitivity; [apply Hs|]. unfold tree. by rewrite !seen_at_set_dbID.
  - intros p. etransitivity; [apply He|]. unfold tree. by rewrite !ended_at_set_dbID.
  - intros p. etransitivity; [apply Hx|]. apply Hshape.
Qed.

(** Without a stored prefix beyond [path], the loop changes nothing. *)
Lemma handleWordExtension_loop_noop w now rest path sl :
  w = path ++ rest →
  (∀ p, stored_prefix (prefixTree sl) w p → (length p ≤ length path)%nat) →
  handleWordExtension_loop w now path rest sl = (sl, None).
Proof.
  revert path. induction rest as [|c rest IH]; intros path Hw Hno; simpl; [done|].
  destruct (walk (prefixTree sl) (path ++ [c])) as [node|] eqn:Hnode; [|done].
  assert (Hnext : handleWordExtension_loop w now (path ++ [c]) rest sl = (sl, None)).
  { apply IH; [by rewrite <-app_assoc|].
    intros p Hp. specialize (Hno p Hp). rewrite length_app. simpl. lia. }
  destruct (dbID node) as [id|] eqn:Hid; [|done].
  destruct (isEndOfWord node && _) eqn:Hcond; [|done].
  exfalso. apply andb_true_iff in Hcond as [Hend Hlt%Z.ltb_lt].
  destruct (walk_fields _ _ _ Hnode) as (_ & Href & Hended).
  assert (Hrest : rest ≠ []).
  { intros ->. subst w. rewrite length_app in Hlt. simpl in Hlt. lia. }
  specialize (Hno (path ++ [c])). rewrite length_app in Hno. simpl in Hno.
  enough (length path + 1 ≤ length path)%nat by lia. apply Hno.
  split; [by destruct path|]. split; [subst w; by apply proper_prefix_snoc|].
  rewrite Hended, Href, Hid. eauto.
Qed.

Lemma handleWordExtension_noop sl w now :
  (∀ p, ¬ stored_prefix (prefixTree sl) w p) →
  handleWordExtension sl w now = (sl, None).
Proof.
  intros Hno. apply handleWordExtension_loop_noop; [done|].
  intros p Hp. by apply Hno in Hp.
Qed.

(** When the loop returns an error, a rename was refused: the prefix it
    concerned is a stored prefix that keeps its reference, and when no
    stored prefix came before it the tree is as it was. *)
Lemma handleWordExtension_loop_error w now rest path sl sl' e :
  w = path ++ rest →
  is_Some (walk (prefixTree sl) w) →
  handleWordExtension_loop w now path rest sl = (sl', Some e) →
  ∃ p id d cause,
    (length path < length p)%nat ∧
    stored_prefix (prefixTree sl) w p ∧
    ref_at (prefixTree sl) p = Some id ∧
    ref_at (prefixTree sl') p = Some id ∧
    gw_Update d id w now = (db sl', Some cause) ∧
    e = wrap "failed to update stored word" cause ∧
    ((∀ q, stored_prefix (prefixTree sl) w q →
           (length q ≤ length path ∨ length p ≤ length q)%nat) →
     prefixTree sl' = prefixTree sl).
Proof.
  revert path sl. induction rest as [|c rest IH]; intros path sl Hw Hex; simpl; [done|].
  destruct (walk (prefixTree sl) (path ++ [c])) as [node|] eqn:Hnode; [|done].
  assert (Hnext : handleWordExtension_loop w now (path ++ [c]) rest sl = (sl', Some e) →
    ∃ p id d cause,
    (length path < length p)%nat ∧
    stored_prefix (prefixTree sl) w p ∧
    ref_at (prefixTree sl) p = Some id ∧
    ref_at (prefixTree sl') p = Some id ∧
    gw_Update d id w now = (db sl', Some cause) ∧
    e = wrap "failed to update stored word" cause ∧
    ((∀ q, stored_prefix (prefixTree sl) w q →
           (length q ≤ length path ∨ length p ≤ length q)%nat) →
     prefixTree sl' = prefixTree sl)).
  { intros Hrun. apply IH in Hrun as (p & id & d & cause & Hlen & Hp & Hr & Hr' & Hgw & He & Hfirst);
      [|by rewrite <-app_assoc|done].
    rewrite length_app in Hlen. simpl in Hlen.
    exists p, id, d, cause. repeat (split; [done || lia|]).
    intros Hq. apply Hfirst. intros q Hsq.
    destruct (Hq q Hsq); [left; rewrite length_app; simpl; lia|by right]. }
  destruct (dbID node) as [id|] eqn:Hid; [|done].
  destruct (isEndOfWord node && _) eqn:Hcond; [|done].
  apply andb_true_iff in Hcond as [Hend Hlt%Z.ltb_lt].
  destruct (walk_fields _ _ _ Hnode) as (_ & Href & Hended).
  assert (Hrest : rest ≠ []).
  { intros ->. subst w. rewrite length_app in Hlt. simpl in Hlt. lia. }
  assert (Hsp : stored_prefix (prefixTree sl) w (path ++ [c])).
  { split; [by destruct path|]. split; [subst w; by apply proper_prefix_snoc|].
    rewrite Hended, Href, Hid. eauto. }
  unfold updateStoredWord.
  destruct (gw_Update (db sl) id w now) as [d [cause|]] eqn:Hgw.
  - intros [= <- <-]. exists (path ++ [c]), id, (db sl), cause. simpl.
    rewrite length_app, Href, Hid. simpl. repeat (split; [done || lia|]). done.
  - set (tree := update_at (set_dbID None) (path ++ [c])
                   (update_at (set_dbID (Some id)) w (prefixTree sl))).
    assert (Hex' : is_Some (walk (update_at (set_dbID (Some id)) w (prefixTree sl)) (path ++ [c]))).
    { rewrite (walk_update_at_is_Some _ _ _ _ _ (writes_set_dbID (Some id))). by rewrite Hnode. }
    assert (Hother : ∀ p, p ≠ w → p ≠ path ++ [c] →
              ref_at tree p = ref_at (prefixTree sl) p ∧
              ended_at tree p = ended_at (prefixTree sl) p).
    { intros p ? ?. unfold tree.
      rewrite !ended_at_set_dbID, !ref_at_set_dbID by done.
      by rewrite !decide_False by done. }
    intros Hrun. apply IH in Hrun
      as (p & id' & d' & cause & Hlen & Hp & Hr & Hr' & Hgw' & He & _).
    + rewrite length_app in Hlen. simpl in Hlen, Hp, Hr.
      destruct Hp as (Hne & Hpp & Hpe & Hpr).
      destruct (Hother p) as [Hor Hoe].
      { by apply proper_prefix_ne. }
      { intros ->. rewrite length_app in Hlen. simpl in Hlen. lia. }
      exists p, id', d', cause. split; [lia|]. split.
      { split; [done|]. split; [done|]. by rewrite <-Hoe, <-Hor. }
      split; [by rewrite <-Hor|]. repeat (split; [done|]).
      intros Hq. exfalso. specialize (Hq _ Hsp).
      rewrite length_app in Hq. simpl in Hq. lia.
    + by rewrite <-app_assoc.
    + simpl. unfold tree.
      rewrite (walk_update_at_is_Some _ _ _ _ _ (writes_set_dbID None)).
      by rewrite (walk_update_at_is_Some _ _ _ _ _ (writes_set_dbID (Some id))).
Qed.

End Extension.

Section ExtensionFirst.
Context `{GoRuntime} {DB : Type} `{Gateway DB}.
Implicit Types (sl : SearchLogger DB) (w p q : word).

Lemma proper_prefix_beyond p path c rest :
  proper_prefix p (path ++ c :: rest) → (length path < length p)%nat →
  p = path ++ [c] ∨ proper_prefix p (path ++ c :: rest) ∧ (length (path ++ [c]) < length p)%nat.
Proof.
  intros (k & Hk & Heq) Hlen.
  destruct (decide (length p = length (path ++ [c]))) as [Hl|Hl].
  - left. rewrite (cons_middle c), app_assoc in Heq.
    symmetry in Heq. by apply app_inj_1 in Heq as [-> _].
  - right. split; [by exists k|]. rewrite length_app in *. simpl in *. lia.
Qed.

(** When the gateway refuses the rename of the first stored prefix, the
    loop stops there with the tree untouched. *)
Lemma handleWordExtension_loop_first_refused w now rest path sl p id d cause :
  w = path ++ rest →
  is_Some (walk (prefixTree sl) w) →
  stored_prefix (prefixTree sl) w p →
  (length path < length p)%nat →
  (∀ q, stored_prefix (prefixTree sl) w q →
        (length q ≤ length path ∨ length p ≤ length q)%nat) →
  ref_at (prefixTree sl) p = Some id →
  gw_Update (db sl) id w now = (d, Some cause) →
  handleWordExtension_loop w now path rest sl =
    (set_db d sl, Some (wrap "failed to update stored word" cause)).
Proof.
  revert path. induction rest as [|c rest IH]; intros path Hw Hex Hp Hlen Hmin Hid Hgw.
  { exfalso. rewrite app_nil_r in Hw. subst path.
    destruct Hp as (_ & Hpp%proper_prefix_length & _). lia. }
  simpl.
  assert (Hex' : is_Some (walk (prefixTree sl) (path ++ [c]))).
  { apply (walk_prefix_Some _ _ rest). rewrite <-app_assoc. simpl. by rewrite <-Hw. }
  destruct Hex' as [node Hnode]. rewrite Hnode.
  destruct (walk_fields _ _ _ Hnode) as (_ & Href & Hended).
  pose proof Hp as (Hne & Hpp & Hpe & Hpr). rewrite Hw in Hpp.
  destruct (proper_prefix_beyond _ _ _ _ Hpp Hlen) as [->|[_ Hlen']].
  - rewrite Hid in Href. rewrite <-Href. rewrite Hpe in Hended. rewrite <-Hended.
    simpl. pose proof (proper_prefix_length _ _ Hpp) as Hl.
    rewrite !length_app in Hl. simpl in Hl.
    rewrite (proj2 (Z.ltb_lt _ _)) by (subst w; rewrite length_app; simpl; lia).
    unfold updateStoredWord. by rewrite Hgw.
  - assert (Hskip : ¬ stored_prefix (prefixTree sl) w (path ++ [c])).
    { intros Hsp. destruct (Hmin _ Hsp) as [Hl|Hl]; rewrite length_app in *; simpl in *; lia. }
    assert (Hnext : handleWordExtension_loop w now (path ++ [c]) rest sl =
              (set_db d sl, Some (wrap "failed to update stored word" cause))).
    { apply IH; try done; [by rewrite <-app_assoc|].
      intros q Hq. destruct (Hmin q Hq); [left; rewrite length_app; simpl; lia|by right]. }
    destruct (dbID node) as [id'|] eqn:Hid'; [|done].
    destruct (isEndOfWord node && _) eqn:Hcond; [|done].
    exfalso. apply Hskip. apply andb_true_iff in Hcond as [Hend Hlt%Z.ltb_lt].
    assert (Hrest : rest ≠ []).
    { intros ->. subst w. rewrite length_app in Hlt. simpl in Hlt. lia. }
    split; [by destruct path|]. split; [subst w; by apply proper_prefix_snoc|].
    rewrite Hended, Href. eauto.
Qed.

End ExtensionFirst.

Section LogSearchFacts.
Context `{GoRuntime} {DB : Type} `{Gateway DB}.
Implicit Types (sl : SearchLogger DB) (w p q : word).

Lemma seen_at_touch w now t p :
  seen_at (touch w now t) p = if decide (p = w) then now else seen_at t p.
Proof.
  unfold touch. rewrite seen_at_set_lastSeen by apply walk_build_self.
  by rewrite seen_at_build.
Qed.
Lemma ref_at_touch w now t p : ref_at (touch w now t) p = ref_at t p.
Proof. unfold touch. by rewrite ref_at_set_lastSeen, ref_at_build. Qed.
Lemma ended_at_touch w now t p : ended_at (touch w now t) p = ended_at t p.
Proof. unfold touch. by rewrite ended_at_set_lastSeen, ended_at_build. Qed.
Lemma walk_touch_self w now t : is_Some (walk (touch w now t) w).
Proof.
  unfold touch. rewrite (walk_update_at_is_Some _ _ _ _ _ (writes_set_lastSeen now)).
  apply walk_build_self.
Qed.

Lemma stored_prefix_touch w now t v p :
  stored_prefix (touch w now t) v p ↔ stored_prefix t v p.
Proof. unfold stored_prefix. by rewrite ended_at_touch, ref_at_touch. Qed.

Lemma LogSearch_unfold sl input now :
  input ≠ [] →
  LogSearch sl input now =
    let r := handleWordExtension
               (set_prefixTree (touch (normalize input) now (prefixTree sl)) sl)
               (normalize input) now in
    (r.1, wrap "failed to handle word extension" <$> r.2).
Proof.
  intros Hin. unfold LogSearch, touch. destruct input; [done|].
  destruct (handleWordExtension _ _ _) as [sl' [e|]]; done.
Qed.

Lemma LogSearch_frame sl input now :
  input ≠ [] →
  timeout (LogSearch sl input now).1 = timeout sl ∧
  ∀ p, seen_at (prefixTree (LogSearch sl input now).1) p =
         if decide (p = normalize input) then now else seen_at (prefixTree sl) p.
Proof.
  intros Hin. rewrite LogSearch_unfold by done. simpl.
  destruct (handleWordExtension_loop_frame (normalize input) now (normalize input) []
              (set_prefixTree (touch (normalize input) now (prefixTree sl)) sl))
    as (Ht & Hs & _); [apply walk_touch_self|].
  split; [done|]. intros p. unfold handleWordExtension.
  etransitivity; [apply Hs|]. simpl. apply seen_at_touch.
Qed.

Lemma LogSearch_no_stored_prefix sl input now :
  input ≠ [] →
  (∀ p, ¬ stored_prefix (prefixTree sl) (normalize input) p) →
  LogSearch sl input now =
    (set_prefixTree (touch (normalize input) now (prefixTree sl)) sl, None).
Proof.
  intros Hin Hno. rewrite LogSearch_unfold by done.
  rewrite handleWordExtension_noop; [done|].
  intros p. simpl. rewrite stored_prefix_touch. apply Hno.
Qed.

Lemma processTimedOutWords_frame sl now :
  timeout (processTimedOutWords sl now) = timeout sl ∧
  ∀ p, seen_at (prefixTree (processTimedOutWords sl now)) p = seen_at (prefixTree sl) p.
Proof.
  unfold processTimedOutWords.
  destruct (sweep_fold_frame now
              (range_words (findAllTimedOutWords (prefixTree sl) [] (now - timeout sl) ∅)) sl)
    as (? & ? & _). done.
Qed.

Lemma step_timeout sl e : timeout (step sl e) = timeout sl.
Proof.
  destruct e as [input now|now]; simpl.
  - destruct input as [|c input]; [done|]. by apply LogSearch_frame.
  - apply processTimedOutWords_frame.
Qed.

Lemma step_seen_at sl e p :
  seen_at (prefixTree (step sl e)) p =
    match e with
    | Submit input now =>
        if decide (input ≠ [] ∧ p = normalize input) then now
        else seen_at (prefixTree sl) p
    | Tick _ => seen_at (prefixTree sl) p
    end.
Proof.
  destruct e as [input now|now]; simpl.
  - destruct (decide (input = [])) as [->|Hin].
    + case_decide as Hd; [by destruct Hd|done].
    + destruct (LogSearch_frame sl input now Hin) as [_ ->].
      repeat case_decide; tauto.
  - apply processTimedOutWords_frame.
Qed.

Lemma run_timeout sl trace : timeout (run sl trace) = timeout sl.
Proof.
  revert sl. induction trace as [|e trace IH]; intros sl; [done|].
  change (run sl (e :: trace)) with (run (step sl e) trace).
  by rewrite IH, step_timeout.
Qed.

Lemma run_app sl t1 t2 : run sl (t1 ++ t2) = run (run sl t1) t2.
Proof. apply foldl_app. Qed.

(** A [lastSeen] that is at least [t] stays so while the clock reads at
    least [t]. *)
Lemma run_seen_at_ge sl trace p t :
  Forall (λ e, t ≤ at_time e) trace →
  t ≤ seen_at (prefixTree sl) p →
  t ≤ seen_at (prefixTree (run sl trace)) p.
Proof.
  revert sl. induction trace as [|e trace IH]; intros sl Hall Hge; [done|].
  change (run sl (e :: trace)) with (run (step sl e) trace).
  apply Forall_cons in Hall as [He Hall]. apply IH; [done|].
  rewrite step_seen_at. destruct e as [input now|now]; [|done].
  case_decide; [done|done].
Qed.

End LogSearchFacts.

Section SweepFailure.
Context `{GoRuntime} {DB : Type} `{Gateway DB}.
Implicit Types (sl : SearchLogger DB) (w p q : word).

Lemma processTimedOutWords_fold sl now :
  processTimedOutWords sl now =
    foldl (sweep_word now) sl (range_words (timedOutWords sl now)).
Proof. done. Qed.

Lemma NoDup_range_words (s : gset (list Z)) : NoDup (range_words s).
Proof. rewrite range_words_perm. apply NoDup_elements. Qed.

Lemma elem_of_range_words (s : gset (list Z)) w : w ∈ range_words s ↔ w ∈ s.
Proof. by rewrite range_words_perm, elem_of_elements. Qed.

(** The store of a storable word at its place in the loop: it is made on
    the database as the words before it left it, whatever happened to
    them. *)
Lemma sweep_fold_at now a v b sl :
  NoDup (a ++ v :: b) →
  storable sl v = true →
  ended_at (prefixTree (foldl (sweep_word now) sl (a ++ v :: b))) v = true ∧
  ref_at (prefixTree (foldl (sweep_word now) sl (a ++ v :: b))) v =
    match (gw_InsertOrReplace (db (foldl (sweep_word now) sl a)) v now now).2 with
    | inr id => Some id
    | inl _ => None
    end.
Proof.
  intros Hnd Hst. apply NoDup_app in Hnd as (_ & Hva & Hnd).
  apply NoDup_cons in Hnd as [Hvb _].
  assert (Hva' : v ∉ a) by (intros ?; by apply (Hva v); [|left]).
  rewrite foldl_app. simpl.
  set (sla := foldl (sweep_word now) sl a).
  destruct (sweep_fold_frame now a sl) as (_ & Hs & Hx & Hfr).
  assert (Hst' : storable sla v = true).
  { rewrite <-Hst. apply storable_frame; [done..|]. by apply Hfr. }
  destruct (sweep_word_storable now sla v Hst') as (d & r & Hgw & _ & _ & He & Hr & _).
  destruct (sweep_fold_frame now b (sweep_word now sla v)) as (_ & _ & _ & Hfr').
  destruct (Hfr' v Hvb) as [-> ->]. rewrite Hgw. done.
Qed.

(** C8. During a sweep tick, a failure of the gateway's store for one
    collected word does not stop the loop: the node of the failed word
    keeps [dbID = nil], so that the word is collected and storable again at
    any later tick, and every storable word that comes after it in the loop
    is still marked and handed to the gateway, its node taking the answer
    the gateway gives on the database as the loop has left it. *)
Theorem sweep_store_failure_is_local sl now l1 w l2 d e :
  range_words (timedOutWords sl now) = l1 ++ w :: l2 →
  storable sl w = true →
  gw_InsertOrReplace (db (foldl (sweep_word now) sl l1)) w now now = (d, inl e) →
  ref_at (prefixTree (processTimedOutWords sl now)) w = None ∧
  (∀ now', now ≤ now' →
     w ∈ timedOutWords (processTimedOutWords sl now) now' ∧
     storable (processTimedOutWords sl now) w = true) ∧
  (∀ m1 v m2, l2 = m1 ++ v :: m2 → storable sl v = true →
     ended_at (prefixTree (processTimedOutWords sl now)) v = true ∧
     ref_at (prefixTree (processTimedOutWords sl now)) v =
       match (gw_InsertOrReplace
                (db (foldl (sweep_word now) sl (l1 ++ w :: m1))) v now now).2 with
       | inr id => Some id
       | inl _ => None
       end).
Proof.
  intros Hl Hst Hgw.
  pose proof (NoDup_range_words (timedOutWords sl now)) as Hnd.
  assert (Hin : w ∈ timedOutWords sl now).
  { apply elem_of_range_words. rewrite Hl. set_solver. }
  rewrite processTimedOutWords_fold, Hl. rewrite Hl in Hnd.
  destruct (sweep_fold_at now l1 w l2 sl Hnd Hst) as [_ Href].
  rewrite Hgw in Href. simpl in Href.
  destruct (sweep_fold_frame now (l1 ++ w :: l2) sl) as (Ht & Hs & Hx & _).
  split; [done|]. split.
  - intros now' Hle. split.
    + apply elem_of_timedOutWords. rewrite Hs, Ht.
      apply elem_of_timedOutWords in Hin. lia.
    + apply storable_true. rewrite Href.
      apply storable_true in Hst as (Hw & _ & Hp).
      split; [by apply Hx|]. split; [done|].
      rewrite <-Hp. by apply isPrefixOfAnyWord_seen.
  - intros m1 v m2 -> Hstv.
    replace (l1 ++ w :: m1 ++ v :: m2) with ((l1 ++ w :: m1) ++ v :: m2) in *
      by (by rewrite <-app_assoc).
    by apply sweep_fold_at.
Qed.

End SweepFailure.

Section RenameFailure.
Context `{GoRuntime} {DB : Type} `{Gateway DB}.
Implicit Types (sl : SearchLogger DB) (w p q : word).

(** C7, as amended. Let [w] be the normalised word of a non-empty
    submission. (1) When the gateway refuses the rename of the shortest
    stored prefix of [w], [LogSearch] returns the wrapped error, and the
    logger is left with the gateway's database and the tree in which
    building the path of [w] and setting its [lastSeen] to the submission
    time is the only change. (2) Whenever [LogSearch] returns an error, a
    rename was refused for some stored prefix [p] of [w]: the error wraps
    the gateway's, [lastSeen] of the node of [w] is the submission time, [p]
    still holds its reference, and the node of [w] holds the reference it
    held before the call as soon as [p] is the shortest stored prefix. *)
Theorem LogSearch_rename_refused sl input now :
  input ≠ [] →
  (∀ p id d cause,
     stored_prefix (prefixTree sl) (normalize input) p →
     (∀ q, stored_prefix (prefixTree sl) (normalize input) q →
           (length p ≤ length q)%nat) →
     ref_at (prefixTree sl) p = Some id →
     gw_Update (db sl) id (normalize input) now = (d, Some cause) →
     LogSearch sl input now =
       (mkSearchLogger (touch (normalize input) now (prefixTree sl)) d (timeout sl),
        Some (wrap "failed to handle word extension"
                (wrap "failed to update stored word" cause)))) ∧
  (∀ sl' e,
     LogSearch sl input now = (sl', Some e) →
     seen_at (prefixTree sl') (normalize input) = now ∧
     ∃ p id d cause,
       stored_prefix (prefixTree sl) (normalize input) p ∧
       ref_at (prefixTree sl) p = Some id ∧
       gw_Update d id (normalize input) now = (db sl', Some cause) ∧
       e = wrap "failed to handle word extension"
             (wrap "failed to update stored word" cause) ∧
       ref_at (prefixTree sl') p = Some id ∧
       ((∀ q, stored_prefix (prefixTree sl) (normalize input) q →
              (length p ≤ length q)%nat) →
        ref_at (prefixTree sl') (normalize input) =
          ref_at (prefixTree sl) (normalize input))).
Proof.
  intros Hin. set (w := normalize input).
  set (sl1 := set_prefixTree (touch w now (prefixTree sl)) sl).
  split.
  - intros p id d cause Hp Hmin Hid Hgw.
    rewrite LogSearch_unfold by done. fold w sl1. unfold handleWordExtension.
    rewrite (handleWordExtension_loop_first_refused w now w [] sl1 p id d cause); try done.
    + apply walk_touch_self.
    + by apply stored_prefix_touch.
    + destruct Hp as [Hne _]. destruct p; simpl; [done|lia].
    + intros q Hq. right. apply Hmin.
      by apply (proj1 (stored_prefix_touch w now (prefixTree sl) w q)).
    + simpl. by rewrite ref_at_touch.
  - intros sl' e Hrun. rewrite LogSearch_unfold in Hrun by done.
    fold w sl1 in Hrun. simpl in Hrun.
    destruct (handleWordExtension sl1 w now) as [sl2 [e0|]] eqn:Hloop; [|done].
    simpl in Hrun. injection Hrun as <- <-.
    destruct (handleWordExtension_loop_frame w now w [] sl1) as (_ & Hs & _);
      [apply walk_touch_self|].
    unfold handleWordExtension in Hloop. rewrite Hloop in Hs. simpl in Hs.
    split; [by rewrite Hs, seen_at_touch, decide_True|].
    apply handleWordExtension_loop_error in Hloop
      as (p & id & d & cause & _ & Hp & Hr & Hr' & Hgw & -> & Hfirst);
      [|done|apply walk_touch_self].
    exists p, id, d, cause. simpl in Hp, Hr, Hfirst.
    rewrite stored_prefix_touch in Hp. rewrite ref_at_touch in Hr.
    repeat (split; [done|]).
    intros Hmin. rewrite Hfirst; [by rewrite ref_at_touch|].
    intros q Hq. right. apply Hmin.
      by apply (proj1 (stored_prefix_touch w now (prefixTree sl) w q)).
Qed.

End RenameFailure.

Section Clock.

Lemma clock_from_Forall t trace :
  clock_from t trace = true → Forall (λ e, t ≤ at_time e) trace.
Proof.
  revert t. induction trace as [|e trace IH]; intros t; simpl; [by constructor|].
  intros [Hle%Z.leb_le Hrest]%andb_true_iff. constructor; [done|].
  eapply Forall_impl; [by apply IH|]. simpl. intros; lia.
Qed.

Lemma clock_from_weaken t t' trace :
  t' ≤ t → clock_from t trace = true → clock_from t' trace = true.
Proof.
  destruct trace as [|e trace]; simpl; [done|].
  intros ? [Hle%Z.leb_le Hrest]%andb_true_iff.
  apply andb_true_iff. split; [apply Z.leb_le; lia|done].
Qed.

Lemma clock_from_app t l1 e l2 :
  clock_from t (l1 ++ e :: l2) = true →
  clock_from t l1 = true ∧ t ≤ at_time e ∧
  Forall (λ e', at_time e' ≤ at_time e) l1 ∧ clock_from (at_time e) l2 = true.
Proof.
  revert t. induction l1 as [|e1 l1 IH]; intros t; simpl.
  - intros [Hle%Z.leb_le Hrest]%andb_true_iff. by repeat split.
  - intros [Hle%Z.leb_le Hrest]%andb_true_iff.
    apply IH in Hrest as (H1 & H2 & H3 & H4).
    split; [apply andb_true_iff; split; [by apply Z.leb_le|done]|].
    split; [lia|]. split; [|done]. by constructor.
Qed.

End Clock.

Section LastSeen.
Context `{GoRuntime} {DB : Type} `{Gateway DB}.
Implicit Types (sl : SearchLogger DB) (w p q : word).

Lemma buildTrieFromWord_fields sl w now p :
  timeout (buildTrieFromWord sl w now) = timeout sl ∧
  db (buildTrieFromWord sl w now) = db sl ∧
  seen_at (prefixTree (buildTrieFromWord sl w now)) p =
    (if decide (p = w) then now else seen_at (prefixTree sl) p) ∧
  ended_at (prefixTree (buildTrieFromWord sl w now)) p =
    (if decide (p = w) then true else ended_at (prefixTree sl) p) ∧
  ref_at (prefixTree (buildTrieFromWord sl w now)) p = ref_at (prefixTree sl) p.
Proof.
  unfold buildTrieFromWord. simpl.
  assert (Hw : is_Some (walk (update_at (set_isEndOfWord true) w (build w (prefixTree sl))) w)).
  { rewrite (walk_update_at_is_Some _ _ _ _ _ (writes_set_isEndOfWord true)).
    apply walk_build_self. }
  repeat split.
  - rewrite seen_at_set_lastSeen by done.
    by rewrite seen_at_set_isEndOfWord, seen_at_build.
  - rewrite ended_at_set_lastSeen, ended_at_set_isEndOfWord by apply walk_build_self.
    by rewrite ended_at_build.
  - by rewrite ref_at_set_lastSeen, ref_at_set_isEndOfWord, ref_at_build.
Qed.

Lemma load_fold_fields now words sl p :
  timeout (foldl (λ sl w, buildTrieFromWord sl w now) sl words) = timeout sl ∧
  db (foldl (λ sl w, buildTrieFromWord sl w now) sl words) = db sl ∧
  seen_at (prefixTree (foldl (λ sl w, buildTrieFromWord sl w now) sl words)) p =
    (if decide (p ∈ words) then now else seen_at (prefixTree sl) p) ∧
  ended_at (prefixTree (foldl (λ sl w, buildTrieFromWord sl w now) sl words)) p =
    (if decide (p ∈ words) then true else ended_at (prefixTree sl) p) ∧
  ref_at (prefixTree (foldl (λ sl w, buildTrieFromWord sl w now) sl words)) p =
    ref_at (prefixTree sl) p.
Proof.
  revert sl. induction words as [|w words IH]; intros sl; simpl.
  { repeat split; try done; case_decide as Hd; try done; by apply elem_of_nil in Hd. }
  destruct (IH (buildTrieFromWord sl w now)) as (-> & -> & -> & -> & ->).
  destruct (buildTrieFromWord_fields sl w now p) as (-> & -> & -> & -> & ->).
  repeat split; repeat case_decide; try done;
    match goal with
    | Hn : _ ∉ _ :: _ |- _ => exfalso; apply Hn; subst; by (left || right)
    | Hn : ¬ _ ∈ _ :: _ |- _ => exfalso; apply Hn; subst; by (left || right)
    | Hi : _ ∈ _ :: _ |- _ => apply elem_of_cons in Hi as [?|?]; done
    end.
Qed.

(** The logger a successful start returns. *)
Lemma NewSearchLoggerWithDB_fields tmo d now sl p :
  NewSearchLoggerWithDB tmo d now = inr sl →
  timeout sl = tmo ∧
  seen_at (prefixTree sl) p = (if decide (p ∈ loaded_words d) then now else 0) ∧
  ended_at (prefixTree sl) p = bool_decide (p ∈ loaded_words d) ∧
  ref_at (prefixTree sl) p = None ∧
  db sl = (gw_GetAllSearchedWords (gw_CreateTable d).1).1.
Proof.
  unfold NewSearchLoggerWithDB, loadExistingWords, loaded_words.
  destruct (gw_CreateTable d) as [d1 [e|]]; [done|]. simpl.
  destruct (gw_GetAllSearchedWords d1) as [d2 [e|words]]; [done|]. simpl.
  intros [= <-].
  destruct (load_fold_fields now words
              (set_db d2 (mkSearchLogger newTrieNode d1 tmo)) p) as (-> & -> & -> & -> & ->).
  simpl. unfold seen_at, ended_at, ref_at.
  destruct p as [|c p]; simpl; [|rewrite lookup_empty; simpl];
    repeat split; try done; by case_bool_decide; case_decide.
Qed.

Lemma run_seen_at_nonzero sl trace p :
  Forall (λ e, 0 < at_time e) trace →
  seen_at (prefixTree (run sl trace)) p ≠ 0 ↔
  seen_at (prefixTree sl) p ≠ 0 ∨
  ∃ input now, Submit input now ∈ trace ∧ input ≠ [] ∧ normalize input = p.
Proof.
  revert sl. induction trace as [|e trace IH]; intros sl Hall.
  { simpl. split; [auto|]. intros [?|(? & ? & ?%elem_of_nil & _)]; done. }
  change (run sl (e :: trace)) with (run (step sl e) trace).
  apply Forall_cons in Hall as [He Hall]. rewrite IH by done.
  rewrite step_seen_at. destruct e as [input now|now]; simpl in *.
  - case_decide as Hd.
    + destruct Hd as [Hin ->]. split.
      * intros _. right. exists input, now. split; [by left|done].
      * intros _. left. lia.
    + split.
      * intros [?|(i & n & ? & ?)]; [by left|].
        right. exists i, n. split; [by right|done].
      * intros [?|(i & n & [Heq|?]%elem_of_cons & Hi & Hn)]; [by left| |].
        -- injection Heq as -> ->. exfalso. by apply Hd.
        -- right. by exists i, n.
  - split.
    + intros [?|(i & n & ? & ?)]; [by left|].
      right. exists i, n. split; [by right|done].
    + intros [?|(i & n & [Heq|?]%elem_of_cons & Hi & Hn)]; [by left|done|].
      right. by exists i, n.
Qed.

(** C9, as amended. In every state a logger reaches from its start, by
    calls of [LogSearch] and ticks, whatever the gateway answers, the
    [lastSeen] of a node is set if and only if its string was loaded from
    storage at start-up or is the normalised form of a non-empty string
    some caller submitted; and every such submission sets the [lastSeen] of
    that node to the time of the call. The clock never reads the zero
    instant. *)
Theorem lastSeen_set_iff_loaded_or_submitted tmo d t0 sl0 trace :
  NewSearchLoggerWithDB tmo d t0 = inr sl0 →
  0 < t0 →
  Forall (λ e, 0 < at_time e) trace →
  (∀ p node, walk (prefixTree (run sl0 trace)) p = Some node →
     IsZero (lastSeen node) = false ↔
     p ∈ loaded_words d ∨
     ∃ input now, Submit input now ∈ trace ∧ input ≠ [] ∧ normalize input = p) ∧
  (∀ input now node, input ≠ [] →
     walk (prefixTree (LogSearch (run sl0 trace) input now).1) (normalize input)
       = Some node →
     lastSeen node = now).
Proof.
  intros Hstart Ht0 Hall. split.
  - intros p node Hnode.
    destruct (walk_fields _ _ _ Hnode) as (<- & _ & _).
    rewrite <-negb_true_iff, IsZero_false, run_seen_at_nonzero by done.
    destruct (NewSearchLoggerWithDB_fields _ _ _ _ p Hstart) as (_ & -> & _).
    case_decide; split; intros [?|?]; auto; [lia|done].
  - intros input now node Hin Hnode.
    destruct (walk_fields _ _ _ Hnode) as (<- & _ & _).
    destruct (LogSearch_frame (run sl0 trace) input now Hin) as [_ ->].
    by rewrite decide_True.
Qed.

End LastSeen.

Section Suppression.
Context `{GoRuntime} {DB : Type} `{Gateway DB}.
Implicit Types (sl : SearchLogger DB) (w p q : word).

Lemma not_stores_before_timeout sl now w :
  now - timeout sl ≤ seen_at (prefixTree sl) w → ¬ stores_at_tick sl now w.
Proof. intros Hle [[_ Hlt]%elem_of_timedOutWords _]. lia. Qed.

Lemma not_stores_with_descendant sl now w k :
  k ≠ [] → seen_at (prefixTree sl) (w ++ k) ≠ 0 →
  isPrefixOfAnyWord sl w = true ∧ ¬ stores_at_tick sl now w.
Proof.
  intros Hk Hs.
  assert (Hp : isPrefixOfAnyWord sl w = true) by (apply isPrefixOfAnyWord_true; eauto).
  split; [done|]. intros [_ (_ & _ & Hf)%storable_true]. congruence.
Qed.

(** A tick that does not reach [storeWordToDB] for a word leaves the node
    of the word as it is. *)
Lemma tick_leaves_unstored_word sl now w :
  ¬ stores_at_tick sl now w →
  ref_at (prefixTree (processTimedOutWords sl now)) w = ref_at (prefixTree sl) w ∧
  ended_at (prefixTree (processTimedOutWords sl now)) w = ended_at (prefixTree sl) w.
Proof.
  intros Hno. rewrite processTimedOutWords_fold.
  destruct (storable sl w) eqn:Hst.
  - destruct (sweep_fold_frame now (range_words (timedOutWords sl now)) sl)
      as (_ & _ & _ & Hfr).
    apply Hfr. rewrite elem_of_range_words. intros Hin. by apply Hno.
  - by apply sweep_fold_skips.
Qed.

(** C6. Let [A] be a strict prefix of [B], both submitted, [B] within the
    timeout of the submission of [A], the clock never going back. Then no
    tick that follows the submission of [A] stores [A]: the tick does not
    reach [storeWordToDB] for [A] and leaves the node of [A] as it is.
    Before [B] arrives [A] has not timed out, and from then on [A] has a
    descendant whose timestamp is set, so that [isPrefixOfAnyWord] answers
    true. This holds from any state of the logger, whatever else is
    submitted in between or afterwards, and whatever the gateway
    answers. *)
Theorem prefix_suppressed sl inputA tA mid inputB tB post before T after :
  inputA ≠ [] → inputB ≠ [] →
  proper_prefix (normalize inputA) (normalize inputB) →
  0 < tA →
  clock_from tA (mid ++ Submit inputB tB :: post) = true →
  tB ≤ tA + timeout sl →
  mid ++ Submit inputB tB :: post = before ++ Tick T :: after →
  ¬ stores_at_tick (run sl (Submit inputA tA :: before)) T (normalize inputA) ∧
  ref_at (prefixTree (run sl (Submit inputA tA :: before ++ [Tick T]))) (normalize inputA)
    = ref_at (prefixTree (run sl (Submit inputA tA :: before))) (normalize inputA) ∧
  ended_at (prefixTree (run sl (Submit inputA tA :: before ++ [Tick T]))) (normalize inputA)
    = ended_at (prefixTree (run sl (Submit inputA tA :: before))) (normalize inputA) ∧
  ((length mid < length before)%nat →
   isPrefixOfAnyWord (run sl (Submit inputA tA :: before)) (normalize inputA) = true).
Proof.
  intros HA HB (k & Hk & HAB) HtA Hclock Hgap Hsplit.
  enough (Hmain :
    ¬ stores_at_tick (run sl (Submit inputA tA :: before)) T (normalize inputA) ∧
    ((length mid < length before)%nat →
     isPrefixOfAnyWord (run sl (Submit inputA tA :: before)) (normalize inputA) = true)).
  { destruct Hmain as [Hno Hsup]. split; [done|].
    rewrite app_comm_cons, run_app.
    change (run (run sl (Submit inputA tA :: before)) [Tick T])
      with (processTimedOutWords (run sl (Submit inputA tA :: before)) T).
    destruct (tick_leaves_unstored_word _ _ _ Hno) as [-> ->]. done. }
  set (A := normalize inputA) in *. set (B := normalize inputB) in *.
  change (run sl (Submit inputA tA :: before))
    with (run (step sl (Submit inputA tA)) before).
  set (s1 := step sl (Submit inputA tA)).
  assert (Hs1 : seen_at (prefixTree s1) A = tA).
  { unfold s1. rewrite step_seen_at. by rewrite decide_True. }
  assert (Hto : ∀ tr, timeout (run s1 tr) = timeout sl).
  { intros tr. unfold s1. by rewrite run_timeout, step_timeout. }
  destruct (clock_from_app _ _ _ _ Hclock) as (Hmid & HtB & Hmidle & Hpost).
  apply app_eq_app in Hsplit as [l [[-> Hl]|[-> Hl]]].
  - (* the tick comes before the submission of B *)
    destruct l as [|e l].
    { simpl in Hl. discriminate. }
    simpl in Hl. injection Hl as <- ->.
    split; [|rewrite length_app; simpl; lia].
    apply not_stores_before_timeout. rewrite Hto.
    assert (Hge : tA ≤ seen_at (prefixTree (run s1 before)) A).
    { apply run_seen_at_ge; [|lia].
      apply clock_from_app in Hmid as (Hb & _). by apply clock_from_Forall. }
    apply Forall_app in Hmidle as [_ Hle]. apply Forall_cons in Hle as [Hle _].
    simpl in Hle. lia.
  - (* the tick comes after the submission of B *)
    destruct l as [|e l].
    { simpl in Hl. discriminate. }
    simpl in Hl. injection Hl as <- ->.
    assert (Hs : seen_at (prefixTree (run s1 (mid ++ Submit inputB tB :: l))) B ≠ 0).
    { rewrite run_app.
      change (run (run s1 mid) (Submit inputB tB :: l))
        with (run (step (run s1 mid) (Submit inputB tB)) l).
      enough (tB ≤ seen_at (prefixTree (run (step (run s1 mid) (Submit inputB tB)) l)) B)
        by (simpl in HtB; lia).
      apply run_seen_at_ge.
      - apply clock_from_app in Hpost as (Hl & _). by apply clock_from_Forall.
      - rewrite step_seen_at. by rewrite decide_True. }
    rewrite HAB in Hs.
    destruct (not_stores_with_descendant _ T A k Hk Hs) as [Hp Hn]. done.
Qed.

End Suppression.

Section MockTick.
Context `{GoRuntime}.
#[local] Existing Instance MockGateway.
Implicit Types (sl : SearchLogger MockPostgresDB) (w v p : word).

Lemma seen_at_nonzero_walk t p : seen_at t p ≠ 0 → is_Some (walk t p).
Proof. unfold seen_at. destruct (walk t p); [eauto|done]. Qed.

Lemma GetStoredSearches_holds sl :
  ∃ l, GetStoredSearches sl = inr l ∧ ∀ v, v ∈ l ↔ holds (db sl) v.
Proof.
  destruct (GetAllSearchedWords_holds (db sl)) as (l & Hl & Hin).
  exists l. split; [|done]. unfold GetStoredSearches.
  change (gw_GetAllSearchedWords (db sl)) with (GetAllSearchedWords (db sl)).
  by rewrite Hl.
Qed.

Lemma length_range_words (s : gset (list Z)) : length (range_words s) = size s.
Proof. by rewrite range_words_perm. Qed.

(** C3, as amended. Take a word whose node has its [lastSeen] set, holds
    no reference and has no searched descendant (submitted, not yet
    persisted, never extended), over the mock database. A tick strictly
    later than [lastSeen + timeout] persists it: afterwards the stored
    words contain it and its node holds a reference (the identifier
    counter having room for the words of this tick). A tick at or before
    [lastSeen + timeout] does not: the node still holds no reference, and
    the word is among the stored words afterwards only if it was
    before. *)
Theorem timeout_boundary_strict sl w T :
  seen_at (prefixTree sl) w ≠ 0 →
  ref_at (prefixTree sl) w = None →
  isPrefixOfAnyWord sl w = false →
  (seen_at (prefixTree sl) w + timeout sl < T →
   mock_room (Z.of_nat (size (timedOutWords sl T))) (db sl) →
   is_Some (ref_at (prefixTree (processTimedOutWords sl T)) w) ∧
   ∃ l, GetStoredSearches (processTimedOutWords sl T) = inr l ∧ w ∈ l) ∧
  (T ≤ seen_at (prefixTree sl) w + timeout sl →
   ref_at (prefixTree (processTimedOutWords sl T)) w = None ∧
   ∀ l l', GetStoredSearches sl = inr l →
           GetStoredSearches (processTimedOutWords sl T) = inr l' →
           w ∈ l' → w ∈ l).
Proof.
  intros Hseen Href Hpre.
  pose proof (NoDup_range_words (timedOutWords sl T)) as Hnd.
  destruct (mock_sweep_fold T _ sl Hnd) as (Hnew & Hrefs & Hroom).
  rewrite processTimedOutWords_fold.
  assert (Hst : storable sl w = true).
  { apply storable_true. split; [by apply seen_at_nonzero_walk|done]. }
  split.
  - intros Hlate Hr.
    assert (Hin : w ∈ range_words (timedOutWords sl T)).
    { apply elem_of_range_words, elem_of_timedOutWords. split; [done|lia]. }
    split; [by apply Hrefs|].
    destruct Hroom as (_ & _ & Hall); [by rewrite length_range_words|].
    destruct (GetStoredSearches_holds
                (foldl (sweep_word T) sl (range_words (timedOutWords sl T))))
      as (l & Hl & Hmem).
    exists l. split; [done|]. apply Hmem. by apply Hall.
  - intros Hearly.
    assert (Hout : w ∉ range_words (timedOutWords sl T)).
    { rewrite elem_of_range_words, elem_of_timedOutWords. lia. }
    destruct (sweep_fold_frame T (range_words (timedOutWords sl T)) sl)
      as (_ & _ & _ & Hfr).
    destruct (Hfr w Hout) as [-> _]. split; [done|].
    intros l l' Hl Hl' Hin.
    destruct (GetStoredSearches_holds sl) as (k & Hk & Hmem).
    destruct (GetStoredSearches_holds
                (foldl (sweep_word T) sl (range_words (timedOutWords sl T))))
      as (k' & Hk' & Hmem').
    rewrite Hl in Hk. rewrite Hl' in Hk'. injection Hk as ->. injection Hk' as ->.
    apply Hmem. apply Hmem' in Hin. destruct (Hnew w Hin) as [?|[? _]]; done.
Qed.

Lemma TrimLeftSpace_spaces s :
  Forall (λ c, unicode_IsSpace c = true) s → TrimLeftSpace s = [].
Proof. induction 1 as [|c s Hc _ IH]; simpl; [done|]. by rewrite Hc. Qed.

Lemma normalize_spaces s :
  Forall (λ c, unicode_IsSpace c = true) s → normalize s = [].
Proof.
  intros Hs. unfold normalize, TrimSpace.
  rewrite (TrimLeftSpace_spaces s Hs). done.
Qed.

(** C10. A non-empty input made of white space only passes the guard of
    [LogSearch], which tests the string before it is trimmed; it is trimmed
    to the empty string, and the call sets the [lastSeen] of the root and
    returns no error. If no other node has its timestamp set (and the root
    holds no reference yet), a tick after the timeout stores the empty
    string in the (mock) database. *)
Theorem whitespace_input_stores_empty_word sl input now T :
  input ≠ [] →
  Forall (λ c, unicode_IsSpace c = true) input →
  now ≠ 0 →
  hasAnySearchedDescendants (prefixTree sl) = false →
  dbID (prefixTree sl) = None →
  now + timeout sl < T →
  normalize input = [] ∧
  (LogSearch sl input now).2 = None ∧
  lastSeen (prefixTree (LogSearch sl input now).1) = now ∧
  ∃ l, GetStoredSearches (processTimedOutWords (LogSearch sl input now).1 T) = inr l ∧
       [] ∈ l.
Proof.
  intros Hin Hsp Hnow Hno Hroot Hlate.
  pose proof (normalize_spaces input Hsp) as Hnorm.
  assert (Hrun : LogSearch sl input now =
            (set_prefixTree (touch [] now (prefixTree sl)) sl, None)).
  { rewrite LogSearch_unfold by done. by rewrite Hnorm. }
  rewrite Hrun. cbn [fst snd]. repeat (split; [done|]).
  set (sl1 := set_prefixTree (touch [] now (prefixTree sl)) sl).
  assert (Hs : ∀ p, seen_at (prefixTree sl1) p = if decide (p = []) then now else 0).
  { intros p. change (prefixTree sl1) with (touch [] now (prefixTree sl)).
    rewrite seen_at_touch. destruct (decide (p = [])) as [->|Hp]; [done|].
    destruct p as [|c p]; [done|].
    unfold seen_at. destruct (walk (prefixTree sl) (c :: p)) as [m|] eqn:Hw; [|done].
    simpl. eapply hasAnySearchedDescendants_false; [done| |done]. done. }
  assert (Hto : timedOutWords sl1 T = {[ [] ]}).
  { apply set_eq. intros p. rewrite elem_of_timedOutWords, elem_of_singleton, Hs.
    simpl. case_decide; [split; [done|]; intros _; split; [done|lia]|].
    split; [by intros []|done]. }
  assert (Hl : range_words (timedOutWords sl1 T) = [ [] ]).
  { apply Permutation_singleton_r. rewrite range_words_perm, Hto.
    by rewrite elements_singleton. }
  rewrite processTimedOutWords_fold, Hl. simpl.
  assert (Hst : storable sl1 [] = true).
  { apply storable_true. split; [by eexists|]. split.
    - unfold ref_at. simpl. done.
    - apply isPrefixOfAnyWord_false. intros q Hq. rewrite Hs.
      by rewrite decide_False by (by destruct q). }
  destruct (mock_sweep_word T sl1 [] Hst) as [Hdb _].
  destruct (GetStoredSearches_holds (sweep_word T sl1 [])) as (l & Hgl & Hmem).
  exists l. split; [done|]. apply Hmem. rewrite Hdb.
  destruct (InsertOrReplace_holds (db sl1) [] T T) as (m' & id & -> & (r & ? & ?) & _).
  by exists id, r.
Qed.

End MockTick.

Section Converging.
Context `{GoRuntime}.
#[local] Existing Instance MockGateway.
Implicit Types (sl : SearchLogger MockPostgresDB) (w v p q W : word).

Lemma range_ids_empty {V} : range_ids (∅ : gmap Z V) = [].
Proof. apply Permutation_nil_r. by rewrite range_ids_perm, map_to_list_empty. Qed.

Lemma range_ids_singleton {V} id (x : V) : range_ids ({[id := x]} : gmap Z V) = [(id, x)].
Proof.
  apply Permutation_singleton_r. by rewrite range_ids_perm, map_to_list_singleton.
Qed.

Lemma GetStoredSearches_unstored sl : unstored sl → GetStoredSearches sl = inr [].
Proof.
  intros [Hdb _]. unfold GetStoredSearches. rewrite Hdb. simpl.
  by rewrite range_ids_empty.
Qed.

Lemma InsertOrReplace_new W T :
  (InsertOrReplace NewMockPostgresDB W T T).1 = written_once W T.
Proof.
  unfold InsertOrReplace. simpl. rewrite range_ids_empty. simpl.
  by rewrite insert_empty.
Qed.

Lemma GetStoredSearches_stored_once W sl :
  stored_once W sl → GetStoredSearches sl = inr [W].
Proof.
  intros [[T Hdb] _]. unfold GetStoredSearches. rewrite Hdb. simpl.
  by rewrite range_ids_singleton.
Qed.

Lemma sweep_fold_unstorable `{Gateway DB} now l (sl : SearchLogger DB) :
  (∀ v, v ∈ l → storable sl v = false) → foldl (sweep_word now) sl l = sl.
Proof.
  induction l as [|w l IH]; intros Hl; simpl; [done|].
  rewrite sweep_word_not_storable by (apply Hl; by left).
  apply IH. intros v Hv. apply Hl. by right.
Qed.

Lemma sweep_fold_only `{Gateway DB} now l (sl : SearchLogger DB) w :
  NoDup l → w ∈ l →
  (∀ v, v ∈ l → v ≠ w → storable sl v = false) →
  foldl (sweep_word now) sl l = sweep_word now sl w.
Proof.
  intros Hnd Hin Hl.
  apply list_elem_of_split in Hin as (l1 & l2 & ->).
  apply NoDup_app in Hnd as (_ & Hl1 & Hnd). apply NoDup_cons in Hnd as [Hl2 _].
  rewrite foldl_app. simpl.
  rewrite (sweep_fold_unstorable now l1 sl).
  - apply sweep_fold_unstorable. intros v Hv.
    assert (v ≠ w) by (by intros ->).
    destruct (sweep_word_frame now sl w) as (_ & Hs & Hx & Hfr).
    rewrite (storable_frame sl (sweep_word now sl w) v); [| done | done | by apply Hfr].
    apply Hl; [|done]. apply elem_of_app. right. by right.
  - intros v Hv. apply Hl; [apply elem_of_app; by left|].
    intros ->. by apply (Hl1 w); [|left].
Qed.

(** A submission of a prefix of [W], when every reference is on [W]:
    the extension step finds nothing to rename. *)
Lemma submit_converging W sl input now :
  converging W sl →
  input ≠ [] → normalize input `prefix_of` W → now ≠ 0 →
  LogSearch sl input now =
    (set_prefixTree (touch (normalize input) now (prefixTree sl)) sl, None) ∧
  converging W (set_prefixTree (touch (normalize input) now (prefixTree sl)) sl).
Proof.
  intros [Hseen Hst] Hin Hpre Hnow.
  assert (Hno : ∀ p, ¬ stored_prefix (prefixTree sl) (normalize input) p).
  { intros p (_ & Hpp & _ & Hr).
    destruct Hst as [[_ Hnone]|[(_ & Hnone & _) _]].
    - rewrite Hnone in Hr. by destruct Hr.
    - destruct (decide (p = W)) as [->|Hne].
      + apply proper_prefix_length in Hpp. apply prefix_length in Hpre. lia.
      + rewrite Hnone in Hr by done. by destruct Hr. }
  rewrite (LogSearch_no_stored_prefix sl input now Hin Hno).
  split; [done|]. split.
  - intros q. simpl. rewrite seen_at_touch. case_decide; [by subst|apply Hseen].
  - destruct Hst as [[Hdb Hnone]|[(Hdb & Hnone & Hsome) HW]].
    + left. split; [done|]. intros q. simpl. by rewrite ref_at_touch.
    + right. split.
      * split; [done|]. simpl. split.
        -- intros q ?. rewrite ref_at_touch. by apply Hnone.
        -- by rewrite ref_at_touch.
      * simpl. rewrite seen_at_touch. by case_decide.
Qed.

(** A tick at which every collected word other than [W] has a searched
    descendant: nothing happens, unless [W] is collected and not stored
    yet, and then [W] is stored. *)
Lemma tick_converging W sl T :
  converging W sl →
  (∀ q, q ∈ timedOutWords sl T → q ≠ W → isPrefixOfAnyWord sl q = true) →
  converging W (processTimedOutWords sl T) ∧
  (unstored sl → W ∉ timedOutWords sl T → processTimedOutWords sl T = sl) ∧
  (stored_once W sl → processTimedOutWords sl T = sl) ∧
  (W ∈ timedOutWords sl T → stored_once W (processTimedOutWords sl T)).
Proof.
  intros [Hseen Hst] Hsup.
  rewrite processTimedOutWords_fold.
  set (l := range_words (timedOutWords sl T)).
  assert (Hother : ∀ v, v ∈ l → v ≠ W → storable sl v = false).
  { intros v Hv%elem_of_range_words Hne. apply not_true_iff_false.
    intros (_ & _ & Hf)%storable_true. rewrite Hsup in Hf; done. }
  assert (Hstored : stored_once W sl → foldl (sweep_word T) sl l = sl).
  { intros (_ & _ & Hsome). apply sweep_fold_unstorable. intros v Hv.
    destruct (decide (v = W)) as [->|Hne]; [|by apply Hother].
    apply not_true_iff_false. intros (_ & Hr & _)%storable_true.
    rewrite Hr in Hsome. by destruct Hsome. }
  assert (Hout : W ∉ timedOutWords sl T → foldl (sweep_word T) sl l = sl).
  { intros HW. apply sweep_fold_unstorable. intros v Hv.
    apply Hother; [done|]. intros ->. by apply HW, elem_of_range_words. }
  assert (Hin : unstored sl → W ∈ timedOutWords sl T →
            stored_once W (foldl (sweep_word T) sl l) ∧
            ∀ q, seen_at (prefixTree (foldl (sweep_word T) sl l)) q
                 = seen_at (prefixTree sl) q).
  { intros [Hdb Hnone] HW.
    rewrite (sweep_fold_only T l sl W);
      [|apply NoDup_range_words|by apply elem_of_range_words|done].
    assert (HstW : storable sl W = true).
    { apply elem_of_timedOutWords in HW as [HW0 _].
      apply storable_true. split; [by apply seen_at_nonzero_walk|]. split; [done|].
      apply isPrefixOfAnyWord_false. intros k Hk.
      destruct (decide (seen_at (prefixTree sl) (W ++ k) = 0)) as [|Hnz]; [done|].
      apply Hseen, prefix_length in Hnz. rewrite length_app in Hnz.
      destruct k; [done|]. simpl in Hnz. lia. }
    destruct (mock_sweep_word T sl W HstW) as [Hdb' Hsome].
    destruct (sweep_word_frame T sl W) as (_ & Hs & _ & Hfr).
    split; [|done]. split; [|split].
    - exists T. by rewrite Hdb', Hdb, InsertOrReplace_new.
    - intros q Hq. destruct (Hfr q Hq) as [-> _]. apply Hnone.
    - done. }
  split; [|split; [|split]].
  - destruct Hst as [Hun|[Hso HW]].
    + destruct (decide (W ∈ timedOutWords sl T)) as [HWin|HWout].
      * destruct (Hin Hun HWin) as [Hso Hs]. split.
        -- intros q. rewrite Hs. apply Hseen.
        -- right. split; [done|]. rewrite Hs.
           by apply elem_of_timedOutWords in HWin as [? _].
      * rewrite Hout by done. split; [done|by left].
    + rewrite Hstored by done. split; [done|by right].
  - intros _ HW. by apply Hout.
  - done.
  - intros HW. destruct Hst as [Hun|[Hso _]].
    + by apply Hin.
    + by rewrite Hstored.
Qed.

End Converging.

Section Settled.
Context `{GoRuntime}.
#[local] Existing Instance MockGateway.
Implicit Types (sl : SearchLogger MockPostgresDB) (w v p q W : word).

Lemma converging_stored_ok W sl : converging W sl → stored_ok W sl.
Proof.
  intros [_ [Hun|[Hso _]]].
  - left. split; [apply Hun|by apply GetStoredSearches_unstored].
  - right. split; [apply Hso|by apply GetStoredSearches_stored_once].
Qed.

Lemma unstored_stored_ok W sl : unstored sl → stored_ok W sl.
Proof. intros Hun. left. split; [apply Hun|by apply GetStoredSearches_unstored]. Qed.

Lemma stored_once_touch W sl p now :
  stored_once W sl → stored_once W (set_prefixTree (touch p now (prefixTree sl)) sl).
Proof.
  intros (Hdb & Hnone & Hsome). split; [done|]. simpl. split.
  - intros q ?. rewrite ref_at_touch. by apply Hnone.
  - by rewrite ref_at_touch.
Qed.

Lemma unstored_touch sl p now :
  unstored sl → unstored (set_prefixTree (touch p now (prefixTree sl)) sl).
Proof. intros [Hdb Hnone]. split; [done|]. intros q. simpl. by rewrite ref_at_touch. Qed.

Lemma proper_prefix_prefix p w : proper_prefix p w → p `prefix_of` w.
Proof. intros (k & _ & ->). by exists k. Qed.

Lemma prefix_proper_or_eq p w : p `prefix_of` w → p = w ∨ proper_prefix p w.
Proof.
  intros [k ->]. destruct k as [|c k]; [left; by rewrite app_nil_r|].
  right. by exists (c :: k).
Qed.

Lemma proper_prefix_trans p q w : proper_prefix p q → q `prefix_of` w → proper_prefix p w.
Proof.
  intros (k & Hk & ->) [k' ->]. exists (k ++ k'). split; [by destruct k|].
  by rewrite app_assoc.
Qed.

(** Once [W] has been typed, every other typed word is suppressed. *)
Lemma suppressed_by W sl T :
  converging W sl → seen_at (prefixTree sl) W ≠ 0 →
  ∀ q, q ∈ timedOutWords sl T → q ≠ W → isPrefixOfAnyWord sl q = true.
Proof.
  intros [Hseen _] HW q [Hq _]%elem_of_timedOutWords Hne.
  destruct (prefix_proper_or_eq q W (Hseen q Hq)) as [?|(k & Hk & ->)]; [done|].
  apply isPrefixOfAnyWord_true. eauto.
Qed.

Lemma at_time_nonzero t trace :
  0 < t → clock_from t trace = true → Forall (λ e, at_time e ≠ 0) trace.
Proof.
  intros Ht Hc%clock_from_Forall. eapply Forall_impl; [done|]. simpl. intros; lia.
Qed.

(** After [W] has been typed, while only proper prefixes of [W] are
    submitted: nothing but [W] is ever stored, [W] stays stored, and a tick
    later than [lastSeen + timeout] stores it. *)
Lemma settled_run W tmo t1 trace sl :
  converging W sl → seen_at (prefixTree sl) W = t1 → t1 ≠ 0 → timeout sl = tmo →
  Forall (λ s, s.1 ≠ [] ∧ proper_prefix (normalize s.1) W) (submissions trace) →
  Forall (λ e, at_time e ≠ 0) trace →
  (∀ k, stored_ok W (run sl (take k trace))) ∧
  (stored_once W sl → stored_once W (run sl trace)) ∧
  (∀ T, Tick T ∈ trace → t1 + tmo < T → stored_once W (run sl trace)).
Proof.
  revert sl. induction trace as [|e trace IH]; intros sl Hconv HW Ht1 Htmo Hsubs Hnz.
  { split; [|split].
    - intros k. rewrite take_nil. by apply converging_stored_ok.
    - done.
    - by intros T ?%elem_of_nil. }
  apply Forall_cons in Hnz as [Hnow Hnz].
  change (run sl (e :: trace)) with (run (step sl e) trace).
  destruct e as [input now|T]; simpl in Hsubs, Hnow.
  - apply Forall_cons in Hsubs as [(Hin & Hpp) Hsubs].
    simpl in Hin, Hpp.
    destruct (submit_converging W sl input now Hconv Hin
                (proper_prefix_prefix _ _ Hpp) Hnow) as [Hrun Hconv'].
    assert (Hstep : step sl (Submit input now)
              = set_prefixTree (touch (normalize input) now (prefixTree sl)) sl).
    { simpl. by rewrite Hrun. }
    rewrite Hstep.
    destruct (IH _ Hconv') as (IH1 & IH2 & IH3); try done.
    { simpl. rewrite seen_at_touch. rewrite decide_False; [done|].
      intros Heq. symmetry in Heq. by apply proper_prefix_ne in Hpp. }
    split; [|split].
    + intros [|k]; [by apply converging_stored_ok|].
      change (run sl (take (S k) (Submit input now :: trace)))
        with (run (step sl (Submit input now)) (take k trace)).
      rewrite Hstep. apply IH1.
    + intros Hso. by apply IH2, stored_once_touch.
    + intros T [Heq|Hin']%elem_of_cons; [done|]. by apply (IH3 T).
  - destruct (tick_converging W sl T Hconv (suppressed_by W sl T Hconv ltac:(lia)))
      as (Hconv' & _ & Hkeep & Hstore).
    destruct (processTimedOutWords_frame sl T) as [Hto Hs].
    destruct (IH (processTimedOutWords sl T) Hconv') as (IH1 & IH2 & IH3); try done.
    { by rewrite Hs. }
    { by rewrite Hto. }
    simpl. split; [|split].
    + intros [|k]; [by apply converging_stored_ok|].
      change (run sl (take (S k) (Tick T :: trace)))
        with (run (processTimedOutWords sl T) (take k trace)).
      apply IH1.
    + intros Hso. apply IH2. by rewrite Hkeep.
    + intros T' [Heq|Hin']%elem_of_cons Hlate; [|by apply (IH3 T')].
      injection Heq as ->. apply IH2, Hstore.
      apply elem_of_timedOutWords. rewrite HW, Htmo. split; [done|lia].
Qed.

End Settled.

Section DecreasingOrder.
Context `{GoRuntime}.
#[local] Existing Instance MockGateway.
Implicit Types (sl : SearchLogger MockPostgresDB) (w v p q W : word).

Lemma seen_at_newTrieNode q : seen_at newTrieNode q = 0.
Proof. unfold seen_at. destruct q; simpl; [done|]. by rewrite lookup_empty. Qed.

Lemma ref_at_newTrieNode q : ref_at newTrieNode q = None.
Proof. unfold ref_at. destruct q; simpl; [done|]. by rewrite lookup_empty. Qed.

Lemma unstored_fresh tmo : unstored (fresh_logger tmo).
Proof. split; [done|]. intros q. apply ref_at_newTrieNode. Qed.

Lemma converging_fresh W tmo : converging W (fresh_logger tmo).
Proof.
  split; [|left; apply unstored_fresh].
  intros q. simpl. by rewrite seen_at_newTrieNode.
Qed.

Lemma tick_fresh tmo T : processTimedOutWords (fresh_logger tmo) T = fresh_logger tmo.
Proof.
  destruct (tick_converging [] (fresh_logger tmo) T (converging_fresh [] tmo))
    as (_ & Hnoop & _).
  - intros q [Hq _]%elem_of_timedOutWords. simpl in Hq.
    by rewrite seen_at_newTrieNode in Hq.
  - apply Hnoop; [apply unstored_fresh|].
    intros [Hq _]%elem_of_timedOutWords. simpl in Hq.
    by rewrite seen_at_newTrieNode in Hq.
Qed.

Lemma clock_first_submission T trace :
  clock_from T trace = true → submissions trace ≠ [] →
  T ≤ first_time (submissions trace).
Proof.
  revert T. induction trace as [|[input now|T'] trace IH]; intros T; simpl; [done|..].
  - by intros [?%Z.leb_le _]%andb_true_iff _.
  - intros [?%Z.leb_le Hc]%andb_true_iff Hs. specialize (IH _ Hc Hs). lia.
Qed.

Lemma clock_last_time T t0 trace :
  clock_from T trace = true → submissions trace ≠ [] →
  T ≤ last_time t0 (submissions trace).
Proof.
  revert T t0. induction trace as [|[input now|T'] trace IH]; intros T t0; simpl; [done|..].
  - intros [Hle%Z.leb_le Hc]%andb_true_iff _.
    destruct (decide (submissions trace = [])) as [Hs|Hs].
    + rewrite Hs. simpl. lia.
    + specialize (IH now now Hc Hs). lia.
  - intros [?%Z.leb_le Hc]%andb_true_iff Hs. specialize (IH _ t0 Hc Hs). lia.
Qed.

Lemma shrinking_Forall W prev subs :
  prev `prefix_of` W → shrinking prev subs →
  Forall (λ s, s.1 ≠ [] ∧ proper_prefix (normalize s.1) W) subs.
Proof.
  revert prev. induction subs as [|[p t] subs IH]; intros prev Hprev; simpl.
  { by constructor. }
  intros (Hp & Hpp & Hrest). constructor.
  - simpl. split; [done|]. by eapply proper_prefix_trans.
  - apply (IH (normalize p)); [|done].
    apply proper_prefix_prefix. by eapply proper_prefix_trans.
Qed.

(** C5. From a new logger over an empty database, let [W] be submitted
    first and then shorter and shorter prefixes of it (the words being the
    normalised forms of the non-empty strings submitted), ticks falling
    anywhere, the clock never going back. At every moment the database is
    new or holds the single record of one write of [W], and once a tick
    later than the submission of [W] plus the timeout has run, the stored
    words are exactly [W], in one record counted once: the result of the
    increasing order. *)
Theorem decreasing_prefixes_store_only_W tmo W trace :
  0 < tmo →
  clock_from 1 trace = true →
  decreasing_chain W (submissions trace) →
  (∀ k, stored_ok W (run (fresh_logger tmo) (take k trace))) ∧
  (∀ T, Tick T ∈ trace → first_time (submissions trace) + tmo < T →
        (∃ T', db (run (fresh_logger tmo) trace) = written_once W T') ∧
        GetStoredSearches (run (fresh_logger tmo) trace) = inr [W]).
Proof.
  intros Htmo. induction trace as [|[input now|T'] trace IH]; intros Hclock Hchain.
  { done. }
  - simpl in Hchain. destruct Hchain as (Hin & HW & Hshrink).
    simpl in Hclock. apply andb_true_iff in Hclock as [Hnow%Z.leb_le Hclock].
    destruct (submit_converging W (fresh_logger tmo) input now (converging_fresh W tmo))
      as [Hrun Hconv]; [done|by rewrite HW|lia|].
    rewrite HW in Hrun, Hconv.
    assert (Hstep : step (fresh_logger tmo) (Submit input now)
              = set_prefixTree (touch W now newTrieNode) (fresh_logger tmo)).
    { simpl. by rewrite Hrun. }
    destruct (settled_run W tmo now trace _ Hconv) as (H1 & _ & H3).
    { simpl. by rewrite seen_at_touch, decide_True. }
    { lia. }
    { done. }
    { by apply (shrinking_Forall W W). }
    { apply (at_time_nonzero now); [lia|done]. }
    split.
    + intros [|k]; [apply converging_stored_ok, converging_fresh|].
      change (run (fresh_logger tmo) (take (S k) (Submit input now :: trace)))
        with (run (step (fresh_logger tmo) (Submit input now)) (take k trace)).
      rewrite Hstep. apply H1.
    + intros T [Heq|HT]%elem_of_cons Hlate; [done|].
      change (run (fresh_logger tmo) (Submit input now :: trace))
        with (run (step (fresh_logger tmo) (Submit input now)) trace).
      rewrite Hstep. specialize (H3 T HT Hlate).
      split; [apply H3|by apply GetStoredSearches_stored_once].
  - simpl in Hchain. simpl in Hclock.
    apply andb_true_iff in Hclock as [HT'%Z.leb_le Hclock].
    destruct IH as [IH1 IH2]; [by apply (clock_from_weaken T')|done|].
    assert (Hsubs : submissions trace ≠ []).
    { intros Heq. by rewrite Heq in Hchain. }
    pose proof (clock_first_submission _ _ Hclock Hsubs) as Hfirst.
    split.
    + intros [|k]; [apply converging_stored_ok, converging_fresh|].
      change (run (fresh_logger tmo) (take (S k) (Tick T' :: trace)))
        with (run (processTimedOutWords (fresh_logger tmo) T') (take k trace)).
      rewrite tick_fresh. apply IH1.
    + intros T [Heq|Hin]%elem_of_cons Hlate.
      { injection Heq as ->. simpl in Hlate. lia. }
      change (run (fresh_logger tmo) (Tick T' :: trace))
        with (run (processTimedOutWords (fresh_logger tmo) T') trace).
      rewrite tick_fresh. by apply (IH2 T).
Qed.

End DecreasingOrder.

Section IncreasingOrder.
Context `{GoRuntime}.
#[local] Existing Instance MockGateway.
Implicit Types (sl : SearchLogger MockPostgresDB) (w v p q W : word).

Lemma converging_weaken p W sl :
  p `prefix_of` W → (∀ q, seen_at (prefixTree sl) q ≠ 0 → q `prefix_of` p) →
  unstored sl → converging W sl.
Proof.
  intros Hp Hseen Hun. split; [|by left].
  intros q Hq. by etransitivity; [apply Hseen|].
Qed.

(** The typing phase: what has been typed so far is a chain that the
    remaining submissions continue up to [W], and nothing is stored while
    submissions remain. *)
Lemma growing_run tmo W trace :
  0 < tmo →
  ∀ sl last,
  timeout sl = tmo →
  match last with
  | None => sl = fresh_logger tmo
  | Some (p, t) =>
      (∀ q, seen_at (prefixTree sl) q ≠ 0 → q `prefix_of` p) ∧
      (unstored sl ∨ (submissions trace = [] ∧ stored_once p sl)) ∧
      seen_at (prefixTree sl) p = t ∧ 0 < t
  end →
  clock_from (match last with Some (_, t) => t | None => 1 end) trace = true →
  chain_from tmo W last (submissions trace) →
  (∀ k, stored_ok W (run sl (take k trace))) ∧
  (∀ T, Tick T ∈ trace →
        last_time (match last with Some (_, t) => t | None => 0 end)
          (submissions trace) + tmo < T →
        (∃ T', db (run sl trace) = written_once W T') ∧
        GetStoredSearches (run sl trace) = inr [W]).
Proof.
  intros Htmo. induction trace as [|e trace IH]; intros sl last Hto Hinv Hclock Hchain.
  { simpl in Hchain. destruct last as [[p t]|]; [|done]. subst p.
    destruct Hinv as (Hseen & Hst & HW & Ht).
    split; [|by intros T ?%elem_of_nil].
    intros k. rewrite take_nil. apply converging_stored_ok. split; [done|].
    destruct Hst as [?|[_ ?]]; [by left|]. right. split; [done|]. simpl. lia. }
  destruct (decide (submissions (e :: trace) = [])) as [Hquiet|Htyping].
  { (* only ticks remain: the last word typed is W *)
    rewrite Hquiet in *. simpl in Hchain. destruct last as [[p t]|]; [|done]. subst p.
    destruct Hinv as (Hseen & Hst & HW & Ht).
    assert (Hconv : converging W sl).
    { split; [done|]. destruct Hst as [?|[_ ?]]; [by left|]. right. split; [done|]. lia. }
    destruct (settled_run W tmo t (e :: trace) sl Hconv HW ltac:(lia) Hto)
      as (H1 & _ & H3).
    { rewrite Hquiet. by constructor. }
    { by apply (at_time_nonzero t). }
    split; [done|]. intros T HT Hlate. simpl in Hlate.
    specialize (H3 T HT Hlate).
    split; [apply H3|by apply GetStoredSearches_stored_once]. }
  assert (Hun : unstored sl).
  { destruct last as [[p t]|]; [|subst sl; apply unstored_fresh].
    destruct Hinv as (_ & [?|[? _]] & _); done. }
  change (run sl (e :: trace)) with (run (step sl e) trace).
  destruct e as [input now|T]; simpl in Hchain, Hclock.
  - (* the next word of the chain is submitted *)
    destruct Hchain as (Hin & Hlast & Hchain).
    apply andb_true_iff in Hclock as [Hnow%Z.leb_le Hclock].
    assert (Hnow0 : 0 < now).
    { destruct last as [[p t]|]; [|lia]. destruct Hinv as (_ & _ & _ & ?). lia. }
    assert (Hconv : converging (normalize input) sl).
    { destruct last as [[p t]|].
      - destruct Hinv as (Hseen & _). destruct Hlast as [Hpp _].
        by apply (converging_weaken p); [apply proper_prefix_prefix|..].
      - subst sl. apply converging_fresh. }
    destruct (submit_converging (normalize input) sl input now Hconv Hin)
      as [Hrun [Hseen' _]]; [done|lia|].
    assert (Hstep : step sl (Submit input now)
              = set_prefixTree (touch (normalize input) now (prefixTree sl)) sl).
    { simpl. by rewrite Hrun. }
    rewrite Hstep.
    destruct (IH (set_prefixTree (touch (normalize input) now (prefixTree sl)) sl)
                (Some (normalize input, now))) as [IH1 IH2]; try done.
    { split; [done|]. split; [left; by apply unstored_touch|].
      simpl. by rewrite seen_at_touch, decide_True. }
    split.
    + intros [|k].
      { by apply unstored_stored_ok. }
      change (run sl (take (S k) (Submit input now :: trace)))
        with (run (step sl (Submit input now)) (take k trace)).
      rewrite Hstep. apply IH1.
    + intros T [Heq|HT]%elem_of_cons Hlate; [done|]. by apply (IH2 T).
  - (* a tick while submissions remain: the next one comes in time *)
    apply andb_true_iff in Hclock as [HT%Z.leb_le Hclock].
    simpl in Htyping.
    assert (Hnoop : processTimedOutWords sl T = sl).
    { destruct last as [[p t]|]; [|subst sl; apply tick_fresh].
      destruct Hinv as (Hseen & _ & Hp & Ht).
      assert (Hconv : converging p sl) by (split; [done|by left]).
      destruct (tick_converging p sl T Hconv) as (_ & Hnoop & _).
      { apply suppressed_by; [done|lia]. }
      apply Hnoop; [done|].
      intros [_ Hlt]%elem_of_timedOutWords.
      pose proof (clock_first_submission _ _ Hclock Htyping) as Hfirst.
      destruct (submissions trace) as [|[p' t'] subs]; [done|].
      simpl in Hfirst, Hchain. destruct Hchain as (_ & [_ Hgap] & _). lia. }
    simpl. rewrite Hnoop.
    destruct (IH sl last) as [IH1 IH2]; try done.
    { destruct last as [[p t]|]; by apply (clock_from_weaken T). }
    split.
    + intros [|k].
      { by apply unstored_stored_ok. }
      change (run sl (take (S k) (Tick T :: trace)))
        with (run (processTimedOutWords sl T) (take k trace)).
      rewrite Hnoop. apply IH1.
    + intros T' [Heq|HT']%elem_of_cons Hlate; [|by apply (IH2 T')].
      injection Heq as ->.
      pose proof (clock_last_time T (match last with Some (_, t) => t | None => 0 end)
                    _ Hclock Htyping). simpl in Hlate. lia.
Qed.

(** C1. From a new logger over an empty database, let strictly growing
    prefixes of [W] (the words being the normalised forms of the non-empty
    strings submitted), ending in [W], be submitted in increasing length,
    each within the timeout of the one before, ticks falling anywhere, the
    clock never going back. At every moment the database is new or holds
    the single record of one write of [W]: no intermediate prefix is ever
    written, and [W] is not written twice. Once a tick later than the last
    submission plus the timeout has run, the stored words are exactly [W],
    in one record counted once. *)
Theorem growing_prefixes_store_only_W tmo W trace :
  0 < tmo →
  clock_from 1 trace = true →
  growing_chain tmo W (submissions trace) →
  (∀ k, stored_ok W (run (fresh_logger tmo) (take k trace))) ∧
  (∀ T, Tick T ∈ trace → last_time 0 (submissions trace) + tmo < T →
        (∃ T', db (run (fresh_logger tmo) trace) = written_once W T') ∧
        GetStoredSearches (run (fresh_logger tmo) trace) = inr [W]).
Proof.
  intros Htmo Hclock Hchain.
  by apply (growing_run tmo W trace Htmo (fresh_logger tmo) None).
Qed.

End IncreasingOrder.

Section Reload.
Context `{GoRuntime}.
#[local] Existing Instance MockGateway.
Implicit Types (sl : SearchLogger MockPostgresDB) (w v p q : word).

Lemma NewSearchLogger_fresh tmo now : NewSearchLogger tmo now = inr (fresh_logger tmo).
Proof.
  unfold NewSearchLogger, NewSearchLoggerWithDB, loadExistingWords. simpl.
  by rewrite range_ids_empty.
Qed.

Lemma elem_of_loaded_words m v : v ∈ loaded_words m ↔ holds m v.
Proof.
  unfold loaded_words. simpl.
  destruct (GetAllSearchedWords_holds m) as (l & Hl & Hmem).
  injection Hl as <-. apply Hmem.
Qed.

Lemma length_loaded_words m : length (loaded_words m) = size (searches m).
Proof.
  unfold loaded_words. simpl.
  by rewrite length_fmap, range_ids_perm, length_map_to_list.
Qed.

(** Over the mock database the start always succeeds. *)
Lemma NewSearchLoggerWithDB_mock tmo m t0 :
  ∃ sl0, NewSearchLoggerWithDB tmo m t0 = inr sl0 ∧
    timeout sl0 = tmo ∧ db sl0 = m ∧
    ∀ p, seen_at (prefixTree sl0) p = (if decide (holds m p) then t0 else 0) ∧
         ended_at (prefixTree sl0) p = bool_decide (holds m p) ∧
         ref_at (prefixTree sl0) p = None.
Proof.
  destruct (NewSearchLoggerWithDB tmo m t0) as [e|sl0] eqn:Hstart.
  { unfold NewSearchLoggerWithDB, loadExistingWords in Hstart. simpl in Hstart. done. }
  exists sl0. split; [done|].
  destruct (NewSearchLoggerWithDB_fields tmo m t0 sl0 [] Hstart) as (Ht & _ & _ & _ & Hdb).
  split; [done|]. split; [done|]. intros p.
  destruct (NewSearchLoggerWithDB_fields tmo m t0 sl0 p Hstart) as (_ & -> & -> & -> & _).
  pose proof (elem_of_loaded_words m p) as Hiff.
  split; [|split; [|done]].
  - repeat case_decide; tauto.
  - apply bool_decide_ext. done.
Qed.

Lemma tick_nothing_timed_out sl T :
  (∀ q, seen_at (prefixTree sl) q ≠ 0 → T - timeout sl ≤ seen_at (prefixTree sl) q) →
  processTimedOutWords sl T = sl.
Proof.
  intros Hall. rewrite processTimedOutWords_fold.
  assert (Hempty : timedOutWords sl T = ∅).
  { apply set_eq. intros q. rewrite elem_of_timedOutWords. split.
    - intros [Hq Hlt]. specialize (Hall q Hq). lia.
    - by intros ?%not_elem_of_empty. }
  rewrite Hempty.
  assert (Hnil : range_words (∅ : gset (list Z)) = []).
  { apply Permutation_nil_r. by rewrite range_words_perm, elements_empty. }
  by rewrite Hnil.
Qed.

Lemma ticks_nothing_timed_out sl early t0 :
  (∀ q, seen_at (prefixTree sl) q ≠ 0 → seen_at (prefixTree sl) q = t0) →
  Forall (λ T, T ≤ t0 + timeout sl) early →
  run sl (Tick <$> early) = sl.
Proof.
  intros Hseen. induction 1 as [|T early HT _ IH]; [done|].
  change (run sl (Tick <$> T :: early))
    with (run (processTimedOutWords sl T) (Tick <$> early)).
  rewrite tick_nothing_timed_out; [done|].
  intros q Hq. rewrite (Hseen q Hq). lia.
Qed.

(** C4, as amended. At start-up the logger loads every stored word: its
    node is marked [isEndOfWord], its [lastSeen] is the time of the start,
    and its [dbID] stays nil. When a proper extension [B] of a reloaded
    word [A] is submitted before any tick later than the start plus the
    timeout has run, no rename takes place (the call returns no error and
    leaves the database as it was); and once [B] has timed out, having no
    stored word below it, the tick stores it, so that both [A] and [B] are
    stored. *)
Theorem reload_then_extend tmo m t0 early A B tB T :
  0 < tB → tB + tmo < T →
  Forall (λ T', T' ≤ t0 + tmo) early →
  holds m A → proper_prefix A B → normalize B = B →
  (∀ v, holds m v → ¬ proper_prefix B v) →
  mock_room (Z.of_nat (size (searches m)) + 1) m →
  ∃ sl0, NewSearchLoggerWithDB tmo m t0 = inr sl0 ∧
    (∀ v, holds m v →
       ended_at (prefixTree sl0) v = true ∧ seen_at (prefixTree sl0) v = t0 ∧
       ref_at (prefixTree sl0) v = None) ∧
    (LogSearch (run sl0 (Tick <$> early)) B tB).2 = None ∧
    db (LogSearch (run sl0 (Tick <$> early)) B tB).1 = m ∧
    ∃ l, GetStoredSearches
           (processTimedOutWords (LogSearch (run sl0 (Tick <$> early)) B tB).1 T)
           = inr l ∧
         A ∈ l ∧ B ∈ l.
Proof.
  intros HtB Hlate Hearly HA HAB Hnorm Hmax Hroom.
  destruct (NewSearchLoggerWithDB_mock tmo m t0) as (sl0 & Hstart & Hto & Hdb & Hf).
  exists sl0. split; [done|]. split.
  { intros v Hv. destruct (Hf v) as (-> & -> & ->).
    rewrite decide_True, bool_decide_eq_true_2 by done. done. }
  rewrite (ticks_nothing_timed_out sl0 early t0);
    [| intros q Hq; destruct (Hf q) as [Hs _]; rewrite Hs in *; by case_decide
     | by rewrite Hto ].
  assert (HB : B ≠ []).
  { destruct HAB as (k & Hk & ->). intros [_ ->]%app_eq_nil. done. }
  rewrite LogSearch_no_stored_prefix; [|done|].
  2:{ intros p (_ & _ & _ & Hr). destruct (Hf p) as (_ & _ & Hnone).
      rewrite Hnone in Hr. by destruct Hr. }
  rewrite Hnorm. cbn [fst snd]. split; [done|]. split; [done|].
  set (sl1 := set_prefixTree (touch B tB (prefixTree sl0)) sl0).
  assert (Hs1 : ∀ q, seen_at (prefixTree sl1) q =
            if decide (q = B) then tB else if decide (holds m q) then t0 else 0).
  { intros q. simpl. rewrite seen_at_touch. case_decide; [done|]. by destruct (Hf q). }
  assert (Hr1 : ∀ q, ref_at (prefixTree sl1) q = None).
  { intros q. simpl. rewrite ref_at_touch. by destruct (Hf q) as (_ & _ & ?). }
  assert (Hst : storable sl1 B = true).
  { apply storable_true. split; [apply walk_touch_self|]. split; [done|].
    apply isPrefixOfAnyWord_false. intros k Hk. rewrite Hs1.
    rewrite decide_False.
    - rewrite decide_False; [done|]. intros Hh. apply (Hmax _ Hh). by exists k.
    - intros Heq. apply (f_equal length) in Heq. rewrite length_app in Heq.
      destruct k; [done|]. simpl in Heq. lia. }
  pose proof (NoDup_range_words (timedOutWords sl1 T)) as Hnd.
  destruct (mock_sweep_fold T _ sl1 Hnd) as (_ & _ & Hfold).
  destruct Hfold as (_ & Hkeep & Hall).
  { change (db sl1) with (db sl0). rewrite Hdb.
    eapply mock_room_le; [done|].
    enough (length (range_words (timedOutWords sl1 T)) ≤ length (B :: loaded_words m))%nat
      as Hle by (simpl in Hle; rewrite length_loaded_words in Hle; lia).
    apply submseteq_length, NoDup_submseteq; [done|].
    intros q [Hq _]%elem_of_range_words%elem_of_timedOutWords.
    rewrite Hs1 in Hq. case_decide; [subst; by left|].
    case_decide; [|done]. right. by apply elem_of_loaded_words. }
  rewrite processTimedOutWords_fold.
  destruct (GetStoredSearches_holds
              (foldl (sweep_word T) sl1 (range_words (timedOutWords sl1 T))))
    as (l & Hl & Hmem).
  exists l. split; [done|]. split.
  - apply Hmem, Hkeep. change (db sl1) with (db sl0). by rewrite Hdb.
  - apply Hmem, Hall; [|done].
    apply elem_of_range_words, elem_of_timedOutWords.
    rewrite Hs1, decide_True by done. change (timeout sl1) with (timeout sl0).
    rewrite Hto. split; lia.
Qed.

End Reload.

(** * More properties of version 1 *)

Section MockTable.
Context `{GoRuntime}.
Implicit Types (m : MockPostgresDB) (w v : word).

Lemma unique_find m w id record :
  unique_words m → searches m !! id = Some record → Word record = w →
  List.find (λ '(_, record), bool_decide (Word record = w)) (range_ids (searches m))
    = Some (id, record).
Proof.
  intros Hun Hid Hw.
  destruct (List.find _ _) as [[id' r']|] eqn:Hfind.
  - apply find_word_Some in Hfind as [Hid' Hw'].
    assert (id' = id) as -> by (eapply Hun; [done..|congruence]).
    congruence.
  - apply find_word_None in Hfind. destruct Hfind. by exists id, record.
Qed.

(** X1. [InsertOrReplace] is an upsert keyed by the word. In a table
    whose words are unique, whatever the order in which [range] visits
    the map: when a record holds the word, that record stays under its
    identifier with its [ID], word and [FirstSearchedAt], takes the new
    [LastUpdatedAt] and one more [SearchCount] (an [int], so with
    wrap-around), [nextID] is left alone and the identifier of the record
    is returned; when no record holds the word, a record counted once is
    filed under [nextID], which is returned and then incremented. *)
Theorem InsertOrReplace_upsert m w t u :
  unique_words m →
  (∀ id record, searches m !! id = Some record → Word record = w →
     InsertOrReplace m w t u =
       (mkMockPostgresDB (<[id := updated record (Word record) u]> (searches m)) (nextID m),
        inr id)) ∧
  (¬ holds m w →
     InsertOrReplace m w t u =
       (mkMockPostgresDB
          (<[nextID m := mkSearchRecord (nextID m) w t u 1]> (searches m))
          (wrap64 (nextID m + 1)),
        inr (nextID m))).
Proof.
  intros Hun. split.
  - intros id record Hid Hw. unfold InsertOrReplace.
    by rewrite (unique_find m w id record).
  - intros Hno. unfold InsertOrReplace.
    destruct (List.find _ _) as [[id' r']|] eqn:Hfind; [|done].
    apply find_word_Some in Hfind as [Hid' Hw']. destruct Hno. by exists id', r'.
Qed.

(** X2. [InsertOrReplace] keeps the table well formed. When the
    identifiers in use are below [nextID] and [n > 0] more can be handed
    out before the counter wraps, then afterwards the same holds with
    [n - 1]; every record is still filed under its own [ID]; and no two
    records hold the same word. *)
Theorem InsertOrReplace_keeps_constraints m w t u n :
  0 < n → mock_room n m → filed_by_ID m → unique_words m →
  mock_room (n - 1) (InsertOrReplace m w t u).1 ∧
  filed_by_ID (InsertOrReplace m w t u).1 ∧
  unique_words (InsertOrReplace m w t u).1.
Proof.
  intros Hn Hroom Hfiled Hun.
  split; [by apply InsertOrReplace_room|].
  unfold InsertOrReplace.
  destruct (List.find _ _) as [[id record]|] eqn:Hfind; simpl.
  - apply find_word_Some in Hfind as [Hid Hw]. split.
    + intros id' r'. simpl. rewrite lookup_insert. case_decide as Heq.
      * intros [= <-]. simpl. subst id'. by apply Hfiled.
      * apply Hfiled.
    + intros id1 r1 id2 r2. simpl. rewrite !lookup_insert.
      repeat case_decide; subst.
      * done.
      * intros [= <-] H2 Hww. simpl in Hww. symmetry. eapply Hun; [done..|congruence].
      * intros H1 [= <-] Hww. simpl in Hww. eapply Hun; [done..|congruence].
      * apply Hun.
  - pose proof (find_word_None _ _ Hfind) as Hno. split.
    + intros id' r'. simpl. rewrite lookup_insert. case_decide as Heq.
      * by intros [= <-].
      * apply Hfiled.
    + intros id1 r1 id2 r2. simpl. rewrite !lookup_insert.
      repeat case_decide; subst.
      * done.
      * intros [= <-] H2 Hww. simpl in Hww. destruct Hno. by exists id2, r2.
      * intros H1 [= <-] Hww. simpl in Hww. destruct Hno. by exists id1, r1.
      * apply Hun.
Qed.


(** [Update] looks at the identifier only. *)
Lemma Update_found m id record w t :
  searches m !! id = Some record →
  Update m id w t =
    (mkMockPostgresDB (<[id := updated record w t]> (searches m)) (nextID m), None).
Proof. intros Hid. unfold Update. by rewrite Hid. Qed.

(** X3. [Update] looks at the identifier only. Renaming the record [id]
    to the word that another record [id'] holds returns [nil], and leaves
    a table in which two records hold that word: the [UNIQUE] constraint
    that [CreateTable] declares on the word column is not enforced by
    [Update]. *)
Theorem Update_ignores_unique_constraint m id record id' record' t :
  searches m !! id = Some record →
  searches m !! id' = Some record' →
  id ≠ id' →
  ∃ m', Update m id (Word record') t = (m', None) ∧
    holds m' (Word record') ∧ ¬ unique_words m'.
Proof.
  intros Hid Hid' Hne. eexists. split; [by apply Update_found|]. split.
  - exists id', record'. simpl. by rewrite lookup_insert_ne.
  - intros Hun. apply Hne.
    apply (Hun id (updated record (Word record') t) id' record'); simpl.
    + by rewrite lookup_insert_eq.
    + by rewrite lookup_insert_ne.
    + done.
Qed.

(** X4. The identifier that [InsertOrReplace] returns names a record
    holding the word, so that [Update] with it never fails: it returns
    [nil], replaces that one record by itself with the new word, the new
    time and one more count, and leaves [nextID]. Afterwards every word
    the table holds was held before, or is the word inserted, or the new
    word. *)
Theorem InsertOrReplace_then_Update m w t u w' t' :
  ∃ m1 id record,
    InsertOrReplace m w t u = (m1, inr id) ∧
    searches m1 !! id = Some record ∧ Word record = w ∧
    Update m1 id w' t' =
      (mkMockPostgresDB (<[id := updated record w' t']> (searches m1)) (nextID m1), None) ∧
    ∀ v, holds (Update m1 id w' t').1 v → holds m v ∨ v = w ∨ v = w'.
Proof.
  destruct (InsertOrReplace_holds m w t u) as (m1 & id & Hio & (record & Hid & Hw) & Hold).
  exists m1, id, record. rewrite (Update_found _ _ _ _ _ Hid).
  repeat (split; [done|]).
  intros v (id' & r' & Hid' & Hv). simpl in Hid'. rewrite lookup_insert in Hid'.
  case_decide.
  - injection Hid' as <-. simpl in Hv. auto.
  - destruct (Hold v) as [?| ->]; [by exists id', r'|auto..].
Qed.

(** X5. [GetAllSearchedWords] and [GetAllRecords] leave the database
    as it is. The words listed are the words of the records listed, up to
    the order of the two visits of the map; the records listed are the
    records of the map; there is one word per record; and when the words
    of the table are unique no word is listed twice. *)
Theorem queries_agree m :
  (GetAllRecords m).1 = m ∧ (GetAllSearchedWords m).1 = m ∧
  ∃ l, (GetAllSearchedWords m).2 = inr l ∧
    l ≡ₚ Word <$> (GetAllRecords m).2 ∧
    (GetAllRecords m).2 ≡ₚ (map_to_list (searches m)).*2 ∧
    length l = size (searches m) ∧
    (unique_words m → NoDup l).
Proof.
  split; [done|]. split; [done|]. eexists. split; [done|]. simpl.
  assert (Hfst : ((λ '(_, record), Word record) <$> range_ids (searches m))
                 = Word <$> ((λ '(_, record), record) <$> range_ids (searches m))).
  { rewrite <-list_fmap_compose. apply list_fmap_ext. by intros ? [? ?] _. }
  assert (Hsnd : ((λ '(_, record), record) <$> range_ids (searches m))
                 = (range_ids (searches m)).*2).
  { apply list_fmap_ext. by intros ? [? ?] _. }
  split; [by rewrite Hfst|]. split; [by rewrite Hsnd, range_ids_perm|].
  split.
  { by rewrite length_fmap, range_ids_perm, length_map_to_list. }
  intros Hun. rewrite range_ids_perm.
  apply NoDup_fmap_2_strong; [|apply NoDup_map_to_list].
  intros [id1 r1] [id2 r2] Hin1%elem_of_map_to_list Hin2%elem_of_map_to_list Heq.
  assert (id1 = id2) as -> by (by eapply Hun). congruence.
Qed.

End MockTable.

Section TraversalSpecs.

(** X6. [findAllTimedOutWords] adds to [result] exactly the words
    [currentWord ++ q] such that [q] leads from [node] to a node whose
    [lastSeen] is set ([IsZero] false) and strictly before [cutoffTime];
    what [result] held before stays in it. *)
Theorem findAllTimedOutWords_collects node currentWord cutoffTime result w :
  w ∈ findAllTimedOutWords node currentWord cutoffTime result ↔
  w ∈ result ∨
  ∃ q m, w = currentWord ++ q ∧ walk node q = Some m ∧
         IsZero (lastSeen m) = false ∧ Before (lastSeen m) cutoffTime = true.
Proof.
  rewrite elem_of_findAllTimedOutWords.
  split; (intros [?|(q & m & ? & ? & Hz & Hb)]; [by left|right; exists q, m]).
  - repeat (split; [done|]). split; [|by apply Before_true].
    apply negb_true_iff. by apply IsZero_false.
  - repeat (split; [done|]). split; [|by apply Before_true].
    apply IsZero_false. by rewrite Hz.
Qed.

End TraversalSpecs.

Section LoggerSpecs.
Context `{GoRuntime} {DB : Type} `{Gateway DB}.
Implicit Types (sl : SearchLogger DB) (w p q : word).

(** X7. [isPrefixOfAnyWord] answers [false] for a word that has no
    node in the trie, and answers [true] exactly when some node strictly
    below the node of the word has its [lastSeen] set: nodes that were
    only created on the way to a longer word do not count by
    themselves. *)
Theorem isPrefixOfAnyWord_spec sl w :
  (walk (prefixTree sl) w = None → isPrefixOfAnyWord sl w = false) ∧
  (isPrefixOfAnyWord sl w = true ↔
   ∃ q m, q ≠ [] ∧ walk (prefixTree sl) (w ++ q) = Some m ∧
          IsZero (lastSeen m) = false).
Proof.
  split.
  - intros Hw. unfold isPrefixOfAnyWord. by rewrite Hw.
  - rewrite isPrefixOfAnyWord_true. split.
    + intros (q & Hq & Hs). unfold seen_at in Hs.
      destruct (walk (prefixTree sl) (w ++ q)) as [m|] eqn:Hm; [|done].
      exists q, m. repeat (split; [done|]).
      apply negb_true_iff. by apply IsZero_false.
    + intros (q & m & Hq & Hm & Hz). exists q. split; [done|].
      unfold seen_at. rewrite Hm. simpl. apply IsZero_false. by rewrite Hz.
Qed.

Lemma step_walk sl e p :
  is_Some (walk (prefixTree (step sl e)) p) ↔
  is_Some (walk (prefixTree sl) p) ∨
  match e with
  | Submit input _ => input ≠ [] ∧ p `prefix_of` normalize input
  | Tick _ => False
  end.
Proof.
  destruct e as [input now|now]; simpl.
  - destruct (decide (input = [])) as [->|Hin]; [simpl; tauto|].
    rewrite LogSearch_unfold by done. simpl.
    destruct (handleWordExtension_loop_frame (normalize input) now (normalize input) []
                (set_prefixTree (touch (normalize input) now (prefixTree sl)) sl))
      as (_ & _ & _ & Hx); [apply walk_touch_self|].
    unfold handleWordExtension. rewrite Hx. simpl. unfold touch.
    rewrite (walk_update_at_is_Some _ _ _ _ _ (writes_set_lastSeen now)).
    rewrite walk_build_is_Some. tauto.
  - rewrite processTimedOutWords_fold.
    destruct (sweep_fold_frame now (range_words (timedOutWords sl now)) sl)
      as (_ & _ & Hx & _).
    rewrite Hx. tauto.
Qed.

(** X8. The trie never shrinks, and it grows by the prefixes of what is
    typed: after any sequence of calls of [LogSearch] and ticks, over any
    gateway (failing calls included), a path has a node exactly when it
    had one before or it is a prefix of the normalised form of some
    non-empty input submitted. *)
Theorem trie_holds_every_prefix_typed sl trace p :
  is_Some (walk (prefixTree (run sl trace)) p) ↔
  is_Some (walk (prefixTree sl) p) ∨
  ∃ input now, Submit input now ∈ trace ∧ input ≠ [] ∧ p `prefix_of` normalize input.
Proof.
  revert sl. induction trace as [|e trace IH]; intros sl.
  { simpl. split; [by left|]. intros [?|(? & ? & ?%elem_of_nil & _)]; done. }
  change (run sl (e :: trace)) with (run (step sl e) trace).
  rewrite IH, step_walk. split.
  - intros [[?|He]|(input & now & Hin & ? & ?)]; [by left| |].
    + destruct e as [input now|now]; [|done]. destruct He.
      right. exists input, now. split; [by left|done].
    + right. exists input, now. split; [by right|done].
  - intros [?|(input & now & [<-|Hin]%elem_of_cons & ? & ?)]; [by left; left| |].
    + left. by right.
    + right. by exists input, now.
Qed.

(** X11. When no proper prefix of the (normalised) word is a stored
    word, that is a non-empty path marked [isEndOfWord] and holding a
    reference, [LogSearch] touches the trie only: it creates the missing
    nodes, sets the [lastSeen] of the word's node, leaves the database of
    any gateway as it was and returns [nil]. *)
Theorem LogSearch_without_stored_prefix sl input now :
  input ≠ [] →
  (∀ p, ¬ stored_prefix (prefixTree sl) (normalize input) p) →
  LogSearch sl input now =
    (mkSearchLogger
       (update_at (set_lastSeen now) (normalize input)
          (build (normalize input) (prefixTree sl)))
       (db sl) (timeout sl),
     None).
Proof. intros Hin Hno. by rewrite LogSearch_no_stored_prefix. Qed.

(** The loop at the only stored prefix that remains, when the gateway
    accepts the rename. *)
Lemma handleWordExtension_loop_renamed w now rest path sl p id d :
  w = path ++ rest →
  is_Some (walk (prefixTree sl) w) →
  stored_prefix (prefixTree sl) w p →
  (length path < length p)%nat →
  (∀ q, stored_prefix (prefixTree sl) w q → (length q ≤ length path)%nat ∨ q = p) →
  ref_at (prefixTree sl) p = Some id →
  gw_Update (db sl) id w now = (d, None) →
  handleWordExtension_loop w now path rest sl =
    (mkSearchLogger
       (update_at (set_dbID None) p (update_at (set_dbID (Some id)) w (prefixTree sl)))
       d (timeout sl),
     None).
Proof.
  revert path. induction rest as [|c rest IH]; intros path Hw Hex Hp Hlen Honly Hid Hgw.
  { exfalso. rewrite app_nil_r in Hw. subst path.
    destruct Hp as (_ & Hpp%proper_prefix_length & _). lia. }
  simpl.
  assert (Hex' : is_Some (walk (prefixTree sl) (path ++ [c]))).
  { apply (walk_prefix_Some _ _ rest). rewrite <-app_assoc. simpl. by rewrite <-Hw. }
  destruct Hex' as [node Hnode]. rewrite Hnode.
  destruct (walk_fields _ _ _ Hnode) as (_ & Href & Hended).
  pose proof Hp as (Hne & Hpp & Hpe & Hpr). rewrite Hw in Hpp.
  destruct (proper_prefix_beyond _ _ _ _ Hpp Hlen) as [->|[_ Hlen']].
  - rewrite Hid in Href. rewrite <-Href. rewrite Hpe in Hended. rewrite <-Hended.
    simpl. pose proof (proper_prefix_length _ _ Hpp) as Hl.
    rewrite !length_app in Hl. simpl in Hl.
    rewrite (proj2 (Z.ltb_lt _ _)) by (subst w; rewrite length_app; simpl; lia).
    unfold updateStoredWord. rewrite Hgw.
    set (tree := update_at (set_dbID None) (path ++ [c])
                   (update_at (set_dbID (Some id)) w (prefixTree sl))).
    apply handleWordExtension_loop_noop; [by rewrite <-app_assoc|].
    intros q (Hqne & Hqpp & Hqe & Hqr). simpl in Hqe, Hqr.
    assert (Hqw : q ≠ w) by (by apply proper_prefix_ne).
    assert (Hexw : is_Some (walk (update_at (set_dbID (Some id)) w (prefixTree sl))
                              (path ++ [c]))).
    { rewrite (walk_update_at_is_Some _ _ _ _ _ (writes_set_dbID (Some id))).
      by rewrite Hnode. }
    unfold tree in Hqe, Hqr.
    rewrite !ended_at_set_dbID in Hqe. rewrite !ref_at_set_dbID in Hqr by done.
    destruct (decide (q = path ++ [c])) as [->|Hqp]; [by destruct Hqr|].
    rewrite decide_False in Hqr by done.
    destruct (Honly q) as [Hl'| ->]; [done|rewrite length_app; simpl; lia|done].
  - assert (Hskip : ¬ stored_prefix (prefixTree sl) w (path ++ [c])).
    { intros Hsp. destruct (Honly _ Hsp) as [Hl|Hl].
      - rewrite length_app in Hl. simpl in Hl. lia.
      - rewrite <-Hl in Hlen'. lia. }
    assert (Hnext : handleWordExtension_loop w now (path ++ [c]) rest sl =
              (mkSearchLogger
                 (update_at (set_dbID None) p
                    (update_at (set_dbID (Some id)) w (prefixTree sl)))
                 d (timeout sl), None)).
    { apply IH; try done; [by rewrite <-app_assoc|].
      intros q Hq. destruct (Honly q Hq); [left; rewrite length_app; simpl; lia|by right]. }
    destruct (dbID node) as [id'|] eqn:Hid'; [|done].
    destruct (isEndOfWord node && _) eqn:Hcond; [|done].
    exfalso. apply Hskip. apply andb_true_iff in Hcond as [Hend Hlt%Z.ltb_lt].
    assert (Hrest : rest ≠ []).
    { intros ->. subst w. rewrite length_app in Hlt. simpl in Hlt. lia. }
    split; [by destruct path|]. split; [subst w; by apply proper_prefix_snoc|].
    rewrite Hended, Href. eauto.
Qed.

(** X12. The extension step, when it goes through. If [p] is the one
    stored word among the proper prefixes of the (normalised) word, with
    reference [id], and the gateway accepts the rename of [id], then
    [LogSearch] returns [nil], the database is the one the rename left,
    and the trie is the one after the timestamp was set with the
    reference written on the node of the word and cleared on the node of
    [p]; nothing else changes. *)
Theorem LogSearch_renames_stored_prefix sl input now p id d :
  input ≠ [] →
  stored_prefix (prefixTree sl) (normalize input) p →
  (∀ q, stored_prefix (prefixTree sl) (normalize input) q → q = p) →
  ref_at (prefixTree sl) p = Some id →
  gw_Update (db sl) id (normalize input) now = (d, None) →
  LogSearch sl input now =
    (mkSearchLogger
       (update_at (set_dbID None) p
          (update_at (set_dbID (Some id)) (normalize input)
             (update_at (set_lastSeen now) (normalize input)
                (build (normalize input) (prefixTree sl)))))
       d (timeout sl),
     None).
Proof.
  intros Hin Hp Honly Hid Hgw. rewrite LogSearch_unfold by done.
  unfold handleWordExtension.
  assert (Hloop : handleWordExtension_loop (normalize input) now [] (normalize input)
            (set_prefixTree (touch (normalize input) now (prefixTree sl)) sl) =
          (mkSearchLogger
             (update_at (set_dbID None) p
                (update_at (set_dbID (Some id)) (normalize input)
                   (touch (normalize input) now (prefixTree sl))))
             d (timeout sl), None)).
  { apply (handleWordExtension_loop_renamed (normalize input) now (normalize input) []
             (set_prefixTree (touch (normalize input) now (prefixTree sl)) sl) p id d).
    - done.
    - simpl. apply walk_touch_self.
    - simpl. by apply stored_prefix_touch.
    - destruct Hp as (Hne & _). destruct p; [by destruct Hne|simpl; lia].
    - intros q Hq. right. apply Honly. simpl in Hq.
      by apply (proj1 (stored_prefix_touch _ _ _ _ _)) in Hq.
    - simpl. by rewrite ref_at_touch.
    - done. }
  by rewrite Hloop.
Qed.

End LoggerSpecs.

Section Frames.
Context `{GoRuntime} {DB : Type} `{Gateway DB}.
Implicit Types (sl : SearchLogger DB) (w p q : word).

Lemma sweep_word_keeps now sl w p :
  (ended_at (prefixTree sl) p = true →
   ended_at (prefixTree (sweep_word now sl w)) p = true) ∧
  (∀ id, ref_at (prefixTree sl) p = Some id →
         ref_at (prefixTree (sweep_word now sl w)) p = Some id).
Proof.
  destruct (storable sl w) eqn:Hst; [|by rewrite sweep_word_not_storable].
  destruct (sweep_word_storable now sl w Hst)
    as (d & r & _ & _ & _ & Hend & _ & _ & _ & Hother).
  destruct (decide (p = w)) as [->|Hne].
  - split; [done|]. intros id Hid.
    apply storable_true in Hst as (_ & Hnone & _). congruence.
  - destruct (Hother p Hne) as [-> ->]. done.
Qed.

(** X10. What a tick leaves alone, over any gateway: the timeout, every
    [lastSeen], and the set of nodes; and what it only ever sets: a node
    marked [isEndOfWord] stays marked, and a node that holds a reference
    keeps that same reference. *)
Theorem sweep_never_unmarks sl now :
  timeout (processTimedOutWords sl now) = timeout sl ∧
  ∀ p,
    seen_at (prefixTree (processTimedOutWords sl now)) p = seen_at (prefixTree sl) p ∧
    (is_Some (walk (prefixTree (processTimedOutWords sl now)) p) ↔
     is_Some (walk (prefixTree sl) p)) ∧
    (ended_at (prefixTree sl) p = true →
     ended_at (prefixTree (processTimedOutWords sl now)) p = true) ∧
    (∀ id, ref_at (prefixTree sl) p = Some id →
           ref_at (prefixTree (processTimedOutWords sl now)) p = Some id).
Proof.
  rewrite processTimedOutWords_fold.
  destruct (sweep_fold_frame now (range_words (timedOutWords sl now)) sl)
    as (Ht & Hs & Hx & _).
  split; [done|]. intros p. split; [done|]. split; [done|].
  generalize (range_words (timedOutWords sl now)). intros l. clear Ht Hs Hx.
  revert sl. induction l as [|w l IH]; intros sl; [done|].
  simpl. destruct (IH (sweep_word now sl w)) as [IHe IHr].
  destruct (sweep_word_keeps now sl w p) as [He Hr]. split.
  - intros ?. by apply IHe, He.
  - intros id ?. by apply IHr, Hr.
Qed.

(** X9. [LogSearch] never writes [isEndOfWord]: over any gateway, every
    path has after the call the mark it had before (none, if it had no
    node). In particular the node that receives a moved reference in
    [handleWordExtension] is not marked by it. *)
Theorem LogSearch_never_marks sl input now p :
  ended_at (prefixTree (LogSearch sl input now).1) p = ended_at (prefixTree sl) p.
Proof.
  destruct (decide (input = [])) as [->|Hin]; [done|].
  rewrite LogSearch_unfold by done. simpl.
  destruct (handleWordExtension_loop_frame (normalize input) now (normalize input) []
              (set_prefixTree (touch (normalize input) now (prefixTree sl)) sl))
    as (_ & _ & He & _); [apply walk_touch_self|].
  unfold handleWordExtension. rewrite He. simpl. apply ended_at_touch.
Qed.

End Frames.

Section MockLogger.
Context `{GoRuntime}.
#[local] Existing Instance MockGateway.
Implicit Types (sl : SearchLogger MockPostgresDB) (w v p q : word).

Lemma Update_dom m id w t : dom (searches (Update m id w t).1) = dom (searches m).
Proof.
  unfold Update. destruct (searches m !! id) as [record|] eqn:Hid; [|done].
  simpl. apply dom_insert_lookup_L. by rewrite Hid.
Qed.

Lemma Update_holds m id w t v : holds (Update m id w t).1 v → holds m v ∨ v = w.
Proof.
  unfold Update. destruct (searches m !! id) as [record|] eqn:Hid; [|by left].
  intros (id' & r' & Hid' & Hv). simpl in Hid'. rewrite lookup_insert in Hid'.
  case_decide; [|left; by exists id', r'].
  injection Hid' as <-. by right.
Qed.

Lemma InsertOrReplace_dom m w t u :
  dom (searches m) ⊆ dom (searches (InsertOrReplace m w t u).1).
Proof.
  unfold InsertOrReplace.
  destruct (List.find _ _) as [[id record]|]; simpl; rewrite dom_insert; set_solver.
Qed.

(** The extension loop against the mock database: records are renamed,
    none appears or disappears. *)
Lemma mock_loop_db w now rest path sl :
  dom (searches (db (handleWordExtension_loop w now path rest sl).1))
    = dom (searches (db sl)) ∧
  ∀ v, holds (db (handleWordExtension_loop w now path rest sl).1) v →
       holds (db sl) v ∨ v = w.
Proof.
  revert path sl. induction rest as [|c rest IH]; intros path sl; simpl; [auto|].
  destruct (walk (prefixTree sl) (path ++ [c])) as [node|] eqn:Hnode; [|auto].
  destruct (dbID node) as [id|]; [|by apply IH].
  destruct (isEndOfWord node && _); [|by apply IH].
  unfold updateStoredWord. simpl.
  pose proof (Update_dom (db sl) id w now) as Hdom.
  pose proof (Update_holds (db sl) id w now) as Hholds.
  destruct (Update (db sl) id w now) as [d [e|]]; simpl in *; [auto|].
  match goal with |- context [handleWordExtension_loop w now ?p rest ?s] =>
    destruct (IH p s) as [Hd Hh] end.
  simpl in *. split; [by rewrite Hd|].
  intros v Hv. destruct (Hh v Hv) as [?|?]; auto.
Qed.

Lemma mock_loop_valid w now rest path sl :
  is_Some (walk (prefixTree sl) w) → refs_valid sl →
  (handleWordExtension_loop w now path rest sl).2 = None ∧
  refs_valid (handleWordExtension_loop w now path rest sl).1.
Proof.
  revert path sl. induction rest as [|c rest IH]; intros path sl Hw Hval; simpl; [done|].
  destruct (walk (prefixTree sl) (path ++ [c])) as [node|] eqn:Hnode; [|done].
  destruct (walk_fields _ _ _ Hnode) as (_ & Href & _).
  destruct (dbID node) as [id|] eqn:Hid; [|by apply IH].
  destruct (isEndOfWord node && _); [|by apply IH].
  unfold updateStoredWord. simpl.
  destruct (Hval _ _ Href) as [record Hrec].
  rewrite (Update_found _ _ _ _ _ Hrec).
  apply IH.
  - simpl. rewrite (walk_update_at_is_Some _ _ _ _ _ (writes_set_dbID None)).
    by rewrite (walk_update_at_is_Some _ _ _ _ _ (writes_set_dbID (Some id))).
  - intros q id'. simpl.
    rewrite ref_at_set_dbID.
    2:{ rewrite (walk_update_at_is_Some _ _ _ _ _ (writes_set_dbID (Some id))).
        by rewrite Hnode. }
    case_decide; [done|]. rewrite ref_at_set_dbID by done.
    rewrite lookup_insert. case_decide.
    + intros [= <-]. case_decide; eauto.
    + intros Hq. case_decide; [eauto|]. by apply (Hval q).
Qed.

Lemma LogSearch_mock_valid sl input now :
  refs_valid sl →
  (LogSearch sl input now).2 = None ∧ refs_valid (LogSearch sl input now).1.
Proof.
  intros Hval. destruct (decide (input = [])) as [->|Hin]; [done|].
  rewrite LogSearch_unfold by done. simpl.
  destruct (mock_loop_valid (normalize input) now (normalize input) []
              (set_prefixTree (touch (normalize input) now (prefixTree sl)) sl))
    as [Hnone Hval'].
  - apply walk_touch_self.
  - intros q id. simpl. rewrite ref_at_touch. apply Hval.
  - unfold handleWordExtension. by rewrite Hnone.
Qed.

Lemma sweep_word_dom now sl w :
  dom (searches (db sl)) ⊆ dom (searches (db (sweep_word now sl w))).
Proof.
  destruct (storable sl w) eqn:Hst.
  - destruct (mock_sweep_word now sl w Hst) as [-> _]. apply InsertOrReplace_dom.
  - by rewrite sweep_word_not_storable.
Qed.

Lemma sweep_word_valid now sl w : refs_valid sl → refs_valid (sweep_word now sl w).
Proof.
  intros Hval. destruct (storable sl w) eqn:Hst; [|by rewrite sweep_word_not_storable].
  destruct (sweep_word_storable now sl w Hst)
    as (d & r & Hgw & Hdb & _ & _ & Href & _ & _ & Hother).
  simpl in Hgw.
  destruct (InsertOrReplace_holds (db sl) w now now) as (m' & id & Hio & (record & Hrec & _) & _).
  rewrite Hio in Hgw. injection Hgw as <- <-.
  intros q id'. destruct (decide (q = w)) as [->|Hq].
  - rewrite Href. intros [= <-]. rewrite Hdb. eauto.
  - destruct (Hother q Hq) as [-> _]. intros Hr%Hval.
    apply elem_of_dom. apply (sweep_word_dom now sl w). by apply elem_of_dom.
Qed.

Lemma step_valid sl e : refs_valid sl → refs_valid (step sl e).
Proof.
  intros Hval. destruct e as [input now|now]; simpl.
  - by apply LogSearch_mock_valid.
  - rewrite processTimedOutWords_fold.
    generalize (range_words (timedOutWords sl now)). intros l.
    revert sl Hval. induction l as [|w l IH]; intros sl Hval; [done|].
    simpl. apply IH. by apply sweep_word_valid.
Qed.

Lemma run_valid sl trace : refs_valid sl → refs_valid (run sl trace).
Proof.
  revert sl. induction trace as [|e trace IH]; intros sl Hval; [done|].
  change (run sl (e :: trace)) with (run (step sl e) trace).
  apply IH. by apply step_valid.
Qed.

(** X13. Over the mock database [LogSearch] never fails. If every
    reference held by a node names a record of the database (as in a
    newly started logger, which holds none), then this remains so after
    any sequence of calls and ticks, and the next [LogSearch] returns
    [nil] whatever its input. *)
Theorem mock_LogSearch_never_fails sl trace input now :
  refs_valid sl →
  refs_valid (run sl trace) ∧ (LogSearch (run sl trace) input now).2 = None.
Proof.
  intros Hval. split; [by apply run_valid|].
  apply LogSearch_mock_valid. by apply run_valid.
Qed.

Lemma step_dom sl e : dom (searches (db sl)) ⊆ dom (searches (db (step sl e))).
Proof.
  destruct e as [input now|now]; simpl.
  - destruct (decide (input = [])) as [->|Hin]; [done|].
    rewrite LogSearch_unfold by done. simpl. unfold handleWordExtension.
    by rewrite (proj1 (mock_loop_db _ _ _ _ _)).
  - rewrite processTimedOutWords_fold.
    generalize (range_words (timedOutWords sl now)). intros l.
    revert sl. induction l as [|w l IH]; intros sl; [done|].
    simpl. etransitivity; [apply (sweep_word_dom now sl w)|apply IH].
Qed.

(** X14. Over the mock database no record is ever deleted: an
    identifier in use stays in use through any sequence of calls of
    [LogSearch] and ticks (the record may be renamed or counted again). *)
Theorem mock_records_never_deleted sl trace id :
  is_Some (searches (db sl) !! id) →
  is_Some (searches (db (run sl trace)) !! id).
Proof.
  revert sl. induction trace as [|e trace IH]; intros sl Hid; [done|].
  change (run sl (e :: trace)) with (run (step sl e) trace).
  apply IH. apply elem_of_dom. apply (step_dom sl e). by apply elem_of_dom.
Qed.

Lemma step_holds sl e v :
  holds (db (step sl e)) v →
  holds (db sl) v ∨ seen_at (prefixTree sl) v ≠ 0 ∨
  ∃ input now, e = Submit input now ∧ input ≠ [] ∧ normalize input = v.
Proof.
  destruct e as [input now|now]; simpl.
  - destruct (decide (input = [])) as [->|Hin]; [by left|].
    rewrite LogSearch_unfold by done. simpl. unfold handleWordExtension.
    intros [?| ->]%mock_loop_db; [by left|].
    right; right. by exists input, now.
  - rewrite processTimedOutWords_fold. intros Hv.
    destruct (mock_sweep_fold now (range_words (timedOutWords sl now)) sl) as (Hnew & _).
    { apply NoDup_range_words. }
    destruct (Hnew v Hv) as [?|[Hin _]]; [by left|].
    right; left. apply elem_of_range_words, elem_of_timedOutWords in Hin. tauto.
Qed.

(** X15. The logger stores only what was typed. Over the mock database,
    a word held after any sequence of calls and ticks was held by the
    database at the start, or had its timestamp set in the trie at the
    start, or is the normalised form of a non-empty input submitted in
    between. *)
Theorem mock_stores_only_words_typed sl trace v :
  holds (db (run sl trace)) v →
  holds (db sl) v ∨ seen_at (prefixTree sl) v ≠ 0 ∨
  ∃ input now, Submit input now ∈ trace ∧ input ≠ [] ∧ normalize input = v.
Proof.
  revert sl. induction trace as [|e trace IH]; intros sl Hv; [by left|].
  change (run sl (e :: trace)) with (run (step sl e) trace) in Hv.
  destruct (IH _ Hv) as [Hh|[Hs|(input & now & Hin & ? & ?)]].
  - destruct (step_holds _ _ _ Hh) as [?|[?|(input & now & -> & ? & ?)]]; [auto..|].
    right; right. exists input, now. split; [by left|done].
  - rewrite step_seen_at in Hs. destruct e as [input now|now]; [|auto].
    case_decide as Hd; [|auto]. destruct Hd as [? ->].
    right; right. exists input, now. split; [by left|done].
  - right; right. exists input, now. split; [by right|done].
Qed.

End MockLogger.

Section MockTicks.
Context `{GoRuntime}.
#[local] Existing Instance MockGateway.
Implicit Types (sl : SearchLogger MockPostgresDB) (w v p q : word).

(** A tick against the mock database, word by word. *)
Lemma mock_tick_effect sl now :
  mock_room (Z.of_nat (size (timedOutWords sl now))) (db sl) →
  (∀ v, holds (db (processTimedOutWords sl now)) v ↔
        holds (db sl) v ∨ stores_at_tick sl now v) ∧
  (∀ v, stores_at_tick sl now v →
        ended_at (prefixTree (processTimedOutWords sl now)) v = true ∧
        is_Some (ref_at (prefixTree (processTimedOutWords sl now)) v)) ∧
  (∀ v, ¬ stores_at_tick sl now v →
        ended_at (prefixTree (processTimedOutWords sl now)) v
          = ended_at (prefixTree sl) v ∧
        ref_at (prefixTree (processTimedOutWords sl now)) v
          = ref_at (prefixTree sl) v).
Proof.
  intros Hroom. rewrite processTimedOutWords_fold.
  destruct (mock_sweep_fold now (range_words (timedOutWords sl now)) sl)
    as (Hnew & Hrefs & Hall); [apply NoDup_range_words|].
  rewrite length_range_words in Hall. destruct (Hall Hroom) as (_ & Hkeep & Hst).
  split; [|split].
  - intros v. split.
    + intros Hv. destruct (Hnew v Hv) as [?|[Hin ?]]; [by left|].
      right. split; [by apply elem_of_range_words|done].
    + intros [?|[Hin ?]]; [by apply Hkeep|].
      apply Hst; [by apply elem_of_range_words|done].
  - intros v [Hin Hs]. split.
    + apply elem_of_range_words, list_elem_of_split in Hin as (a & b & Hl).
      rewrite Hl. apply sweep_fold_at; [|done].
      rewrite <-Hl. apply NoDup_range_words.
    + apply Hrefs; [by apply elem_of_range_words|done].
  - intros v Hv. rewrite <-processTimedOutWords_fold.
    destruct (tick_leaves_unstored_word sl now v Hv) as [? ?]. done.
Qed.

(** X16. One tick against the mock database, as long as identifiers
    remain for the collected words. The database holds afterwards the
    words it held and the words the tick stores: those collected as timed
    out whose node holds no reference and has no searched descendant.
    Each of these ends marked [isEndOfWord] and holding a reference; every
    other path keeps its mark and its reference. *)
Theorem mock_tick_stores_exactly sl now :
  mock_room (Z.of_nat (size (timedOutWords sl now))) (db sl) →
  (∀ v, holds (db (processTimedOutWords sl now)) v ↔
        holds (db sl) v ∨ stores_at_tick sl now v) ∧
  (∀ v, stores_at_tick sl now v →
        ended_at (prefixTree (processTimedOutWords sl now)) v = true ∧
        is_Some (ref_at (prefixTree (processTimedOutWords sl now)) v)) ∧
  (∀ v, ¬ stores_at_tick sl now v →
        ended_at (prefixTree (processTimedOutWords sl now)) v
          = ended_at (prefixTree sl) v ∧
        ref_at (prefixTree (processTimedOutWords sl now)) v
          = ref_at (prefixTree sl) v).
Proof. apply mock_tick_effect. Qed.

(** X18. Against the mock database a tick is idempotent: a second tick
    at the same instant (or with an earlier clock reading) right after the
    first changes nothing, neither in the trie nor in the database. A
    stored word is not counted again by the sweeper. *)
Theorem mock_tick_twice sl now now' :
  now' ≤ now →
  processTimedOutWords (processTimedOutWords sl now) now' = processTimedOutWords sl now.
Proof.
  intros Hle. rewrite (processTimedOutWords_fold (processTimedOutWords sl now) now').
  apply sweep_fold_unstorable. intros v Hv.
  apply elem_of_range_words, elem_of_timedOutWords in Hv as [Hz Hlt].
  destruct (processTimedOutWords_frame sl now) as [Htmo Hseen].
  rewrite Htmo, Hseen in Hlt. rewrite Hseen in Hz.
  assert (Hin : v ∈ range_words (timedOutWords sl now)).
  { apply elem_of_range_words, elem_of_timedOutWords. split; [done|lia]. }
  rewrite processTimedOutWords_fold.
  destruct (mock_sweep_fold now (range_words (timedOutWords sl now)) sl)
    as (_ & Hrefs & _); [apply NoDup_range_words|].
  destruct (sweep_fold_frame now (range_words (timedOutWords sl now)) sl)
    as (_ & Hs & Hx & _).
  destruct (storable sl v) eqn:Hst.
  - specialize (Hrefs v Hin Hst). apply not_true_is_false.
    intros (_ & Hnone & _)%storable_true. rewrite Hnone in Hrefs. by destruct Hrefs.
  - rewrite <-Hst. apply storable_frame; [done..|].
    by apply sweep_fold_skips.
Qed.

End MockTicks.

Section Order.
Implicit Types (sl : SearchLogger MockPostgresDB) (w v p q : word).

(** X17. The result of a tick does not depend on the order in which
    [range] visits the collected words and the records, as far as words
    go: under two runtimes, the databases hold the same words afterwards,
    and the same nodes are marked and hold a reference (the identifiers
    handed out may differ). *)
Theorem mock_tick_order_independent (H1 H2 : GoRuntime) sl now :
  mock_room (Z.of_nat (size (timedOutWords sl now))) (db sl) →
  ∀ v,
    (holds (db (processTimedOutWords (H := H1) (H0 := MockGateway (H := H1)) sl now)) v ↔
     holds (db (processTimedOutWords (H := H2) (H0 := MockGateway (H := H2)) sl now)) v) ∧
    ended_at (prefixTree
        (processTimedOutWords (H := H1) (H0 := MockGateway (H := H1)) sl now)) v =
    ended_at (prefixTree
        (processTimedOutWords (H := H2) (H0 := MockGateway (H := H2)) sl now)) v ∧
    (is_Some (ref_at (prefixTree
        (processTimedOutWords (H := H1) (H0 := MockGateway (H := H1)) sl now)) v) ↔
     is_Some (ref_at (prefixTree
        (processTimedOutWords (H := H2) (H0 := MockGateway (H := H2)) sl now)) v)).
Proof.
  intros Hroom v.
  destruct (mock_tick_effect (H := H1) sl now Hroom) as (Hh1 & Hs1 & Hn1).
  destruct (mock_tick_effect (H := H2) sl now Hroom) as (Hh2 & Hs2 & Hn2).
  split; [by rewrite Hh1, Hh2|].
  assert (Hdec : stores_at_tick sl now v ∨ ¬ stores_at_tick sl now v).
  { unfold stores_at_tick. destruct (decide (v ∈ timedOutWords sl now)); [|tauto].
    destruct (storable sl v); [tauto|]. right. by intros [_ ?]. }
  destruct Hdec as [Hst|Hst].
  - destruct (Hs1 v Hst) as [-> ?], (Hs2 v Hst) as [-> ?]. tauto.
  - destruct (Hn1 v Hst) as [-> ->], (Hn2 v Hst) as [-> ->]. tauto.
Qed.

End Order.

Section Load.
Context `{GoRuntime} {DB : Type} `{Gateway DB}.
Implicit Types (sl : SearchLogger DB) (w v p q : word).

Lemma walk_buildTrieFromWord sl w now p :
  is_Some (walk (prefixTree (buildTrieFromWord sl w now)) p) ↔
  p `prefix_of` w ∨ is_Some (walk (prefixTree sl) p).
Proof.
  unfold buildTrieFromWord. simpl.
  rewrite (walk_update_at_is_Some _ _ _ _ _ (writes_set_lastSeen now)).
  rewrite (walk_update_at_is_Some _ _ _ _ _ (writes_set_isEndOfWord true)).
  apply walk_build_is_Some.
Qed.

Lemma walk_load_fold sl words now p :
  is_Some (walk (prefixTree (foldl (λ sl w, buildTrieFromWord sl w now) sl words)) p) ↔
  (∃ v, v ∈ words ∧ p `prefix_of` v) ∨ is_Some (walk (prefixTree sl) p).
Proof.
  revert sl. induction words as [|w words IH]; intros sl; simpl.
  { split; [by right|]. intros [(? & ?%elem_of_nil & _)|?]; done. }
  rewrite IH, walk_buildTrieFromWord. split.
  - intros [(v & ? & ?)|[?|?]]; [left; exists v; split; [by right|done]| |by right].
    left. exists w. split; [by left|done].
  - intros [(v & [->|?]%elem_of_cons & ?)|?]; [right; by left| |right; by right].
    left. by exists v.
Qed.

End Load.

Section StartUp.
Context `{GoRuntime}.
#[local] Existing Instance MockGateway.
Implicit Types (sl : SearchLogger MockPostgresDB) (w v p q : word).

(** X19. [NewSearchLoggerWithDB] over the mock database always succeeds
    and leaves the database as it is. The trie it builds has a node
    exactly for the root and the prefixes of the stored words; exactly
    the stored words are marked [isEndOfWord] and carry the time of the
    start as [lastSeen]; no node holds a reference. *)
Theorem start_up_loads_the_stored_words tmo m t0 :
  ∃ sl0, NewSearchLoggerWithDB tmo m t0 = inr sl0 ∧
    db sl0 = m ∧ timeout sl0 = tmo ∧
    (∀ p, is_Some (walk (prefixTree sl0) p) ↔ p = [] ∨ ∃ v, holds m v ∧ p `prefix_of` v) ∧
    (∀ p, ended_at (prefixTree sl0) p = bool_decide (holds m p)) ∧
    (∀ p, seen_at (prefixTree sl0) p = if decide (holds m p) then t0 else 0) ∧
    (∀ p, ref_at (prefixTree sl0) p = None).
Proof.
  destruct (NewSearchLoggerWithDB_mock tmo m t0) as (sl0 & Hnew & Htmo & Hdb & Hf).
  exists sl0. repeat (split; [done|]).
  split; [|repeat split; intros p; by destruct (Hf p) as (? & ? & ?)].
  intros p. unfold NewSearchLoggerWithDB, loadExistingWords in Hnew. simpl in Hnew.
  injection Hnew as <-. rewrite walk_load_fold. simpl. split.
  - intros [(v & Hv & ?)|Hroot].
    + right. exists v. split; [|done].
      apply list_elem_of_fmap in Hv as ([id record] & -> & Hin%elem_of_range_ids).
      by exists id, record.
    + left. destruct p; [done|]. rewrite walk_newTrieNode in Hroot by done.
      by destruct Hroot.
  - intros [->|(v & (id & record & Hid & <-) & ?)]; [by right|].
    left. exists (Word record). split; [|done].
    apply list_elem_of_fmap. exists (id, record). by rewrite elem_of_range_ids.
Qed.

End StartUp.

Section Repeated.
Context `{GoRuntime}.
#[local] Existing Instance MockGateway.
Implicit Types (sl : SearchLogger MockPostgresDB) (w v p q W : word).

(** After [W] has been typed, while only [W] and prefixes of it are
    submitted, in any order: nothing but [W] is ever stored, and once it
    is stored no later call touches the database. *)
Lemma settled_run_any W trace sl :
  converging W sl → seen_at (prefixTree sl) W ≠ 0 →
  (∀ input now, Submit input now ∈ trace →
     input ≠ [] ∧ normalize input `prefix_of` W) →
  Forall (λ e, at_time e ≠ 0) trace →
  converging W (run sl trace) ∧ seen_at (prefixTree (run sl trace)) W ≠ 0 ∧
  (stored_once W sl → db (run sl trace) = db sl).
Proof.
  revert sl. induction trace as [|e trace IH]; intros sl Hconv HW Hsubs Hnz; [done|].
  apply Forall_cons in Hnz as [Hnow Hnz].
  change (run sl (e :: trace)) with (run (step sl e) trace).
  assert (Hsubs' : ∀ input now, Submit input now ∈ trace →
            input ≠ [] ∧ normalize input `prefix_of` W).
  { intros i t ?. apply (Hsubs i t). by right. }
  destruct e as [input now|T]; simpl in Hnow.
  - destruct (Hsubs input now) as [Hin Hpp]; [by left|].
    destruct (submit_converging W sl input now Hconv Hin Hpp Hnow) as [Hrun Hconv'].
    assert (Hstep : step sl (Submit input now)
              = set_prefixTree (touch (normalize input) now (prefixTree sl)) sl).
    { simpl. by rewrite Hrun. }
    rewrite Hstep.
    destruct (IH _ Hconv') as (IH1 & IH2 & IH3); try done.
    { simpl. rewrite seen_at_touch. by case_decide. }
    split; [done|]. split; [done|].
    intros Hso. rewrite IH3; [done|]. by apply stored_once_touch.
  - destruct (tick_converging W sl T Hconv (suppressed_by W sl T Hconv HW))
      as (Hconv' & _ & Hkeep & _).
    destruct (processTimedOutWords_frame sl T) as [_ Hs].
    destruct (IH (processTimedOutWords sl T) Hconv') as (IH1 & IH2 & IH3); try done.
    { by rewrite Hs. }
    simpl. split; [done|]. split; [done|].
    intros Hso. rewrite Hkeep in IH3 |- * by done. by apply IH3.
Qed.

(** X20. Searching a word again is not counted. From a new logger, let
    a word be submitted, and after it only inputs whose normalised forms
    are that word or prefixes of it, in any order and at any distance,
    ticks falling anywhere. At every moment the database is new or holds
    the single record of one write of the word, with [SearchCount] 1; and
    once that record is written (at [T]) it is never touched again. *)
Theorem repeated_searches_are_counted_once tmo input0 t0 rest :
  input0 ≠ [] → 0 < t0 → clock_from t0 rest = true →
  (∀ input now, Submit input now ∈ rest →
     input ≠ [] ∧ normalize input `prefix_of` normalize input0) →
  (∀ k, stored_ok (normalize input0)
          (run (fresh_logger tmo) (Submit input0 t0 :: take k rest))) ∧
  (∀ k T, db (run (fresh_logger tmo) (Submit input0 t0 :: take k rest))
            = written_once (normalize input0) T →
          db (run (fresh_logger tmo) (Submit input0 t0 :: rest))
            = written_once (normalize input0) T).
Proof.
  intros Hin Ht0 Hclock Hrest.
  set (W := normalize input0).
  destruct (submit_converging W (fresh_logger tmo) input0 t0 (converging_fresh W tmo))
    as [Hrun Hconv]; [done|done|lia|].
  fold W in Hrun, Hconv.
  set (sl1 := set_prefixTree (touch W t0 newTrieNode) (fresh_logger tmo)) in *.
  assert (Hstep : ∀ tr, run (fresh_logger tmo) (Submit input0 t0 :: tr) = run sl1 tr).
  { intros tr. change (run (fresh_logger tmo) (Submit input0 t0 :: tr))
      with (run (step (fresh_logger tmo) (Submit input0 t0)) tr).
    simpl. by rewrite Hrun. }
  assert (Hseen : seen_at (prefixTree sl1) W ≠ 0).
  { simpl. rewrite seen_at_touch, decide_True by done. lia. }
  pose proof (at_time_nonzero t0 rest Ht0 Hclock) as Hnz.
  assert (Hat : ∀ k, converging W (run sl1 (take k rest)) ∧
                     seen_at (prefixTree (run sl1 (take k rest))) W ≠ 0).
  { intros k.
    destruct (settled_run_any W (take k rest) sl1 Hconv Hseen) as (? & ? & _); [| |done].
    - intros i t Hi. apply (Hrest i t). by apply (subseteq_take k rest).
    - by apply Forall_take. }
  split.
  - intros k. rewrite Hstep. apply converging_stored_ok, Hat.
  - intros k T. rewrite !Hstep. intros Hk.
    destruct (Hat k) as [Hck Hsk].
    assert (Hso : stored_once W (run sl1 (take k rest))).
    { destruct Hck as [_ [[Hnew _]|[? _]]]; [|done]. by rewrite Hnew in Hk. }
    rewrite <-(take_drop k rest) at 1. rewrite run_app.
    destruct (settled_run_any W (drop k rest) _ Hck Hsk) as (_ & _ & Hkeep).
    + intros i t Hi. apply (Hrest i t). by apply (subseteq_drop k rest).
    + by apply Forall_drop.
    + by rewrite Hkeep.
Qed.

End Repeated.

Section Consistency.
Context `{GoRuntime}.
#[local] Existing Instance MockGateway.
Implicit Types (sl : SearchLogger MockPostgresDB) (m : MockPostgresDB) (w v p q : word).

Lemma mock_loop_consistent w now rest path sl :
  w = path ++ rest →
  is_Some (walk (prefixTree sl) w) → consistent sl →
  consistent (handleWordExtension_loop w now path rest sl).1.
Proof.
  revert path sl. induction rest as [|c rest IH]; intros path sl Hw Hex Hcons; simpl; [done|].
  destruct (walk (prefixTree sl) (path ++ [c])) as [node|] eqn:Hnode; [|done].
  assert (Hw' : w = (path ++ [c]) ++ rest) by (by rewrite <-app_assoc).
  destruct (walk_fields _ _ _ Hnode) as (_ & Href & _).
  destruct (dbID node) as [id|] eqn:Hid; [|by apply IH].
  destruct (isEndOfWord node && _) eqn:Hcond; [|by apply IH].
  apply andb_true_iff in Hcond as [_ Hlt%Z.ltb_lt].
  assert (Hne : path ++ [c] ≠ w).
  { intros Heq. rewrite <-Heq, length_app in Hlt. simpl in Hlt. lia. }
  destruct Hcons as [Hfaith Hinj].
  destruct (Hfaith _ _ Href) as (record & Hrec & Hword).
  unfold updateStoredWord. simpl. rewrite (Update_found _ _ _ _ _ Hrec).
  assert (Hexw : is_Some (walk (update_at (set_dbID (Some id)) w (prefixTree sl))
                            (path ++ [c]))).
  { rewrite (walk_update_at_is_Some _ _ _ _ _ (writes_set_dbID (Some id))).
    by rewrite Hnode. }
  apply IH; [done| |].
  { simpl. rewrite (walk_update_at_is_Some _ _ _ _ _ (writes_set_dbID None)).
    by rewrite (walk_update_at_is_Some _ _ _ _ _ (writes_set_dbID (Some id))). }
  assert (Hnew : ∀ q id', ref_at (prefixTree (set_prefixTree
              (update_at (set_dbID None) (path ++ [c])
                 (update_at (set_dbID (Some id)) w (prefixTree sl)))
              (set_db (mkMockPostgresDB (<[id := updated record w now]> (searches (db sl)))
                         (nextID (db sl))) sl))) q = Some id' →
            (q = w ∧ id' = id) ∨
            (q ≠ w ∧ q ≠ path ++ [c] ∧ id' ≠ id ∧ ref_at (prefixTree sl) q = Some id')).
  { intros q id'. simpl. rewrite ref_at_set_dbID by done.
    case_decide; [done|]. rewrite ref_at_set_dbID by done.
    case_decide; [intros [= <-]; by left|].
    intros Hq. right. repeat (split; [done|]). split; [|done].
    intros ->. by specialize (Hinj _ _ _ Hq Href). }
  split.
  - intros q id' [[-> ->]|(? & ? & ? & Hq)]%Hnew; simpl.
    + rewrite lookup_insert_eq. by eexists.
    + rewrite lookup_insert_ne by done. by apply Hfaith.
  - intros q1 q2 id' [[-> ->]|(? & ? & ? & Hq1)]%Hnew [[-> ?]|(? & ? & ? & Hq2)]%Hnew;
      try done. by eapply Hinj.
Qed.

Lemma LogSearch_consistent sl input now :
  consistent sl → consistent (LogSearch sl input now).1.
Proof.
  intros Hcons. destruct (decide (input = [])) as [->|Hin]; [done|].
  rewrite LogSearch_unfold by done. simpl. unfold handleWordExtension.
  apply mock_loop_consistent; [done|apply walk_touch_self|].
  destruct Hcons as [Hfaith Hinj]. split; simpl.
  - intros p id. rewrite ref_at_touch. apply Hfaith.
  - intros p q id. rewrite !ref_at_touch. apply Hinj.
Qed.

(** The upsert, record by record. *)
Lemma InsertOrReplace_lookup m w t u n :
  mock_room n m → 0 < n →
  ∃ m' id record, InsertOrReplace m w t u = (m', inr id) ∧
    searches m' !! id = Some record ∧ Word record = w ∧
    (∀ id', id' ≠ id → searches m' !! id' = searches m !! id') ∧
    (∀ r, searches m !! id = Some r → Word r = w).
Proof.
  intros (Hids & _) Hn. unfold InsertOrReplace.
  destruct (List.find _ _) as [[id record]|] eqn:Hfind.
  - apply find_word_Some in Hfind as [Hid Hw].
    eexists _, id, _. split; [done|]. simpl. rewrite lookup_insert_eq.
    split; [done|]. split; [done|]. split.
    + intros id' ?. by rewrite lookup_insert_ne.
    + intros r. rewrite Hid. by intros [= <-].
  - eexists _, (nextID m), _. split; [done|]. simpl. rewrite lookup_insert_eq.
    split; [done|]. split; [done|]. split.
    + intros id' ?. by rewrite lookup_insert_ne.
    + intros r Hr. specialize (Hids (nextID m) (mk_is_Some _ _ Hr)). lia.
Qed.

Lemma sweep_word_consistent now sl w n :
  mock_room n (db sl) → 0 < n → consistent sl →
  consistent (sweep_word now sl w) ∧ mock_room (n - 1) (db (sweep_word now sl w)).
Proof.
  intros Hroom Hn [Hfaith Hinj].
  destruct (storable sl w) eqn:Hst.
  2:{ rewrite sweep_word_not_storable by done. split; [done|].
      eapply mock_room_le; [done|lia]. }
  destruct (sweep_word_storable now sl w Hst)
    as (d & r & Hgw & Hdb & _ & _ & Href & _ & _ & Hother).
  simpl in Hgw.
  destruct (InsertOrReplace_lookup (db sl) w now now n Hroom Hn)
    as (m' & id & record & Hio & Hrec & Hword & Hsame & Hold).
  rewrite Hio in Hgw. injection Hgw as <- <-.
  apply storable_true in Hst as (_ & Hnone & _).
  assert (Hnot : ∀ q, q ≠ w → ref_at (prefixTree sl) q ≠ Some id).
  { intros q Hq Hr. destruct (Hfaith _ _ Hr) as (r' & Hr' & Hw').
    apply Hold in Hr'. congruence. }
  split.
  - split.
    + intros q id'. destruct (decide (q = w)) as [->|Hq].
      * rewrite Href. intros [= <-]. rewrite Hdb. by eexists.
      * destruct (Hother q Hq) as [-> _]. intros Hr.
        rewrite Hdb, Hsame; [by apply Hfaith|]. intros ->. by apply (Hnot q).
    + intros q1 q2 id'.
      destruct (decide (q1 = w)) as [->|Hq1], (decide (q2 = w)) as [->|Hq2]; [done|..].
      * rewrite Href. destruct (Hother q2 Hq2) as [-> _]. intros [= <-] Hr.
        by apply Hnot in Hr.
      * rewrite Href. destruct (Hother q1 Hq1) as [-> _]. intros Hr [= <-].
        by apply Hnot in Hr.
      * destruct (Hother q1 Hq1) as [-> _], (Hother q2 Hq2) as [-> _]. apply Hinj.
  - rewrite Hdb. replace m' with (InsertOrReplace (db sl) w now now).1 by (by rewrite Hio).
    by apply InsertOrReplace_room.
Qed.

Lemma sweep_fold_consistent now l sl n :
  mock_room (n + Z.of_nat (length l)) (db sl) → 0 ≤ n → consistent sl →
  consistent (foldl (sweep_word now) sl l) ∧ mock_room n (db (foldl (sweep_word now) sl l)).
Proof.
  revert sl. induction l as [|w l IH]; intros sl Hroom Hn Hcons.
  { simpl in *. by rewrite Z.add_0_r in Hroom. }
  simpl. simpl length in Hroom.
  destruct (sweep_word_consistent now sl w (n + Z.of_nat (length l) + 1))
    as [Hcons' Hroom']; [|lia|done|].
  { by replace (n + Z.of_nat (length l) + 1) with (n + Z.of_nat (S (length l))) by lia. }
  apply IH; [|done..].
  by replace (n + Z.of_nat (length l) + 1 - 1) with (n + Z.of_nat (length l)) in Hroom' by lia.
Qed.

(** X30. The trie and the mock database stay in step. If every
    reference held by a node names a record that holds the word of that
    node, and no two nodes hold the same reference, then this is still so
    after a call of [LogSearch], whatever it renames, and after a tick
    for which identifiers remain. *)
Theorem references_stay_consistent sl :
  consistent sl →
  (∀ input now, consistent (LogSearch sl input now).1) ∧
  (∀ now, mock_room (Z.of_nat (size (timedOutWords sl now))) (db sl) →
          consistent (processTimedOutWords sl now)).
Proof.
  intros Hcons. split.
  - intros input now. by apply LogSearch_consistent.
  - intros now Hroom. rewrite processTimedOutWords_fold.
    apply (sweep_fold_consistent now _ sl 0); [|done..].
    by rewrite Z.add_0_l, length_range_words.
Qed.

End Consistency.

(** * Properties of version 2 *)

Section V2Strings.
Import V2.

Lemma utf8_len_pos c : 0 < utf8_len c.
Proof. unfold utf8_len. repeat case_match; lia. Qed.

Lemma len_app s k : len (s ++ k) = len s + len k.
Proof. induction s as [|c s IH]; simpl; [done|]. unfold len in *. simpl. lia. Qed.

Lemma len_nonneg s : 0 ≤ len s.
Proof.
  induction s as [|c s IH]; [done|]. unfold len in *. simpl.
  pose proof (utf8_len_pos c). lia.
Qed.

Lemma len_pos s : s ≠ [] → 0 < len s.
Proof.
  destruct s as [|c s]; [done|]. intros _. unfold len. simpl.
  pose proof (utf8_len_pos c). pose proof (len_nonneg s). unfold len in *. lia.
Qed.

(** The test of the two loops of [storeOrExtendUserSearch]: shorter in
    bytes and a prefix, that is a proper prefix. *)
Lemma shorter_prefix_true p w :
  (len p <? len w) && HasPrefix w p = true ↔ proper_prefix p w.
Proof.
  unfold HasPrefix. rewrite andb_true_iff, Z.ltb_lt, bool_decide_eq_true. split.
  - intros [Hlen [k ->]]. exists k. split; [|done].
    intros ->. rewrite app_nil_r in Hlen. lia.
  - intros (k & Hk & ->). split; [|by exists k].
    rewrite len_app. pose proof (len_pos k Hk). lia.
Qed.

Lemma shorter_prefix_false p w :
  (len p <? len w) && HasPrefix w p = false ↔ ¬ proper_prefix p w.
Proof. rewrite <-shorter_prefix_true. by destruct (_ && _). Qed.

End V2Strings.

Section V2Table.
Import V2.
Context `{RangeKeys}.
Implicit Types (m : MockPostgresDBV2) (u : string) (w v : word).

Lemma elem_of_range_keys {V} (g : gmap string V) key x :
  (key, x) ∈ range_keys g ↔ g !! key = Some x.
Proof. by rewrite range_keys_perm, elem_of_map_to_list. Qed.


Lemma find_user_word_Some m u w key record :
  find_user_word m u w = Some (key, record) →
  userSearches m !! key = Some record ∧ UserIdentifier record = u ∧ SearchWord record = w.
Proof.
  intros [Hin Hp]%find_some. apply list_elem_of_In, elem_of_range_keys in Hin.
  apply andb_true_iff in Hp as [?%bool_decide_eq_true ?%bool_decide_eq_true]. done.
Qed.

Lemma find_user_word_None m u w : find_user_word m u w = None → ¬ has m u w.
Proof.
  intros Hnone (key & record & Hk & Hu & Hw).
  assert (Hin : In (key, record) (range_keys (userSearches m)))
    by (by apply list_elem_of_In, elem_of_range_keys).
  apply (find_none _ _ Hnone) in Hin. simpl in Hin.
  apply andb_false_iff in Hin as [?%bool_decide_eq_false|?%bool_decide_eq_false]; done.
Qed.

Lemma unique_find_user_word m u w key record :
  unique m → userSearches m !! key = Some record →
  UserIdentifier record = u → SearchWord record = w →
  find_user_word m u w = Some (key, record).
Proof.
  intros Hun Hk Hu Hw.
  destruct (find_user_word m u w) as [[k' r']|] eqn:Hfind.
  - apply find_user_word_Some in Hfind as (Hk' & Hu' & Hw').
    assert (k' = key) as -> by (eapply Hun; [done..|congruence|congruence]).
    congruence.
  - apply find_user_word_None in Hfind. destruct Hfind. by exists key, record.
Qed.

Lemma has_dec m u w : has m u w ∨ ¬ has m u w.
Proof.
  destruct (find_user_word m u w) as [[k r]|] eqn:Hfind.
  - left. apply find_user_word_Some in Hfind as (? & ? & ?). by exists k, r.
  - right. by apply find_user_word_None.
Qed.

Lemma InsertOrUpdateUserSearch_effect m u w t t' n :
  0 < n → room n m → filed m → unique m →
  room (n - 1) (InsertOrUpdateUserSearch m u w t t').1 ∧
  filed (InsertOrUpdateUserSearch m u w t t').1 ∧
  unique (InsertOrUpdateUserSearch m u w t t').1 ∧
  (∀ u' v, has (InsertOrUpdateUserSearch m u w t t').1 u' v ↔
           has m u' v ∨ (u' = u ∧ v = w)).
Proof.
  intros Hn (Hids & Hlo & Hhi) Hfiled Hun. unfold InsertOrUpdateUserSearch.
  destruct (find_user_word m u w) as [[key record]|] eqn:Hfind; simpl.
  - apply find_user_word_Some in Hfind as (Hk & Hu & Hw).
    rewrite <-(Hfiled _ _ Hk).
    split; [|split; [|split]].
    + split; [|simpl; lia]. intros k r. simpl. rewrite lookup_insert. case_decide.
      * intros [= <-]. simpl. eauto.
      * eauto.
    + intros k r. simpl. rewrite lookup_insert. case_decide.
      * intros [= <-]. simpl. subst k. eauto.
      * eauto.
    + intros k1 r1 k2 r2. simpl. rewrite !lookup_insert.
      repeat case_decide; subst.
      * done.
      * intros [= <-] ? ? ?. simpl in *. symmetry. eapply Hun; [done..|congruence|congruence].
      * intros ? [= <-] ? ?. simpl in *. eapply Hun; done.
      * apply Hun.
    + intros u' v. split.
      * intros (k & r & Hk' & Hu' & Hv'). simpl in Hk'. rewrite lookup_insert in Hk'.
        case_decide; [|left; by exists k, r].
        injection Hk' as <-. simpl in *. right. by subst.
      * intros [(k & r & Hk' & Hu' & Hv')|[-> ->]].
        -- destruct (decide (key = k)) as [->|Hne].
           ++ eexists k, _. simpl. rewrite lookup_insert_eq. split; [done|].
              simpl. split; congruence.
           ++ exists k, r. simpl. by rewrite lookup_insert_ne.
        -- eexists key, _. simpl. rewrite lookup_insert_eq. done.
  - pose proof (find_user_word_None _ _ _ Hfind) as Hno.
    assert (Hfresh : userSearches m !! Sprintf_d (nextID m) = None).
    { destruct (userSearches m !! Sprintf_d (nextID m)) as [r|] eqn:Hr; [|done].
      pose proof (Hids _ _ Hr) as Hlt. apply Hfiled in Hr.
      apply (inj _) in Hr. lia. }
    rewrite wrap64_small by lia.
    split; [|split; [|split]].
    + split; [|simpl; lia]. intros k r. simpl. rewrite lookup_insert. case_decide.
      * intros [= <-]. simpl. lia.
      * intros Hr%Hids. lia.
    + intros k r. simpl. rewrite lookup_insert. case_decide.
      * by intros [= <-].
      * eauto.
    + intros k1 r1 k2 r2. simpl. rewrite !lookup_insert.
      repeat case_decide; subst.
      * done.
      * intros [= <-] ? ? ?. simpl in *. destruct Hno. by exists k2, r2.
      * intros ? [= <-] ? ?. simpl in *. destruct Hno. by exists k1, r1.
      * apply Hun.
    + intros u' v. split.
      * intros (k & r & Hk' & Hu' & Hv'). simpl in Hk'. rewrite lookup_insert in Hk'.
        case_decide; [|left; by exists k, r].
        injection Hk' as <-. simpl in *. right. by subst.
      * intros [(k & r & Hk' & Hu' & Hv')|[-> ->]].
        -- exists k, r. simpl. rewrite lookup_insert_ne; [done|]. congruence.
        -- eexists _, _. simpl. rewrite lookup_insert_eq. done.
Qed.


(** X22. What [UpdateUserSearchByWord] does in a table whose pairs of
    user and word are unique, whatever the order of the visits. Without a
    record of the user for [oldWord] it fails and changes nothing. With
    one, and no record of the user for [newWord], that record is renamed
    in place and counted once more. With a record for [newWord] as well,
    the old record is removed and the other one takes the sum of the two
    counts and the earlier of the two [FirstSearchedAt]. *)
Theorem UpdateUserSearchByWord_spec m u oldWord newWord t :
  unique m →
  (¬ has m u oldWord →
     UpdateUserSearchByWord m u oldWord newWord t =
       (m, Some (record_not_found u oldWord))) ∧
  (∀ k1 r1,
     userSearches m !! k1 = Some r1 →
     UserIdentifier r1 = u → SearchWord r1 = oldWord →
     (¬ has m u newWord →
        UpdateUserSearchByWord m u oldWord newWord t =
          (mkMockPostgresDBV2
             (<[k1 := mkUserSearchRecord (ID r1) u newWord (FirstSearchedAt r1) t
                        (wrap64 (SearchCount r1 + 1))]>
                (delete k1 (userSearches m)))
             (nextID m),
           None)) ∧
     (∀ k2 r2,
        userSearches m !! k2 = Some r2 →
        UserIdentifier r2 = u → SearchWord r2 = newWord →
        UpdateUserSearchByWord m u oldWord newWord t =
          (mkMockPostgresDBV2
             (<[k2 := mkUserSearchRecord (ID r2) u newWord
                        (if Before (FirstSearchedAt r1) (FirstSearchedAt r2)
                         then FirstSearchedAt r1 else FirstSearchedAt r2)
                        t (wrap64 (SearchCount r2 + SearchCount r1))]>
                (delete k1 (userSearches m)))
             (nextID m),
           None))).
Proof.
  intros Hun. split; [|intros k1 r1 Hk1 Hu1 Hw1; split].
  - intros Hno. unfold UpdateUserSearchByWord.
    destruct (find_user_word m u oldWord) as [[k r]|] eqn:Hfind; [|done].
    apply find_user_word_Some in Hfind as (? & ? & ?). destruct Hno. by exists k, r.
  - intros Hno. unfold UpdateUserSearchByWord.
    rewrite (unique_find_user_word m u oldWord k1 r1) by done.
    destruct (find_user_word m u newWord) as [[k r]|] eqn:Hfind; [|done].
    apply find_user_word_Some in Hfind as (? & ? & ?). destruct Hno. by exists k, r.
  - intros k2 r2 Hk2 Hu2 Hw2. unfold UpdateUserSearchByWord.
    rewrite (unique_find_user_word m u oldWord k1 r1) by done.
    by rewrite (unique_find_user_word m u newWord k2 r2) by done.
Qed.

(** The cases of [UpdateUserSearchByWord], as lookups in the table it
    leaves. *)
Lemma UpdateUserSearchByWord_cases m u oldWord newWord t :
  (¬ has m u oldWord ∧
   UpdateUserSearchByWord m u oldWord newWord t = (m, Some (record_not_found u oldWord))) ∨
  ∃ k1 r1 k r m',
    userSearches m !! k1 = Some r1 ∧ UserIdentifier r1 = u ∧ SearchWord r1 = oldWord ∧
    UpdateUserSearchByWord m u oldWord newWord t = (m', None) ∧
    nextID m' = nextID m ∧
    userSearches m' = <[k := r]> (delete k1 (userSearches m)) ∧
    UserIdentifier r = u ∧ SearchWord r = newWord ∧
    ((k = k1 ∧ ID r = ID r1 ∧ ¬ has m u newWord) ∨
     (∃ r2, userSearches m !! k = Some r2 ∧ ID r = ID r2 ∧
            UserIdentifier r2 = u ∧ SearchWord r2 = newWord)).
Proof.
  unfold UpdateUserSearchByWord.
  destruct (find_user_word m u oldWord) as [[k1 r1]|] eqn:Hold.
  2:{ left. split; [by apply find_user_word_None|done]. }
  right. apply find_user_word_Some in Hold as (Hk1 & Hu1 & Hw1).
  destruct (find_user_word m u newWord) as [[k2 r2]|] eqn:Hnew.
  - apply find_user_word_Some in Hnew as (Hk2 & Hu2 & Hw2).
    eexists k1, r1, k2, _, _. repeat (split; [done|]). simpl.
    repeat (split; [done|]). right. by exists r2.
  - apply find_user_word_None in Hnew.
    eexists k1, r1, k1, _, _. repeat (split; [done|]). simpl.
    repeat (split; [done|]). by left.
Qed.

Lemma UpdateUserSearchByWord_effect m u oldWord newWord t n :
  room n m → filed m → unique m →
  room n (UpdateUserSearchByWord m u oldWord newWord t).1 ∧
  filed (UpdateUserSearchByWord m u oldWord newWord t).1 ∧
  unique (UpdateUserSearchByWord m u oldWord newWord t).1 ∧
  (has m u oldWord →
   (UpdateUserSearchByWord m u oldWord newWord t).2 = None ∧
   ∀ u' v, has (UpdateUserSearchByWord m u oldWord newWord t).1 u' v ↔
           (has m u' v ∧ ¬ (u' = u ∧ v = oldWord)) ∨ (u' = u ∧ v = newWord)).
Proof.
  intros (Hids & Hlo & Hhi) Hfiled Hun.
  destruct (UpdateUserSearchByWord_cases m u oldWord newWord t)
    as [[Hno ->]|(k1 & r1 & k & r & m' & Hk1 & Hu1 & Hw1 & -> & Hnext & Hmap & Hu & Hw & Hk)].
  { simpl. repeat (split; [done|]). intros Hhas. by destruct Hno. }
  simpl.
  assert (Hlook : ∀ j x, userSearches m' !! j = Some x ↔
            (j = k ∧ x = r) ∨ (j ≠ k ∧ j ≠ k1 ∧ userSearches m !! j = Some x)).
  { intros j x. rewrite Hmap, lookup_insert, lookup_delete.
    repeat case_decide; subst; split;
      try (intros [= <-]); try (intros [[? ?]|(? & ? & ?)]);
      try done; try tauto; try congruence; auto. }
  assert (Hkey : k = Sprintf_d (ID r)).
  { destruct Hk as [(-> & -> & _)|(r2 & Hr2 & -> & _)]; by apply Hfiled. }
  assert (Hlt : ID r < nextID m).
  { destruct Hk as [(-> & -> & _)|(r2 & Hr2 & -> & _)]; eauto. }
  assert (Hother : ∀ j x, userSearches m !! j = Some x →
            UserIdentifier x = u → SearchWord x = newWord → j = k ∨ j = k1).
  { intros j x Hj Hxu Hxw.
    destruct Hk as [(-> & _ & Hno)|(r2 & Hr2 & _ & Hu2 & Hw2)].
    - destruct Hno. by exists j, x.
    - left. eapply Hun; [done..|congruence|congruence]. }
  split; [|split; [|split]].
  - split; [|lia]. intros j x [[-> ->]|(_ & _ & Hj)]%Hlook; [lia|]. rewrite Hnext. eauto.
  - intros j x [[-> ->]|(_ & _ & Hj)]%Hlook; [done|]. eauto.
  - intros j1 x1 j2 x2 [[-> ->]|(? & ? & Hj1)]%Hlook [[-> ->]|(? & ? & Hj2)]%Hlook Hxu Hxw.
    + done.
    + destruct (Hother j2 x2) as [?|?]; [done|congruence|congruence|done..].
    + destruct (Hother j1 x1) as [?|?]; [done|congruence|congruence|done..].
    + by eapply Hun.
  - intros _. split; [done|]. intros u' v. split.
    + intros (j & x & [[-> ->]|(? & ? & Hj)]%Hlook & Hxu & Hxv).
      * right. split; congruence.
      * left. split; [by exists j, x|].
        intros [-> ->]. assert (j = k1); [|done].
        eapply Hun; [done..|congruence|congruence].
    + intros [[(j & x & Hj & Hxu & Hxv) Hne]|[-> ->]].
      * destruct (decide (j = k)) as [->|Hjk].
        -- exists k, r. split; [apply Hlook; by left|].
           destruct Hk as [(-> & _ & _)|(r2 & Hr2 & _ & Hu2 & Hw2)].
           ++ destruct Hne. split; congruence.
           ++ split; congruence.
        -- exists j, x. split; [|done]. apply Hlook. right. repeat (split; [done|]).
           split; [|done]. intros ->. destruct Hne. split; congruence.
      * exists k, r. split; [apply Hlook; by left|done].
Qed.

(** X21. [InsertOrUpdateUserSearch] keeps the table of version 2 well
    formed: with [n > 0] identifiers left, afterwards [n - 1] are left,
    every record is filed under the key that prints its [ID], no two
    records have the same user and word; and the pairs of user and word
    held are those held before and the pair given. *)
Theorem InsertOrUpdateUserSearch_keeps_constraints m u w t t' n :
  0 < n → room n m → filed m → unique m →
  room (n - 1) (InsertOrUpdateUserSearch m u w t t').1 ∧
  filed (InsertOrUpdateUserSearch m u w t t').1 ∧
  unique (InsertOrUpdateUserSearch m u w t t').1 ∧
  (∀ u' v, has (InsertOrUpdateUserSearch m u w t t').1 u' v ↔
           has m u' v ∨ (u' = u ∧ v = w)).
Proof. apply InsertOrUpdateUserSearch_effect. Qed.

(** X23. [UpdateUserSearchByWord] keeps the table of version 2 well
    formed (identifiers below [nextID], records filed under the key of
    their [ID], pairs of user and word unique), whether it fails or not;
    and when the user holds [oldWord] it returns [nil] and the pairs held
    afterwards are those held before except (user, [oldWord]), and
    (user, [newWord]). *)
Theorem UpdateUserSearchByWord_keeps_constraints m u oldWord newWord t n :
  room n m → filed m → unique m →
  room n (UpdateUserSearchByWord m u oldWord newWord t).1 ∧
  filed (UpdateUserSearchByWord m u oldWord newWord t).1 ∧
  unique (UpdateUserSearchByWord m u oldWord newWord t).1 ∧
  (has m u oldWord →
   (UpdateUserSearchByWord m u oldWord newWord t).2 = None ∧
   ∀ u' v, has (UpdateUserSearchByWord m u oldWord newWord t).1 u' v ↔
           (has m u' v ∧ ¬ (u' = u ∧ v = oldWord)) ∨ (u' = u ∧ v = newWord)).
Proof. apply UpdateUserSearchByWord_effect. Qed.

End V2Table.

Section V2Logger.
Import V2.
Context `{GoRuntime} `{RangeKeys}.
Implicit Types (m : MockPostgresDBV2) (sl : SearchLoggerV2) (u : string) (w v p : word).

Lemma elem_of_GetUserSearches m u :
  ∃ l, GetUserSearches m u = (m, inr l) ∧ ∀ v, v ∈ l ↔ has m u v.
Proof.
  eexists. split; [done|]. intros v. rewrite list_elem_of_fmap. split.
  - intros ([k r] & -> & [Hu Hin%elem_of_range_keys]%list_elem_of_filter).
    by exists k, r.
  - intros (k & r & Hk & Hu & <-). exists (k, r). split; [done|].
    apply list_elem_of_filter. split; [done|]. by apply elem_of_range_keys.
Qed.

(** The three ways of [storeOrExtendUserSearch]: it renames a stored
    proper prefix of the word, or ignores a word that is a proper prefix
    of a stored one, or upserts. *)
Lemma storeOrExtendUserSearch_cases sl u w now :
  (∃ e, has (db sl) u e ∧ proper_prefix e w ∧
     storeOrExtendUserSearch sl u w now =
       (mkSearchLoggerV2 (UpdateUserSearchByWord (db sl) u e w now).1,
        (UpdateUserSearchByWord (db sl) u e w now).2)) ∨
  ((∀ e, has (db sl) u e → ¬ proper_prefix e w) ∧
   (∃ e, has (db sl) u e ∧ proper_prefix w e) ∧
   storeOrExtendUserSearch sl u w now = (mkSearchLoggerV2 (db sl), None)) ∨
  ((∀ e, has (db sl) u e → ¬ proper_prefix e w ∧ ¬ proper_prefix w e) ∧
   storeOrExtendUserSearch sl u w now =
     (mkSearchLoggerV2 (InsertOrUpdateUserSearch (db sl) u w now now).1, None)).
Proof.
  unfold storeOrExtendUserSearch.
  destruct (elem_of_GetUserSearches (db sl) u) as (l & -> & Hl).
  destruct (List.find _ l) as [e|] eqn:Hfind.
  - left. apply find_some in Hfind as [Hin%list_elem_of_In He%shorter_prefix_true].
    exists e. split; [by apply Hl|]. split; [done|].
    by destruct (UpdateUserSearchByWord (db sl) u e w now).
  - right.
    assert (Hnone : ∀ e, has (db sl) u e → ¬ proper_prefix e w).
    { intros e He%Hl%list_elem_of_In. apply shorter_prefix_false.
      apply (find_none _ _ Hfind _ He). }
    destruct (existsb _ l) eqn:Hex.
    + left. split; [done|]. split; [|done].
      apply existsb_exists in Hex as (e & Hin%list_elem_of_In & He%shorter_prefix_true).
      exists e. split; [by apply Hl|done].
    + right. split.
      { intros e He. split; [by apply Hnone|].
        apply shorter_prefix_false.
        apply Hl, list_elem_of_In in He.
        destruct ((len w <? len e) && HasPrefix e w) eqn:Ht; [|done].
        assert (existsb (λ existingWord, (len w <? len existingWord) &&
                  HasPrefix existingWord w) l = true); [|congruence].
        apply existsb_exists. by exists e. }
      unfold InsertOrUpdateUserSearch.
      by destruct (find_user_word (db sl) u w) as [[? ?]|].
Qed.

Lemma LogSearchV2_valid sl u input now :
  input ≠ [] → u ≠ "" →
  LogSearchV2 sl u input now =
    ((storeOrExtendUserSearch sl u (normalize input) now).1,
     wrap "failed to store user search" <$>
       (storeOrExtendUserSearch sl u (normalize input) now).2).
Proof.
  intros Hin Hu. unfold LogSearchV2.
  rewrite bool_decide_eq_false_2 by done. rewrite bool_decide_eq_false_2 by done.
  simpl. by destruct (storeOrExtendUserSearch _ _ _ _) as [? [?|]].
Qed.

Lemma LogSearchV2_empty sl u input now :
  input = [] ∨ u = "" → LogSearchV2 sl u input now = (sl, Some empty_argument).
Proof.
  intros [-> | ->]; unfold LogSearchV2; [done|].
  by rewrite orb_true_r.
Qed.


End V2Logger.

Section V2Invariants.
Import V2.
Context `{GoRuntime} `{RangeKeys}.
Implicit Types (m : MockPostgresDBV2) (sl : SearchLoggerV2) (u : string) (w v p : word).

Lemma proper_prefix_irrefl p : ¬ proper_prefix p p.
Proof. intros Hp. by apply proper_prefix_ne in Hp. Qed.

Lemma proper_prefix_chain p q w : proper_prefix p q → proper_prefix q w → proper_prefix p w.
Proof. intros Hp Hq. eapply proper_prefix_trans; [done|]. by apply proper_prefix_prefix. Qed.

Lemma prefixes_comparable p q w :
  p `prefix_of` w → q `prefix_of` w → p = q ∨ proper_prefix p q ∨ proper_prefix q p.
Proof.
  intros Hp Hq. destruct (prefix_weak_total _ _ _ Hp Hq) as [Hpq|Hqp].
  - destruct (prefix_proper_or_eq _ _ Hpq); auto.
  - destruct (prefix_proper_or_eq _ _ Hqp); auto.
Qed.

(** What one call does to the table and to the words each user holds. *)
Lemma LogSearchV2_effect sl u input now n :
  0 < n → room n (db sl) → filed (db sl) → unique (db sl) →
  room (n - 1) (db (LogSearchV2 sl u input now).1) ∧
  filed (db (LogSearchV2 sl u input now).1) ∧
  unique (db (LogSearchV2 sl u input now).1) ∧
  (∀ u' v, u' ≠ u →
     has (db (LogSearchV2 sl u input now).1) u' v ↔ has (db sl) u' v) ∧
  (input = [] ∨ u = "" → LogSearchV2 sl u input now = (sl, Some empty_argument)) ∧
  (input ≠ [] → u ≠ "" →
     (∃ e, has (db sl) u e ∧ proper_prefix e (normalize input) ∧
        ∀ v, has (db (LogSearchV2 sl u input now).1) u v ↔
             (has (db sl) u v ∧ v ≠ e) ∨ v = normalize input) ∨
     ((∀ e, has (db sl) u e → ¬ proper_prefix e (normalize input)) ∧
      (∃ e, has (db sl) u e ∧ proper_prefix (normalize input) e) ∧
      db (LogSearchV2 sl u input now).1 = db sl) ∨
     ((∀ e, has (db sl) u e →
         ¬ proper_prefix e (normalize input) ∧ ¬ proper_prefix (normalize input) e) ∧
      ∀ v, has (db (LogSearchV2 sl u input now).1) u v ↔
           has (db sl) u v ∨ v = normalize input)).
Proof.
  intros Hn Hroom Hfiled Hun.
  assert (Hroom' : room (n - 1) (db sl)).
  { destruct Hroom as (? & ? & ?). repeat split; [done|lia..]. }
  destruct (decide (input = [] ∨ u = "")) as [Hempty|Hvalid].
  { rewrite (LogSearchV2_empty _ _ _ _ Hempty). simpl. repeat (split; [done|]).
    intros ? ?. tauto. }
  assert (Hin : input ≠ []) by tauto. assert (Hu : u ≠ "") by tauto.
  rewrite LogSearchV2_valid by done. simpl.
  destruct (storeOrExtendUserSearch_cases sl u (normalize input) now)
    as [(e & He & Hpp & ->)|[(Hnone & Hsome & ->)|(Hnone & ->)]]; simpl.
  - destruct (UpdateUserSearchByWord_effect (db sl) u e (normalize input) now (n - 1))
      as (? & ? & ? & Hhas); [done..|].
    destruct (Hhas He) as [_ Hiff].
    do 3 (split; [done|]). split; [|split; [tauto|]].
    + intros u' v Hne. rewrite Hiff. split; [|by left; split; [|tauto]].
      intros [[? _]|[? _]]; done.
    + intros _ _. left. exists e. do 2 (split; [done|]).
      intros v. rewrite Hiff. split.
      * intros [[? Hne]|[_ ->]]; [left; split; [done|]; intros ->; by apply Hne|by right].
      * intros [[? ?]| ->]; [left; split; [done|]; by intros [_ ->]|by right].
  - do 3 (split; [done|]). split; [done|]. split; [tauto|].
    intros _ _. right; left. done.
  - destruct (InsertOrUpdateUserSearch_effect (db sl) u (normalize input) now now n)
      as (? & ? & ? & Hiff); [done..|].
    do 3 (split; [done|]). split; [|split; [tauto|]].
    + intros u' v Hne. rewrite Hiff. split; [|by left]. intros [?|[? _]]; done.
    + intros _ _. right; right. split; [done|].
      intros v. rewrite Hiff. split; [intros [?|[_ ?]]; auto|intros [?|?]; auto].
Qed.

Lemma LogSearchV2_prefix_free_for sl u0 u input now n :
  0 < n → room n (db sl) → filed (db sl) → unique (db sl) →
  prefix_free_for (db sl) u0 →
  prefix_free_for (db (LogSearchV2 sl u input now).1) u0.
Proof.
  intros Hn Hroom Hfiled Hun Hpf.
  destruct (LogSearchV2_effect sl u input now n) as (_ & _ & _ & Hother & Herr & Hcases);
    [done..|].
  destruct (decide (input = [] ∨ u = "")) as [Hempty|Hvalid].
  { by rewrite (Herr Hempty). }
  intros p q Hp Hq Hpq.
  destruct (decide (u0 = u)) as [->|Hne].
  2:{ apply Hother in Hp, Hq; [|done..]. by apply (Hpf p q). }
  destruct Hcases as [(e & He & Hpp & Hiff)|[(_ & _ & Hdb)|(Hnone & Hiff)]]; [tauto..| | |].
  - apply Hiff in Hp, Hq.
    destruct Hp as [[Hp Hpe]| ->], Hq as [[Hq Hqe]| ->].
    + by apply (Hpf p q).
    + destruct (prefixes_comparable p e (normalize input)) as [?|[?|?]];
        [by apply proper_prefix_prefix..|done| |].
      * by apply (Hpf p e).
      * by apply (Hpf e p).
    + apply (Hpf e q); [done..|]. by eapply proper_prefix_chain.
    + by apply proper_prefix_irrefl in Hpq.
  - rewrite Hdb in Hp, Hq. by apply (Hpf p q).
  - apply Hiff in Hp, Hq. destruct Hp as [Hp| ->], Hq as [Hq| ->].
    + by apply (Hpf p q).
    + by destruct (Hnone p Hp).
    + by destruct (Hnone q Hq).
    + by apply proper_prefix_irrefl in Hpq.
Qed.

Lemma LogSearchV2_prefix_free sl u input now n :
  0 < n → room n (db sl) → filed (db sl) → unique (db sl) → prefix_free (db sl) →
  prefix_free (db (LogSearchV2 sl u input now).1).
Proof.
  intros Hn Hroom Hfiled Hun Hpf u0.
  by apply (LogSearchV2_prefix_free_for _ _ _ _ _ n).
Qed.

Lemma runV2_cons sl c calls :
  runV2 sl (c :: calls) = runV2 (LogSearchV2 sl c.1.1 c.1.2 c.2).1 calls.
Proof. by destruct c as [[? ?] ?]. Qed.


Lemma runV2_invariant sl calls n :
  0 ≤ n →
  room (n + Z.of_nat (length calls)) (db sl) →
  filed (db sl) → unique (db sl) → prefix_free (db sl) →
  room n (db (runV2 sl calls)) ∧
  filed (db (runV2 sl calls)) ∧ unique (db (runV2 sl calls)) ∧
  prefix_free (db (runV2 sl calls)).
Proof.
  revert sl. induction calls as [|c calls IH]; intros sl Hn Hroom Hfiled Hun Hpf.
  { simpl in *. by rewrite Z.add_0_r in Hroom. }
  rewrite runV2_cons. simpl length in Hroom.
  assert (Hroom1 : room (n + Z.of_nat (length calls) + 1) (db sl)).
  { by replace (n + Z.of_nat (length calls) + 1)
      with (n + Z.of_nat (S (length calls))) by lia. }
  destruct (LogSearchV2_effect sl c.1.1 c.1.2 c.2 (n + Z.of_nat (length calls) + 1))
    as (Hroom' & ? & ? & _); [lia|done..|].
  replace (n + Z.of_nat (length calls) + 1 - 1)
    with (n + Z.of_nat (length calls)) in Hroom' by lia.
  apply IH; [done..|].
  apply (LogSearchV2_prefix_free _ _ _ _ (n + Z.of_nat (length calls) + 1)); [lia|done..].
Qed.


End V2Invariants.

Section V2Users.
Import V2.
Context `{GoRuntime} `{RangeKeys}.
Implicit Types (m : MockPostgresDBV2) (sl : SearchLoggerV2) (u : string) (w v p : word).

Lemma InsertOrUpdateUserSearch_others m u w t t' key record :
  room 0 m → filed m → UserIdentifier record ≠ u →
  userSearches (InsertOrUpdateUserSearch m u w t t').1 !! key = Some record ↔
  userSearches m !! key = Some record.
Proof.
  intros (Hids & _) Hfiled Hne. unfold InsertOrUpdateUserSearch.
  destruct (find_user_word m u w) as [[k r]|] eqn:Hfind; simpl.
  - apply find_user_word_Some in Hfind as (Hk & Hu & Hw).
    rewrite <-(Hfiled _ _ Hk). rewrite lookup_insert. case_decide as Hd; [|done].
    subst k. rewrite Hk. split; intros [= <-]; done.
  - rewrite lookup_insert. case_decide as Hd; [|done]. subst key. split.
    + by intros [= <-].
    + intros Hr. pose proof (Hids _ _ Hr) as Hlt. apply Hfiled in Hr.
      apply (inj _) in Hr. lia.
Qed.

Lemma UpdateUserSearchByWord_others m u oldWord newWord t key record :
  UserIdentifier record ≠ u →
  userSearches (UpdateUserSearchByWord m u oldWord newWord t).1 !! key = Some record ↔
  userSearches m !! key = Some record.
Proof.
  intros Hne.
  destruct (UpdateUserSearchByWord_cases m u oldWord newWord t)
    as [[_ ->]|(k1 & r1 & k & r & m' & Hk1 & Hu1 & Hw1 & -> & _ & Hmap & Hu & Hw & Hk)];
    [done|].
  simpl. rewrite Hmap, lookup_insert, lookup_delete.
  case_decide as Hd1.
  - subst key. split; [by intros [= <-]|].
    destruct Hk as [(-> & _)|(r2 & Hr2 & _ & Hu2 & _)]; intros Hr; congruence.
  - case_decide as Hd2; [|done]. subst key. split; [done|]. intros Hr. congruence.
Qed.

(** X25. A call of [LogSearchV2] for one user leaves the records of
    every other user exactly as they were, key by key, in a table whose
    records are filed under the key of their [ID] and whose identifiers in
    use are below an unwrapped [nextID]. *)
Theorem LogSearchV2_leaves_other_users sl u input now key record :
  room 0 (db sl) → filed (db sl) →
  UserIdentifier record ≠ u →
  userSearches (db (LogSearchV2 sl u input now).1) !! key = Some record ↔
  userSearches (db sl) !! key = Some record.
Proof.
  intros Hroom Hfiled Hne.
  destruct (decide (input = [] ∨ u = "")) as [Hempty|Hvalid].
  { by rewrite (LogSearchV2_empty _ _ _ _ Hempty). }
  rewrite LogSearchV2_valid by tauto. simpl.
  destruct (storeOrExtendUserSearch_cases sl u (normalize input) now)
    as [(e & _ & _ & ->)|[(_ & _ & ->)|(_ & ->)]]; simpl.
  - by apply UpdateUserSearchByWord_others.
  - done.
  - by apply InsertOrUpdateUserSearch_others.
Qed.






End V2Users.

Section V2Maximal.
Import V2.
Context `{GoRuntime} `{RangeKeys}.
Implicit Types (m : MockPostgresDBV2) (sl : SearchLoggerV2) (u : string) (w v p : word).





End V2Maximal.

Section V2Generator.
Import V2.

Lemma generate_ids gen calls :
  0 ≤ counter gen → counter gen + Z.of_nat (length calls) < 2 ^ 63 →
  NoDup (generate gen calls) ∧
  ∀ id, id ∈ generate gen calls →
    ∃ c, counter gen < c ∧
      (id = "guest_" +:+ Sprintf_d c ∨ id = "user_" +:+ Sprintf_d c).
Proof.
  revert gen. induction calls as [|anon calls IH]; intros gen Hlo Hhi.
  { simpl. split; [constructor|]. by intros ? ?%elem_of_nil. }
  simpl length in Hhi.
  assert (Hw : wrap64 (counter gen + 1) = counter gen + 1) by (apply wrap64_small; lia).
  destruct (IH (mkUserIdentifierGenerator (counter gen + 1))) as [Hnd Hids];
    [simpl; lia..|].
  assert (Hgen : generate gen (anon :: calls) =
            (if anon then "guest_" +:+ Sprintf_d (counter gen + 1)
             else "user_" +:+ Sprintf_d (counter gen + 1))
            :: generate (mkUserIdentifierGenerator (counter gen + 1)) calls).
  { simpl. unfold GenerateAnonID, GenerateUserID. rewrite Hw. by destruct anon. }
  rewrite Hgen. split.
  - apply NoDup_cons. split; [|done].
    intros (c & Hc & Hid)%Hids. simpl in Hc.
    destruct anon, Hid as [Hid|Hid]; try (cbn in Hid; discriminate);
      apply (inj (String.app _)) in Hid; apply (inj pretty) in Hid; lia.
  - intros id [->|(c & Hc & Hid)%Hids]%elem_of_cons.
    + exists (counter gen + 1). split; [lia|]. destruct anon; auto.
    + exists c. simpl in Hc. split; [lia|done].
Qed.

(** X28. The identifiers that a new [UserIdentifierGenerator] hands out,
    through any mix of [GenerateAnonID] and [GenerateUserID], are pairwise
    distinct and never empty, as long as fewer than [2^63] are drawn. *)
Theorem generated_identifiers_are_distinct calls :
  Z.of_nat (length calls) < 2 ^ 63 →
  NoDup (generate NewUserIdentifierGenerator calls) ∧
  ∀ id, id ∈ generate NewUserIdentifierGenerator calls → id ≠ "".
Proof.
  intros Hlen. destruct (generate_ids NewUserIdentifierGenerator calls) as [Hnd Hids];
    [done|simpl; lia|].
  split; [done|]. intros id (c & _ & [-> | ->])%Hids; done.
Qed.

End V2Generator.

(** * Examples: the statements at concrete inputs *)

Section Examples.
#[local] Existing Instance ascii_runtime.
#[local] Existing Instance MockGateway.

Lemma mock_room_new n : 0 ≤ n < 2 ^ 62 → mock_room n NewMockPostgresDB.
Proof.
  intros Hn. split; [|simpl; lia].
  intros id. simpl. rewrite lookup_empty. by intros [? ?].
Qed.

Lemma searches_db_holding_a :
  searches db_holding_a = {[1 := mkSearchRecord 1 (runes "a") 200 200 1]}.
Proof. vm_compute. reflexivity. Qed.

Lemma holds_db_holding_a v : holds db_holding_a v ↔ v = runes "a".
Proof.
  unfold holds. rewrite searches_db_holding_a. split.
  - intros (id & record & [_ <-]%lookup_singleton_Some & <-). reflexivity.
  - intros ->. eexists 1, _. split; [apply lookup_singleton_eq|reflexivity].
Qed.

Lemma mock_room_db_holding_a : mock_room 2 db_holding_a.
Proof.
  split; [|split; vm_compute; congruence].
  intros id. rewrite searches_db_holding_a.
  intros [record [<- _]%lookup_singleton_Some]. vm_compute. reflexivity.
Qed.

(** C1 at ["B"], ["Bu"], ["Bus"] typed ten units apart with timeout 100. *)
Lemma growing_prefixes_store_only_W_witness :
  GetStoredSearches
    (run (fresh_logger 100)
       [Submit (runes "B") 1; Submit (runes "Bu") 11; Tick 15;
        Submit (runes "Bus") 21; Tick 100; Tick 150])
  = inr [runes "bus"].
Proof.
  apply (growing_prefixes_store_only_W 100 (runes "bus")
           [Submit (runes "B") 1; Submit (runes "Bu") 11; Tick 15;
            Submit (runes "Bus") 21; Tick 100; Tick 150]) with (T := 150).
  - lia.
  - reflexivity.
  - simpl. repeat split; try discriminate; try reflexivity; try lia.
    + exists (runes "u"). split; [discriminate|reflexivity].
    + exists (runes "s"). split; [discriminate|reflexivity].
  - rewrite !elem_of_cons. tauto.
  - simpl. lia.
Defined.

(** C2: a word stored, extended, and extended again. After the first
    extension the node of ["ab"] holds the reference without being marked
    [isEndOfWord], so that the second extension finds nothing to rename
    and ["abc"] is stored as a record of its own: two nodes of one path
    hold a reference, and two forms of the word are stored. *)
Theorem second_extension_keeps_two_references :
  ref_at (prefixTree (run (fresh_logger 100)
            [Submit (runes "a") 1; Tick 200; Submit (runes "ab") 300;
             Submit (runes "abc") 310; Tick 500])) (runes "ab") = Some 1 ∧
  ended_at (prefixTree (run (fresh_logger 100)
            [Submit (runes "a") 1; Tick 200; Submit (runes "ab") 300;
             Submit (runes "abc") 310; Tick 500])) (runes "ab") = false ∧
  ref_at (prefixTree (run (fresh_logger 100)
            [Submit (runes "a") 1; Tick 200; Submit (runes "ab") 300;
             Submit (runes "abc") 310; Tick 500])) (runes "abc") = Some 2 ∧
  GetStoredSearches (run (fresh_logger 100)
            [Submit (runes "a") 1; Tick 200; Submit (runes "ab") 300;
             Submit (runes "abc") 310; Tick 500])
    = inr [runes "abc"; runes "ab"].
Proof. repeat split; vm_compute; reflexivity. Qed.

(** C3 as stated fails at the boundary: a tick exactly at
    [lastSeen + timeout] stores nothing. *)
Lemma tick_at_the_boundary_stores_nothing :
  seen_at (prefixTree (run (fresh_logger 100) [Submit (runes "a") 10])) (runes "a") = 10 ∧
  GetStoredSearches (run (fresh_logger 100) [Submit (runes "a") 10; Tick 110]) = inr [].
Proof. split; vm_compute; reflexivity. Qed.

(** C3, as amended, at the same word: one unit later it is stored. *)
Lemma timeout_boundary_strict_witness :
  ∃ l, GetStoredSearches
         (processTimedOutWords (run (fresh_logger 100) [Submit (runes "a") 10]) 111)
       = inr l ∧ runes "a" ∈ l.
Proof.
  destruct (timeout_boundary_strict (run (fresh_logger 100) [Submit (runes "a") 10])
              (runes "a") 111) as [Hlate _].
  - vm_compute. discriminate.
  - reflexivity.
  - reflexivity.
  - apply Hlate.
    + vm_compute. reflexivity.
    + apply mock_room_new. vm_compute. split; [discriminate|reflexivity].
Defined.

(** C4 as stated fails once a tick has run after the timeout of the
    start: the reloaded ["a"] has its reference again, the submission of
    ["ab"] renames its record, and ["a"] is no longer stored. *)
Lemma extension_after_resweep_renames :
  NewSearchLoggerWithDB 100 db_holding_a 1000 = inr (restarted_logger 1000) ∧
  holds db_holding_a (runes "a") ∧
  ref_at (prefixTree (run (restarted_logger 1000) [Tick 1200])) (runes "a") = Some 1 ∧
  GetStoredSearches
    (run (restarted_logger 1000) [Tick 1200; Submit (runes "ab") 1300; Tick 1500])
  = inr [runes "ab"].
Proof.
  split; [vm_compute; reflexivity|]. split; [by apply holds_db_holding_a|].
  split; vm_compute; reflexivity.
Qed.

(** C4, as amended, at the same database: ["ab"] submitted before the
    timeout of the start has elapsed. *)
Lemma reload_then_extend_witness :
  ∃ l, GetStoredSearches
         (processTimedOutWords
            (LogSearch (run (restarted_logger 1000) (Tick <$> [1050])) (runes "ab") 1060).1
            1200)
       = inr l ∧ runes "a" ∈ l ∧ runes "ab" ∈ l.
Proof.
  destruct (reload_then_extend 100 db_holding_a 1000 [1050] (runes "a") (runes "ab")
              1060 1200) as (sl0 & Hstart & _ & _ & _ & Hboth).
  - lia.
  - lia.
  - repeat constructor. lia.
  - by apply holds_db_holding_a.
  - exists (runes "b"). split; [discriminate|reflexivity].
  - reflexivity.
  - intros v ->%holds_db_holding_a (k & _ & Heq). discriminate.
  - rewrite searches_db_holding_a, map_size_singleton. apply mock_room_db_holding_a.
  - assert (sl0 = restarted_logger 1000) as ->.
    { unfold restarted_logger. by rewrite Hstart. }
    exact Hboth.
Defined.

(** C5 at ["bus"], ["bu"], ["b"]. *)
Lemma decreasing_prefixes_store_only_W_witness :
  GetStoredSearches
    (run (fresh_logger 100)
       [Submit (runes "bus") 1; Submit (runes "bu") 5; Tick 50;
        Submit (runes "b") 60; Tick 150])
  = inr [runes "bus"].
Proof.
  apply (decreasing_prefixes_store_only_W 100 (runes "bus")
           [Submit (runes "bus") 1; Submit (runes "bu") 5; Tick 50;
            Submit (runes "b") 60; Tick 150]) with (T := 150).
  - lia.
  - reflexivity.
  - simpl. repeat split; try discriminate; try reflexivity.
    + exists (runes "s"). split; [discriminate|reflexivity].
    + exists (runes "u"). split; [discriminate|reflexivity].
  - rewrite !elem_of_cons. tauto.
  - simpl. lia.
Defined.

(** C6 at ["a"] and ["ab"]. *)
Lemma prefix_suppressed_witness :
  isPrefixOfAnyWord
    (run (fresh_logger 100) [Submit (runes "a") 1; Tick 50; Submit (runes "ab") 60])
    (runes "a") = true.
Proof.
  destruct (prefix_suppressed (fresh_logger 100) (runes "a") 1 [Tick 50]
              (runes "ab") 60 [Tick 500] [Tick 50; Submit (runes "ab") 60] 500 [])
    as (_ & _ & _ & Hsup).
  - discriminate.
  - discriminate.
  - exists (runes "b"). split; [discriminate|reflexivity].
  - lia.
  - reflexivity.
  - simpl. lia.
  - reflexivity.
  - apply Hsup. simpl. lia.
Defined.

End Examples.

Section FlakyExamples.
#[local] Existing Instance ascii_runtime.
#[local] Existing Instance FlakyGateway.

(** C7 as stated fails when an earlier rename of the same call went
    through: the call returns the error of the refused rename of ["ab"],
    and yet the node of ["abc"], which held no reference, now holds the
    one moved from ["a"]. *)
Lemma refused_rename_after_a_moved_reference :
  ref_at (prefixTree two_stored_prefixes) (runes "abc") = None ∧
  (LogSearch two_stored_prefixes (runes "abc") 600).2
    = Some (wrap "failed to handle word extension"
              (wrap "failed to update stored word" storage_failure)) ∧
  ref_at (prefixTree (LogSearch two_stored_prefixes (runes "abc") 600).1) (runes "ab")
    = Some 2 ∧
  ref_at (prefixTree (LogSearch two_stored_prefixes (runes "abc") 600).1) (runes "abc")
    = Some 1.
Proof. repeat split; vm_compute; reflexivity. Qed.

(** C7, as amended, at ["ab"] submitted over the stored ["a"] while the
    gateway is out of reach. *)
Lemma LogSearch_rename_refused_witness :
  LogSearch stored_a_then_outage (runes "ab") 300 =
    (mkSearchLogger (touch (runes "ab") 300 (prefixTree stored_a_then_outage))
       (mkFlakyDB (inner (db stored_a_then_outage)) []) 100,
     Some (wrap "failed to handle word extension"
             (wrap "failed to update stored word" storage_failure))).
Proof.
  destruct (LogSearch_rename_refused stored_a_then_outage (runes "ab") 300) as [Hfirst _].
  - discriminate.
  - apply (Hfirst (runes "a") 1).
    + split; [discriminate|]. split.
      * exists (runes "b"). split; [discriminate|reflexivity].
      * split; [reflexivity|]. by exists 1.
    + intros q (Hq & _). destruct q; [done|]. simpl. lia.
    + reflexivity.
    + reflexivity.
Defined.

(** C8 at two collected words, the store of the first one failing. *)
Lemma sweep_store_failure_is_local_witness :
  ref_at (prefixTree (processTimedOutWords two_words_then_outage 200)) (runes "b") = None ∧
  ref_at (prefixTree (processTimedOutWords two_words_then_outage 200)) (runes "a") = Some 1.
Proof.
  destruct (sweep_store_failure_is_local two_words_then_outage 200 [] (runes "b")
              [runes "a"] (mkFlakyDB NewMockPostgresDB []) storage_failure)
    as (Hfailed & _ & Hnext).
  - vm_compute. reflexivity.
  - vm_compute. reflexivity.
  - vm_compute. reflexivity.
  - split; [exact Hfailed|].
    destruct (Hnext [] (runes "a") []) as [_ Hr]; [reflexivity|vm_compute; reflexivity|].
    rewrite Hr. vm_compute. reflexivity.
Defined.

End FlakyExamples.

Section MoreExamples.
#[local] Existing Instance ascii_runtime.
#[local] Existing Instance MockGateway.

(** C9 as stated fails for a reloaded word: its timestamp is set
    although nothing was submitted. *)
Lemma reloaded_word_has_lastSeen_set :
  NewSearchLoggerWithDB 100 db_holding_a 5 = inr (restarted_logger 5) ∧
  (lastSeen <$> walk (prefixTree (run (restarted_logger 5) [])) (runes "a")) = Some 5 ∧
  ¬ ∃ input now, Submit input now ∈ ([] : list Event).
Proof.
  split; [vm_compute; reflexivity|]. split; [vm_compute; reflexivity|].
  intros (input & now & Hin). by apply elem_of_nil in Hin.
Qed.

(** C9, as amended, after one submission over the reloaded database: the
    node of ["b"] has its timestamp set, ["B"] having been submitted. *)
Lemma lastSeen_set_iff_loaded_or_submitted_witness :
  ∃ node,
    walk (prefixTree (run (restarted_logger 5) [Submit (runes "B") 10])) (runes "b")
      = Some node ∧
    IsZero (lastSeen node) = false.
Proof.
  destruct (lastSeen_set_iff_loaded_or_submitted 100 db_holding_a 5 (restarted_logger 5)
              [Submit (runes "B") 10]) as [Hiff _].
  - vm_compute. reflexivity.
  - lia.
  - repeat constructor.
  - eexists. split; [vm_compute; reflexivity|].
    apply (Hiff (runes "b")); [vm_compute; reflexivity|].
    right. exists (runes "B"), 10. split; [by left|].
    split; [discriminate|reflexivity].
Defined.

(** C10 at two spaces. *)
Lemma whitespace_input_stores_empty_word_witness :
  normalize (runes "  ") = [] ∧
  ∃ l, GetStoredSearches
         (processTimedOutWords (LogSearch (fresh_logger 100) (runes "  ") 10).1 200)
       = inr l ∧ [] ∈ l.
Proof.
  destruct (whitespace_input_stores_empty_word (fresh_logger 100) (runes "  ") 10 200)
    as (Hnorm & _ & _ & Hstored).
  - discriminate.
  - repeat constructor.
  - lia.
  - reflexivity.
  - reflexivity.
  - simpl. lia.
  - split; [exact Hnorm|exact Hstored].
Defined.

End MoreExamples.

Section ExtraExamples.
#[local] Existing Instance ascii_runtime.
#[local] Existing Instance MockGateway.

Lemma unique_words_db_holding_a : unique_words db_holding_a.
Proof.
  intros id1 r1 id2 r2. rewrite searches_db_holding_a.
  by intros [<- _]%lookup_singleton_Some [<- _]%lookup_singleton_Some _.
Qed.

Lemma filed_by_ID_db_holding_a : filed_by_ID db_holding_a.
Proof.
  intros id record. rewrite searches_db_holding_a.
  by intros [<- <-]%lookup_singleton_Some.
Qed.

(** X1 at ["a"] stored again over the database that holds it. *)
Lemma InsertOrReplace_upsert_witness :
  InsertOrReplace db_holding_a (runes "a") 300 400 =
    (mkMockPostgresDB {[1 := mkSearchRecord 1 (runes "a") 200 400 2]} 2, inr 1).
Proof.
  destruct (InsertOrReplace_upsert db_holding_a (runes "a") 300 400
              unique_words_db_holding_a) as [Hstored _].
  rewrite (Hstored 1 (mkSearchRecord 1 (runes "a") 200 200 1));
    [|vm_compute; reflexivity|reflexivity].
  vm_compute. reflexivity.
Defined.

(** X2 at ["b"] inserted into the database that holds ["a"]. *)
Lemma InsertOrReplace_keeps_constraints_witness :
  mock_room 1 (InsertOrReplace db_holding_a (runes "b") 300 300).1 ∧
  filed_by_ID (InsertOrReplace db_holding_a (runes "b") 300 300).1 ∧
  unique_words (InsertOrReplace db_holding_a (runes "b") 300 300).1.
Proof.
  apply (InsertOrReplace_keeps_constraints db_holding_a (runes "b") 300 300 2).
  - lia.
  - apply mock_room_db_holding_a.
  - apply filed_by_ID_db_holding_a.
  - apply unique_words_db_holding_a.
Defined.

(** X3 at the record of ["a"] renamed to ["b"], which record 2 holds. *)
Lemma Update_ignores_unique_constraint_witness :
  ∃ m', Update db_holding_a_b 1 (runes "b") 400 = (m', None) ∧
    holds m' (runes "b") ∧ ¬ unique_words m'.
Proof.
  apply (Update_ignores_unique_constraint db_holding_a_b 1
           (mkSearchRecord 1 (runes "a") 200 200 1) 2
           (mkSearchRecord 2 (runes "b") 300 300 1) 400).
  - vm_compute. reflexivity.
  - vm_compute. reflexivity.
  - lia.
Defined.

Lemma no_stored_prefix_fresh tmo w p : ¬ stored_prefix (prefixTree (fresh_logger tmo)) w p.
Proof. intros (_ & _ & _ & Hr). simpl in Hr. rewrite ref_at_newTrieNode in Hr. by destruct Hr. Qed.

(** X11 at [" A"] submitted to a new logger. *)
Lemma LogSearch_without_stored_prefix_witness :
  LogSearch (fresh_logger 100) (runes " A") 5 =
    (mkSearchLogger
       (update_at (set_lastSeen 5) (runes "a") (build (runes "a") newTrieNode))
       NewMockPostgresDB 100,
     None).
Proof.
  rewrite (LogSearch_without_stored_prefix (fresh_logger 100) (runes " A") 5).
  - reflexivity.
  - discriminate.
  - apply no_stored_prefix_fresh.
Defined.

Lemma proper_prefix_of_ab q : q ≠ [] → proper_prefix q (runes "ab") → q = runes "a".
Proof.
  intros Hq (k & Hk & Heq). destruct q as [|c [|c' q]]; [done| |].
  - by injection Heq as <-.
  - injection Heq as _ _ Hnil. symmetry in Hnil. by apply app_eq_nil in Hnil as [_ ?].
Qed.

(** X12 at ["ab"] submitted over the stored ["a"]. *)
Lemma LogSearch_renames_stored_prefix_witness :
  GetStoredSearches stored_a = inr [runes "a"] ∧
  (LogSearch stored_a (runes "ab") 300).2 = None ∧
  GetStoredSearches (LogSearch stored_a (runes "ab") 300).1 = inr [runes "ab"] ∧
  ref_at (prefixTree (LogSearch stored_a (runes "ab") 300).1) (runes "a") = None ∧
  ref_at (prefixTree (LogSearch stored_a (runes "ab") 300).1) (runes "ab") = Some 1.
Proof.
  rewrite (LogSearch_renames_stored_prefix stored_a (runes "ab") 300 (runes "a") 1
             (Update (db stored_a) 1 (runes "ab") 300).1).
  - repeat split; vm_compute; reflexivity.
  - discriminate.
  - split; [discriminate|]. split.
    + exists (runes "b"). split; [discriminate|reflexivity].
    + split; [reflexivity|]. by exists 1.
  - intros q (Hq & Hpp & _). by apply proper_prefix_of_ab.
  - reflexivity.
  - reflexivity.
Defined.

(** X16 at ["a"], typed at 10 and swept at 111 with timeout 100. *)
Lemma mock_tick_stores_exactly_witness :
  holds (db (processTimedOutWords (run (fresh_logger 100) [Submit (runes "a") 10]) 111))
    (runes "a").
Proof.
  destruct (mock_tick_stores_exactly (run (fresh_logger 100) [Submit (runes "a") 10]) 111)
    as (Hholds & _).
  - apply mock_room_new. vm_compute. split; [discriminate|reflexivity].
  - apply Hholds. right. split; [vm_compute; reflexivity|reflexivity].
Defined.

(** X18 at two ticks at 500 over the stored ["a"]. *)
Lemma mock_tick_twice_witness :
  processTimedOutWords (processTimedOutWords stored_a 500) 500
    = processTimedOutWords stored_a 500.
Proof. apply (mock_tick_twice stored_a 500 500). lia. Defined.

(** X17 at ["a"] and ["b"] swept in the two orders: the same words, not
    the same identifiers. *)
Lemma mock_tick_order_independent_witness :
  (holds (db (processTimedOutWords (H := ascii_runtime)
                (H0 := MockGateway (H := ascii_runtime))
                (run (fresh_logger 100) [Submit (runes "a") 1; Submit (runes "b") 2]) 200))
     (runes "b") ↔
   holds (db (processTimedOutWords (H := reversed_runtime)
                (H0 := MockGateway (H := reversed_runtime))
                (run (fresh_logger 100) [Submit (runes "a") 1; Submit (runes "b") 2]) 200))
     (runes "b")) ∧
  ref_at (prefixTree (processTimedOutWords (H := ascii_runtime)
                (H0 := MockGateway (H := ascii_runtime))
                (run (fresh_logger 100) [Submit (runes "a") 1; Submit (runes "b") 2]) 200))
    (runes "b") = Some 1 ∧
  ref_at (prefixTree (processTimedOutWords (H := reversed_runtime)
                (H0 := MockGateway (H := reversed_runtime))
                (run (fresh_logger 100) [Submit (runes "a") 1; Submit (runes "b") 2]) 200))
    (runes "b") = Some 2.
Proof.
  split; [|split; vm_compute; reflexivity].
  apply (mock_tick_order_independent ascii_runtime reversed_runtime
           (run (fresh_logger 100) [Submit (runes "a") 1; Submit (runes "b") 2]) 200).
  apply mock_room_new. vm_compute. split; [discriminate|reflexivity].
Defined.

Lemma refs_valid_fresh tmo : refs_valid (fresh_logger tmo).
Proof. intros p id. simpl. by rewrite ref_at_newTrieNode. Qed.

(** X13 at ["abc"] submitted after ["a"] was stored and renamed. *)
Lemma mock_LogSearch_never_fails_witness :
  (LogSearch
     (run (fresh_logger 100)
        [Submit (runes "a") 1; Tick 200; Submit (runes "ab") 300; Tick 500])
     (runes "abc") 600).2 = None.
Proof.
  apply (mock_LogSearch_never_fails (fresh_logger 100)
           [Submit (runes "a") 1; Tick 200; Submit (runes "ab") 300; Tick 500]
           (runes "abc") 600).
  apply refs_valid_fresh.
Defined.

(** X14 at the record of ["a"], renamed by the submission of ["ab"]. *)
Lemma mock_records_never_deleted_witness :
  is_Some (searches (db (run stored_a [Submit (runes "ab") 300; Tick 500])) !! 1).
Proof.
  apply (mock_records_never_deleted stored_a [Submit (runes "ab") 300; Tick 500] 1).
  vm_compute. eauto.
Defined.

(** X15 at ["ab"], held after ["AB"] was submitted over the stored ["a"]. *)
Lemma mock_stores_only_words_typed_witness :
  holds (db (fresh_logger 100)) (runes "ab") ∨
  seen_at (prefixTree (fresh_logger 100)) (runes "ab") ≠ 0 ∨
  ∃ input now,
    Submit input now ∈ [Submit (runes "a") 1; Tick 200; Submit (runes "AB") 300] ∧
    input ≠ [] ∧ normalize input = runes "ab".
Proof.
  apply (mock_stores_only_words_typed (fresh_logger 100)
           [Submit (runes "a") 1; Tick 200; Submit (runes "AB") 300] (runes "ab")).
  exists 1. eexists. split; [vm_compute; reflexivity|reflexivity].
Defined.

(** X20 at ["bus"] stored at 200 and searched again, in three spellings. *)
Lemma repeated_searches_are_counted_once_witness :
  db (run (fresh_logger 100)
        [Submit (runes "bus") 1; Tick 200; Submit (runes "bus") 300;
         Submit (runes "Bu") 310; Submit (runes "BUS") 320; Tick 500; Tick 600])
  = written_once (runes "bus") 200.
Proof.
  destruct (repeated_searches_are_counted_once 100 (runes "bus") 1
              [Tick 200; Submit (runes "bus") 300; Submit (runes "Bu") 310;
               Submit (runes "BUS") 320; Tick 500; Tick 600]) as [_ Hkeep].
  - discriminate.
  - lia.
  - reflexivity.
  - intros input now. rewrite !elem_of_cons, elem_of_nil.
    intros [?|[[= -> ->]|[[= -> ->]|[[= -> ->]|[?|[?|[]]]]]]]; try discriminate.
    + split; [discriminate|reflexivity].
    + split; [discriminate|]. by exists (runes "s").
    + split; [discriminate|reflexivity].
  - apply (Hkeep 1%nat 200). vm_compute. reflexivity.
Defined.

Lemma consistent_fresh tmo : consistent (fresh_logger tmo).
Proof. split; intros p; intros; simpl in *; by rewrite ref_at_newTrieNode in *. Qed.

(** X30 at ["a"] typed into a new logger and swept. *)
Lemma references_stay_consistent_witness :
  consistent (processTimedOutWords (LogSearch (fresh_logger 100) (runes "a") 1).1 200) ∧
  ref_at (prefixTree (processTimedOutWords (LogSearch (fresh_logger 100) (runes "a") 1).1 200))
    (runes "a") = Some 1.
Proof.
  split; [|vm_compute; reflexivity].
  apply (references_stay_consistent (LogSearch (fresh_logger 100) (runes "a") 1).1).
  - apply (references_stay_consistent (fresh_logger 100)). apply consistent_fresh.
  - apply mock_room_new. vm_compute. split; [discriminate|reflexivity].
Defined.

End ExtraExamples.

Section V2Examples.
Import V2.
#[local] Existing Instance ascii_runtime.
#[local] Existing Instance map_order.

(** [NewSearchLoggerV2] returns the logger over a new database. *)
Lemma NewSearchLoggerV2_fresh : NewSearchLoggerV2 = inr fresh_loggerV2.
Proof. reflexivity. Qed.

Lemma room_new n : 0 ≤ n < 2 ^ 62 → room n NewMockPostgresDBV2.
Proof.
  intros Hn. split; [|simpl; lia].
  intros key record. simpl. by rewrite lookup_empty.
Qed.

Lemma filed_new : filed NewMockPostgresDBV2.
Proof. intros key record. simpl. by rewrite lookup_empty. Qed.

Lemma unique_new : unique NewMockPostgresDBV2.
Proof. intros k1 r1 k2 r2. simpl. by rewrite lookup_empty. Qed.

Lemma prefix_free_new : prefix_free NewMockPostgresDBV2.
Proof. intros u p w (k & r & Hk & _). simpl in Hk. by rewrite lookup_empty in Hk. Qed.


(** The table of [two_users] keeps its constraints. *)
Lemma two_users_constraints :
  room 10 (db two_users) ∧ filed (db two_users) ∧ unique (db two_users) ∧
  prefix_free (db two_users).
Proof.
  apply (runV2_invariant fresh_loggerV2
           [("user_1"%string, runes "bu", 1); ("guest_2"%string, runes "cat", 2)] 10).
  - lia.
  - apply room_new. simpl. lia.
  - apply filed_new.
  - apply unique_new.
  - apply prefix_free_new.
Qed.

(** X21 at ["dog"] inserted for the first of two users. *)
Lemma InsertOrUpdateUserSearch_keeps_constraints_witness :
  unique (InsertOrUpdateUserSearch (db two_users) "user_1" (runes "dog") 5 5).1 ∧
  has (InsertOrUpdateUserSearch (db two_users) "user_1" (runes "dog") 5 5).1
    "user_1" (runes "dog").
Proof.
  destruct (InsertOrUpdateUserSearch_keeps_constraints (db two_users) "user_1"
              (runes "dog") 5 5 10) as (_ & _ & Hun & Hhas).
  - lia.
  - apply two_users_constraints.
  - apply two_users_constraints.
  - apply two_users_constraints.
  - split; [exact Hun|]. apply Hhas. right. split; reflexivity.
Defined.

Lemma has_two_users_bu : has (db two_users) "user_1" (runes "bu").
Proof. exists "1"%string. eexists. split; [vm_compute; reflexivity|]. split; reflexivity. Qed.

(** X23 at ["bu"] renamed to ["bus"] for its user. *)
Lemma UpdateUserSearchByWord_keeps_constraints_witness :
  (UpdateUserSearchByWord (db two_users) "user_1" (runes "bu") (runes "bus") 5).2 = None ∧
  has (UpdateUserSearchByWord (db two_users) "user_1" (runes "bu") (runes "bus") 5).1
    "user_1" (runes "bus") ∧
  unique (UpdateUserSearchByWord (db two_users) "user_1" (runes "bu") (runes "bus") 5).1.
Proof.
  destruct (UpdateUserSearchByWord_keeps_constraints (db two_users) "user_1"
              (runes "bu") (runes "bus") 5 10) as (_ & _ & Hun & Hhas).
  - apply two_users_constraints.
  - apply two_users_constraints.
  - apply two_users_constraints.
  - destruct (Hhas has_two_users_bu) as [Hnone Hiff].
    split; [exact Hnone|]. split; [|exact Hun].
    apply Hiff. right. split; reflexivity.
Defined.

(** X22 at ["bu"] renamed to itself: the record is merged with itself. *)
Lemma UpdateUserSearchByWord_spec_witness :
  UpdateUserSearchByWord (db two_users) "user_1" (runes "bu") (runes "bu") 9 =
    (mkMockPostgresDBV2
       (<["1"%string := mkUserSearchRecord 1 "user_1" (runes "bu") 1 9 2]>
          (userSearches (db two_users)))
       3,
     None).
Proof.
  destruct (UpdateUserSearchByWord_spec (db two_users) "user_1" (runes "bu") (runes "bu") 9)
    as [_ Hfound].
  - apply two_users_constraints.
  - destruct (Hfound "1"%string (mkUserSearchRecord 1 "user_1" (runes "bu") 1 1 1))
      as [_ Hmerge]; [vm_compute; reflexivity|reflexivity|reflexivity|].
    rewrite (Hmerge "1"%string (mkUserSearchRecord 1 "user_1" (runes "bu") 1 1 1));
      [|vm_compute; reflexivity|reflexivity|reflexivity].
    vm_compute. reflexivity.
Defined.

(** X25 at the record of the guest while the other user types on. *)
Lemma LogSearchV2_leaves_other_users_witness :
  userSearches (db (LogSearchV2 two_users "user_1" (runes "bus") 7).1) !! "2"%string
    = Some (mkUserSearchRecord 2 "guest_2" (runes "cat") 2 2 1).
Proof.
  apply (LogSearchV2_leaves_other_users two_users "user_1" (runes "bus") 7 "2"
           (mkUserSearchRecord 2 "guest_2" (runes "cat") 2 2 1)).
  - destruct two_users_constraints as ((? & ? & ?) & _). split; [done|]. lia.
  - apply two_users_constraints.
  - discriminate.
  - vm_compute. reflexivity.
Defined.




(** X28 at four identifiers, one of them for a guest. *)
Lemma generated_identifiers_are_distinct_witness :
  NoDup (generate NewUserIdentifierGenerator [false; true; false; false]) ∧
  generate NewUserIdentifierGenerator [false; true; false; false]
    = ["user_1"; "guest_2"; "user_3"; "user_4"]%string.
Proof.
  split; [|vm_compute; reflexivity].
  apply (generated_identifiers_are_distinct [false; true; false; false]).
  simpl. lia.
Defined.

End V2Examples.
